(** * The dependency-graph core of [prefect.core.flow]

    A shallow embedding of [src/prefect/core/flow.py]: the [Flow] graph
    builder with its rollback protocol, the Kahn-style [sorted_tasks], and the
    multi-pass fingerprinting of [generate_flow_id] / [generate_task_ids].

    Conventions of the embedding.
    - A Python [str] is a [string]; [bytes] is a [list byte].
    - A Python [set] is the list of its elements in iteration order, without
      repetition; [s.add(x)] appends [x] when it is absent.  Every theorem is
      stated for an arbitrary such list, hence for every iteration order.
    - A [dict] is an association list in insertion order; indexing a missing
      key raises [KeyError].
    - Methods of [Flow] that mutate [self] are computations in a state and
      exception monad over the flow: the state survives a raised exception,
      which is what the rollback protocol is about.
    - The [@cache] decorator memoises a pure function of
      [(self.tasks, self.edges)]; it is modelled by recomputation. *)

From Stdlib Require Import List String Ascii Bool Arith Lia.
From Stdlib Require Import Strings.Byte NArith.
From Stdlib Require Import Permutation Relations.
Import ListNotations.
Local Open Scope string_scope.
Local Open Scope list_scope.

Set Implicit Arguments.

(** ** Entity model *)

(** [inspect.Parameter.kind] of the parameters of [Task.run]. *)
Inductive param_kind :=
| POSITIONAL_ONLY
| POSITIONAL_OR_KEYWORD
| VAR_POSITIONAL
| KEYWORD_ONLY
| VAR_KEYWORD.

(** A [Task] object.  Tasks compare by identity: [task_ident] stands for the
    object's identity, so two tasks with the same attributes are still two
    tasks.  [task_info] is what [prefect.core.task.get_task_info] extracts (the
    attribute payload that is hashed), [is_parameter] says whether the object
    is an instance of [Parameter], [run_signature] is
    [inspect.signature(task.run)]. *)
Record Task := mkTask {
  task_ident : nat;
  task_info : string;
  slug : option string;
  is_parameter : bool;
  run_signature : list (string * param_kind)
}.

(** [prefect.core.edge.Edge]: value-equal by its three fields. *)
Record Edge := mkEdge {
  upstream_task : Task;
  downstream_task : Task;
  key : option string
}.

(** The part of a [Flow] object this core reads and writes.  [description],
    [schedule] and [environment] are stored and never inspected. *)
Record Flow := mkFlow {
  name : string;
  version : option string;
  tasks : list Task;
  edges : list Edge
}.

(** [prefect.core.task_result.TaskResult]: a task together with the flow it
    originates from. *)
Record TaskResult := mkTaskResult {
  tr_task : Task;
  tr_flow : Flow
}.

(** What a caller may pass where a task is expected. *)
Inductive task_like :=
| IsTask (t : Task)
| IsTaskResult (r : TaskResult).

(** Any Python value, as far as [isinstance(task, Task)] can tell. *)
Inductive pyobject :=
| ATask (t : Task)
| NotATask (repr : string).

(** The exceptions the module raises, named by Python class and raise site.
    In the words of the specification: [TypeError_not_a_task] is
    TypeValidationError, [ValueError_duplicate_slug] DuplicateSlugError,
    [ValueError_parameter_downstream] InvalidDependencyError,
    [ValueError_duplicate_key] DuplicateKeyError, [TypeError_bind]
    SignatureBindError, [ValueError_varargs] VarArgsUnsupportedError and
    [ValueError_cyclic] CyclicGraphError. *)
Inductive exn :=
| TypeError_not_a_task
| ValueError_duplicate_slug (s : string)
| ValueError_parameter_downstream
| ValueError_duplicate_key (k : string)
| TypeError_bind
| ValueError_varargs
| ValueError_cyclic
| KeyError (t : Task)
| TypeError_unorderable
| ValueError_uuid
| OtherError (msg : string).

Inductive result (A : Type) :=
| Ok (a : A)
| Raise (e : exn).
Arguments Ok {A} a.
Arguments Raise {A} e.

Definition rbind {A B} (r : result A) (k : A -> result B) : result B :=
  match r with
  | Ok a => k a
  | Raise e => Raise e
  end.

Declare Scope result_scope.
Delimit Scope result_scope with result.
Notation "x <- r ;; k" := (rbind r (fun x => k))
  (at level 61, r at next level, right associativity) : result_scope.

(** ** Decidable equality *)

Definition param_kind_eq_dec (a b : param_kind) : {a = b} + {a <> b}.
Proof. decide equality. Defined.

Definition option_string_eq_dec (a b : option string) : {a = b} + {a <> b}.
Proof. decide equality. apply string_dec. Defined.

Definition Task_eq_dec (a b : Task) : {a = b} + {a <> b}.
Proof.
  decide equality.
  - apply (list_eq_dec (A := string * param_kind)).
    decide equality; [apply param_kind_eq_dec | apply string_dec].
  - apply bool_dec.
  - apply option_string_eq_dec.
  - apply string_dec.
  - apply Nat.eq_dec.
Defined.

Definition Edge_eq_dec (a b : Edge) : {a = b} + {a <> b}.
Proof.
  decide equality; [apply option_string_eq_dec | apply Task_eq_dec | apply Task_eq_dec].
Defined.

Definition bytes_eq_dec (a b : list byte) : {a = b} + {a <> b} :=
  list_eq_dec Byte.byte_eq_dec a b.

(** ** Python sets as duplicate-free lists *)

Section PySet.
Variable A : Type.
Variable eq_dec : forall a b : A, {a = b} + {a <> b}.

(** [x in s] *)
Definition mem (x : A) (s : list A) : bool :=
  if in_dec eq_dec x s then true else false.

(** [s.add(x)] *)
Definition set_add (x : A) (s : list A) : list A :=
  if mem x s then s else s ++ [x].

(** [s.update(xs)] *)
Definition set_update (xs s : list A) : list A :=
  fold_left (fun acc x => set_add x acc) xs s.

(** [set(xs)] *)
Definition set_of (xs : list A) : list A := set_update xs [].

(** [l.remove(x)] on a list: the first occurrence goes. *)
Fixpoint list_remove (x : A) (l : list A) : list A :=
  match l with
  | [] => []
  | y :: l' => if eq_dec x y then l' else y :: list_remove x l'
  end.
End PySet.

(** ** Graph index *)

(** A [Dict[Task, Set[Edge]]]. *)
Definition adjacency := list (Task * list Edge).

(** [d[t]] *)
Fixpoint dict_get (d : adjacency) (t : Task) : result (list Edge) :=
  match d with
  | [] => Raise (KeyError t)
  | (t', es) :: d' => if Task_eq_dec t t' then Ok es else dict_get d' t
  end.

(** [d[t].add(e)] *)
Fixpoint dict_add (d : adjacency) (t : Task) (e : Edge) : result adjacency :=
  match d with
  | [] => Raise (KeyError t)
  | (t', es) :: d' =>
      if Task_eq_dec t t' then Ok ((t', set_add Edge_eq_dec e es) :: d')
      else (d'' <- dict_add d' t e ;; Ok ((t', es) :: d''))%result
  end.

(** The loop [for edge in self.edges: edges[endpoint(edge)].add(edge)]. *)
Fixpoint index_edges (endpoint : Edge -> Task) (es : list Edge)
    (d : adjacency) : result adjacency :=
  match es with
  | [] => Ok d
  | e :: es' =>
      (d' <- dict_add d (endpoint e) e ;; index_edges endpoint es' d')%result
  end.

Definition all_upstream_edges (f : Flow) : result adjacency :=
  index_edges downstream_task (edges f) (map (fun t => (t, [])) (tasks f)).

Definition all_downstream_edges (f : Flow) : result adjacency :=
  index_edges upstream_task (edges f) (map (fun t => (t, [])) (tasks f)).

Definition edges_to (f : Flow) (task : Task) : result (list Edge) :=
  (d <- all_upstream_edges f ;; dict_get d task)%result.

Definition edges_from (f : Flow) (task : Task) : result (list Edge) :=
  (d <- all_downstream_edges f ;; dict_get d task)%result.

Definition upstream_tasks (f : Flow) (task : Task) : result (list Task) :=
  (es <- edges_to f task ;; Ok (set_of Task_eq_dec (map upstream_task es)))%result.

Definition downstream_tasks (f : Flow) (task : Task) : result (list Task) :=
  (es <- edges_from f task ;; Ok (set_of Task_eq_dec (map downstream_task es)))%result.

(** [for x in xs: body] threading an accumulator through a fallible body. *)
Fixpoint rfold {A B} (body : B -> A -> result B) (xs : list A) (acc : B)
    : result B :=
  match xs with
  | [] => Ok acc
  | x :: xs' => (acc' <- body acc x ;; rfold body xs' acc')%result
  end.

(** [set(t for t in self.tasks if not self.edges_to(t))] *)
Definition root_tasks (f : Flow) : result (list Task) :=
  rfold (fun acc t =>
           (es <- edges_to f t ;;
            Ok (match es with [] => set_add Task_eq_dec t acc | _ => acc end))%result)
        (tasks f) [].

Definition terminal_tasks (f : Flow) : result (list Task) :=
  rfold (fun acc t =>
           (es <- edges_from f t ;;
            Ok (match es with [] => set_add Task_eq_dec t acc | _ => acc end))%result)
        (tasks f) [].

(** ** Topology engine *)

(** The set difference [tasks.difference(seen)]. *)
Definition difference (a b : list Task) : list Task :=
  filter (fun t => negb (mem Task_eq_dec t b)) a.

(** One round of the closure loop of [sorted_tasks]:
    [for t in list(tasks.difference(seen)):
       tasks.update(self.downstream_tasks(t)); seen.add(t)]. *)
Definition closure_round (f : Flow) (ts seen : list Task)
    : result (list Task * list Task) :=
  rfold (fun '(ts', seen') t =>
           (ds <- downstream_tasks f t ;;
            Ok (set_update Task_eq_dec ds ts', set_add Task_eq_dec t seen'))%result)
        (difference ts seen) (ts, seen).

(** [while tasks.difference(seen): ...], at most [fuel] rounds.  [None] means
    that the rounds were not enough. *)
Fixpoint closure_loop (f : Flow) (fuel : nat) (ts seen : list Task)
    : option (result (list Task)) :=
  match difference ts seen with
  | [] => Some (Ok ts)
  | _ :: _ =>
      match fuel with
      | O => None
      | S fuel' =>
          match closure_round f ts seen with
          | Raise e => Some (Raise e)
          | Ok (ts', seen') => closure_loop f fuel' ts' seen'
          end
      end
  end.

(** One scan of [for task in remaining_tasks.copy()]: [todo] is what is left
    of the copy, [remaining] and [sorted] are the two lists being mutated, and
    [cyclic] is the flag. *)
Fixpoint scan (f : Flow) (todo remaining sorted : list Task) (cyclic : bool)
    : result (list Task * list Task * bool) :=
  match todo with
  | [] => Ok (remaining, sorted, cyclic)
  | task :: todo' =>
      (ups <- upstream_tasks f task ;;
       if existsb (fun u => mem Task_eq_dec u remaining) ups
       then scan f todo' remaining sorted cyclic
       else scan f todo' (list_remove Task_eq_dec task remaining)
                 (sorted ++ [task]) false)%result
  end.

(** [while remaining_tasks: ...], at most [fuel] scans. *)
Fixpoint sort_loop (f : Flow) (fuel : nat) (remaining sorted : list Task)
    : option (result (list Task)) :=
  match remaining with
  | [] => Some (Ok sorted)
  | _ :: _ =>
      match fuel with
      | O => None
      | S fuel' =>
          match scan f remaining remaining sorted true with
          | Raise e => Some (Raise e)
          | Ok (remaining', sorted', cyclic) =>
              if cyclic then Some (Raise ValueError_cyclic)
              else sort_loop f fuel' remaining' sorted'
          end
      end
  end.

(** The tasks under consideration: the whole task set, or the root tasks and
    everything downstream of them.  [if root_tasks:] is false for [None] and
    for an empty collection alike.  Every round of the closure marks a task of
    the flow as seen, so [length (tasks f)] rounds and one are enough
    ([closure_loop_fuel] below); the [None] branch is dead. *)
Definition working_tasks (f : Flow) (roots : option (list Task))
    : result (list Task) :=
  match roots with
  | None | Some [] => Ok (tasks f)
  | Some rs =>
      match closure_loop f (S (List.length (tasks f))) (set_of Task_eq_dec rs) [] with
      | Some r => r
      | None => Raise (OtherError "unreachable")
      end
  end.

(** [Flow.sorted_tasks].  Every scan that does not raise removes a task from
    [remaining_tasks], so as many scans as there are tasks suffice
    ([sort_loop_fuel] below); the [None] branch is dead. *)
Definition sorted_tasks (f : Flow) (roots : option (list Task))
    : result (list Task) :=
  (ws <- working_tasks f roots ;;
   match sort_loop f (List.length ws) ws [] with
   | Some r => r
   | None => Raise (OtherError "unreachable")
   end)%result.

(** [Flow.validate] *)
Definition validate (f : Flow) : result unit :=
  (_ <- sorted_tasks f None ;; Ok tt)%result.

(** ** Graph builder *)

(** A method that may mutate [self] and may raise: it returns its outcome
    together with the flow as the call leaves it. *)
Definition M (A : Type) : Type := Flow -> result A * Flow.

Definition ret {A} (a : A) : M A := fun f => (Ok a, f).

Definition raise {A} (e : exn) : M A := fun f => (Raise e, f).

Definition bind {A B} (m : M A) (k : A -> M B) : M B :=
  fun f =>
    match m f with
    | (Ok a, f') => k a f'
    | (Raise e, f') => (Raise e, f')
    end.

(** A query on [self] that mutates nothing. *)
Definition query {A} (q : Flow -> result A) : M A := fun f => (q f, f).

Definition get_tasks : M (list Task) := fun f => (Ok (tasks f), f).

Definition get_edges : M (list Edge) := fun f => (Ok (edges f), f).

Declare Scope flow_scope.
Delimit Scope flow_scope with flow.
Notation "x <- m ;; k" := (bind m (fun x => k))
  (at level 61, m at next level, right associativity) : flow_scope.
Notation "m1 ;; m2" := (bind m1 (fun _ => m2))
  (at level 61, right associativity) : flow_scope.

Definition when (b : bool) (m : M unit) : M unit :=
  if b then m else ret tt.

(** [for x in xs: body] *)
Fixpoint for_each {A} (xs : list A) (body : A -> M unit) : M unit :=
  match xs with
  | [] => ret tt
  | x :: xs' => (body x ;; for_each xs' body)%flow
  end.

(** Truth value of an optional string: [None] and the empty string are
    false. *)
Definition truthy (s : option string) : bool :=
  match s with
  | None => false
  | Some s' => negb (String.eqb s' "")
  end.

(** [Flow.restore_graph_on_error]: the [with] block is [body]. *)
Definition restore_graph_on_error {A} (validate_ : bool) (body : M A) : M A :=
  fun f =>
    let saved_tasks := tasks f in
    let saved_edges := edges f in
    let restore f' := mkFlow (name f') (version f') saved_tasks saved_edges in
    match body f with
    | (Ok a, f') =>
        if validate_ then
          match validate f' with
          | Ok _ => (Ok a, f')
          | Raise e => (Raise e, restore f')
          end
        else (Ok a, f')
    | (Raise e, f') => (Raise e, restore f')
    end.

(** [Flow.add_task] *)
Definition add_task (task : pyobject) : M unit :=
  match task with
  | NotATask _ => raise TypeError_not_a_task
  | ATask t =>
      fun f =>
        if negb (mem Task_eq_dec t (tasks f))
           && truthy (slug t)
           && mem option_string_eq_dec (slug t) (map slug (tasks f))
        then (Raise (ValueError_duplicate_slug
                       (match slug t with Some s => s | None => "" end)), f)
        else (Ok tt, mkFlow (name f) (version f)
                            (set_add Task_eq_dec t (tasks f)) (edges f))
  end.

(** [self.edges.add(edge)] *)
Definition insert_edge (edge : Edge) : M unit :=
  fun f => (Ok tt, mkFlow (name f) (version f) (tasks f)
                          (set_add Edge_eq_dec edge (edges f))).

(** [isinstance(x, TaskResult)] and [x.task] *)
Definition resolve (x : task_like) : Task :=
  match x with
  | IsTask t => t
  | IsTaskResult r => tr_task r
  end.

(** The second guard of [add_edge]:
    [if key and key in {e.key for e in self.edges_to(downstream_task)}]. *)
Definition check_duplicate_key (downstream : Task) (k : option string)
    : M unit :=
  if truthy k then
    (es <- query (fun f => edges_to f downstream) ;;
     if mem option_string_eq_dec k (set_of option_string_eq_dec (map key es))
     then raise (ValueError_duplicate_key
                   (match k with Some s => s | None => "" end))
     else ret tt)%flow
  else ret tt.

(** Whether a keyword argument [k] can be bound against a signature: a
    parameter of that name that may be passed by keyword, or a [**kwargs]
    parameter. *)
Definition accepts_keyword (sig : list (string * param_kind)) (k : string)
    : bool :=
  existsb (fun p =>
             match snd p with
             | VAR_KEYWORD => true
             | POSITIONAL_OR_KEYWORD | KEYWORD_ONLY => String.eqb (fst p) k
             | POSITIONAL_ONLY | VAR_POSITIONAL => false
             end) sig.

(** [inspect.signature(run).bind_partial( **kwargs)] with keyword arguments
    only: it raises [TypeError] when a keyword cannot be bound. *)
Definition bind_partial (sig : list (string * param_kind))
    (kwargs : list string) : result unit :=
  if forallb (accepts_keyword sig) kwargs then Ok tt else Raise TypeError_bind.

(** [{e.key: None for e in es if e.key is not None}], its keys. *)
Definition edge_keys (es : list Edge) : list string :=
  set_of string_dec
    (flat_map (fun e => match key e with Some s => [s] | None => [] end) es).

(** The [with] block of [add_edge]. *)
Definition add_edge_block (upstream downstream : Task) (k : option string)
    : M unit :=
  (ts <- get_tasks ;;
   when (negb (mem Task_eq_dec upstream ts)) (add_task (ATask upstream)) ;;
   ts' <- get_tasks ;;
   when (negb (mem Task_eq_dec downstream ts')) (add_task (ATask downstream)) ;;
   insert_edge (mkEdge upstream downstream k) ;;
   match k with
   | None => ret tt
   | Some _ =>
       es <- query (fun f => edges_to f downstream) ;;
       query (fun _ => bind_partial (run_signature downstream) (edge_keys es))
   end)%flow.

(** [Flow.add_edge] *)
Definition add_edge (upstream downstream : task_like) (k : option string)
    (validate_ : bool) : M unit :=
  let upstream := resolve upstream in
  let downstream := resolve downstream in
  if is_parameter downstream then raise ValueError_parameter_downstream
  else
    (check_duplicate_key downstream k ;;
     restore_graph_on_error validate_
       (add_edge_block upstream downstream k))%flow.

(** [Flow.update] *)
Definition update (flow : Flow) (validate_ : bool) : M unit :=
  restore_graph_on_error validate_
    (for_each (tasks flow)
       (fun task =>
          ts <- get_tasks ;;
          when (negb (mem Task_eq_dec task ts)) (add_task (ATask task))) ;;
     for_each (edges flow)
       (fun edge =>
          es <- get_edges ;;
          when (negb (mem Edge_eq_dec edge es))
               (add_edge (IsTask (upstream_task edge))
                         (IsTask (downstream_task edge)) (key edge) false)))%flow.

(** [Flow.add_task_results] *)
Definition add_task_results (task_results : list TaskResult)
    (validate_ : bool) : M unit :=
  restore_graph_on_error validate_
    (for_each task_results
       (fun t => add_task (ATask (tr_task t)) ;; update (tr_flow t) false))%flow.

(** [next((p for p in signature.parameters.values()
           if p.kind == VAR_POSITIONAL), None)] is not [None]. *)
Definition has_varargs (sig : list (string * param_kind)) : bool :=
  existsb (fun p => if param_kind_eq_dec (snd p) VAR_POSITIONAL
                    then true else false) sig.

Section SetDependencies.
(** [prefect.utilities.tasks.as_task_result] is not part of this module: it
    turns what the caller passed into a [TaskResult], or raises. *)
Variable as_task_result : task_like -> result TaskResult.

(** [Flow.set_dependencies].  The inner [add_task_results] calls run with
    their default [validate=True]. *)
Definition set_dependencies (task : task_like)
    (upstream_tasks_ downstream_tasks_ : list task_like)
    (keyword_results : list (string * task_like)) (validate_ : bool)
    : M TaskResult :=
  (task' <-
     restore_graph_on_error validate_
       (result_ <- query (fun _ => as_task_result task) ;;
        let task' := tr_task result_ in
        (if has_varargs (run_signature task')
         then raise ValueError_varargs else ret tt) ;;
        add_task_results [result_] true ;;
        for_each upstream_tasks_
          (fun t =>
             tr <- query (fun _ => as_task_result t) ;;
             add_task_results [tr] true ;;
             add_edge (IsTaskResult tr) (IsTask task') None false) ;;
        for_each downstream_tasks_
          (fun t =>
             tr <- query (fun _ => as_task_result t) ;;
             add_task_results [tr] true ;;
             add_edge (IsTask task') (IsTaskResult tr) None false) ;;
        for_each keyword_results
          (fun kt =>
             tr <- query (fun _ => as_task_result (snd kt)) ;;
             add_task_results [tr] true ;;
             add_edge (IsTaskResult tr) (IsTask task') (Some (fst kt)) false) ;;
        ret task') ;;
   fun f => (Ok (mkTaskResult task' f), f))%flow.

(** A top-level call of the mutation API. *)
Inductive call :=
| Call_add_task (task : pyobject)
| Call_add_edge (upstream downstream : task_like) (k : option string)
    (validate_ : bool)
| Call_update (flow : Flow) (validate_ : bool)
| Call_add_task_results (task_results : list TaskResult) (validate_ : bool)
| Call_set_dependencies (task : task_like)
    (upstream_tasks_ downstream_tasks_ : list task_like)
    (keyword_results : list (string * task_like)) (validate_ : bool).

Definition run_call (c : call) : M unit :=
  match c with
  | Call_add_task task => add_task task
  | Call_add_edge u d k v => add_edge u d k v
  | Call_update flow v => update flow v
  | Call_add_task_results trs v => add_task_results trs v
  | Call_set_dependencies t us ds ks v =>
      (set_dependencies t us ds ks v ;; ret tt)%flow
  end.

(** [Flow.__init__]: [name or type(self).__name__], then [add_task] for
    each task and [add_edge] (validating) for each edge.  An exception
    leaves no flow behind. *)
Definition Flow_init (name_ version_ : option string) (tasks_ : list pyobject)
    (edges_ : list Edge) : result Flow :=
  let self := mkFlow (if truthy name_
                      then match name_ with Some n => n | None => "" end
                      else "Flow")
                     version_ [] [] in
  match (for_each tasks_ add_task ;;
         for_each edges_
           (fun e => add_edge (IsTask (upstream_task e))
                              (IsTask (downstream_task e)) (key e) true))%flow
          self with
  | (Ok _, f) => Ok f
  | (Raise e, _) => Raise e
  end.

(** The flows a caller can obtain through construction and the mutation
    API, whether a call returns or raises. *)
Inductive reachable : Flow -> Prop :=
| reachable_init n v ts es f :
    Flow_init n v ts es = Ok f -> reachable f
| reachable_call f c :
    reachable f -> reachable (snd (run_call c f)).
End SetDependencies.

(** ** Fingerprint engine *)

(** *** Bytes, [xor] and UUID strings *)

(** [x ^ y] on two bytes. *)
Definition byte_xor (x y : byte) : byte :=
  let '(x0, (x1, (x2, (x3, (x4, (x5, (x6, x7))))))) := Byte.to_bits x in
  let '(y0, (y1, (y2, (y3, (y4, (y5, (y6, y7))))))) := Byte.to_bits y in
  Byte.of_bits (xorb x0 y0, (xorb x1 y1, (xorb x2 y2, (xorb x3 y3,
               (xorb x4 y4, (xorb x5 y5, (xorb x6 y6, xorb x7 y7))))))).

(** [xor(hash1, hash2)]:
    [bytes([x ^ y for x, y in zip(hash1, itertools.cycle(hash2))])].
    Cycling an empty [hash2] yields nothing, and so does the [zip]. *)
Definition xor (hash1 hash2 : list byte) : list byte :=
  match hash2 with
  | [] => []
  | _ :: _ =>
      map (fun ix => byte_xor (snd ix)
                       (nth (fst ix mod List.length hash2) hash2 x00))
          (combine (seq 0 (List.length hash1)) hash1)
  end.

(** The lowercase hexadecimal digit of a nibble, bits from the lowest. *)
Definition hex_digit (b0 b1 b2 b3 : bool) : ascii :=
  match b3, b2, b1, b0 with
  | false, false, false, false => "0"
  | false, false, false, true => "1"
  | false, false, true, false => "2"
  | false, false, true, true => "3"
  | false, true, false, false => "4"
  | false, true, false, true => "5"
  | false, true, true, false => "6"
  | false, true, true, true => "7"
  | true, false, false, false => "8"
  | true, false, false, true => "9"
  | true, false, true, false => "a"
  | true, false, true, true => "b"
  | true, true, false, false => "c"
  | true, true, false, true => "d"
  | true, true, true, false => "e"
  | true, true, true, true => "f"
  end%char.

(** The nibble of a hexadecimal digit, in either case. *)
Definition hex_value (c : ascii) : option (bool * bool * bool * bool) :=
  match c with
  | "0" => Some (false, false, false, false)
  | "1" => Some (true, false, false, false)
  | "2" => Some (false, true, false, false)
  | "3" => Some (true, true, false, false)
  | "4" => Some (false, false, true, false)
  | "5" => Some (true, false, true, false)
  | "6" => Some (false, true, true, false)
  | "7" => Some (true, true, true, false)
  | "8" => Some (false, false, false, true)
  | "9" => Some (true, false, false, true)
  | "a" | "A" => Some (false, true, false, true)
  | "b" | "B" => Some (true, true, false, true)
  | "c" | "C" => Some (false, false, true, true)
  | "d" | "D" => Some (true, false, true, true)
  | "e" | "E" => Some (false, true, true, true)
  | "f" | "F" => Some (true, true, true, true)
  | _ => None
  end%char.

(** Two hexadecimal digits per byte, the high nibble first. *)
Definition hex_hi (b : byte) : ascii :=
  let '(_, (_, (_, (_, (b4, (b5, (b6, b7))))))) := Byte.to_bits b in
  hex_digit b4 b5 b6 b7.

Definition hex_lo (b : byte) : ascii :=
  let '(b0, (b1, (b2, (b3, _)))) := Byte.to_bits b in
  hex_digit b0 b1 b2 b3.

Definition hex_of_byte (b : byte) : list ascii := [hex_hi b; hex_lo b].

Definition hex_of_bytes (bs : list byte) : list ascii :=
  flat_map hex_of_byte bs.

Fixpoint bytes_of_hex (cs : list ascii) : option (list byte) :=
  match cs with
  | [] => Some []
  | hi :: lo :: cs' =>
      match hex_value hi, hex_value lo, bytes_of_hex cs' with
      | Some (b4, b5, b6, b7), Some (b0, b1, b2, b3), Some bs =>
          Some (Byte.of_bits (b0, (b1, (b2, (b3, (b4, (b5, (b6, b7)))))))
                  :: bs)
      | _, _, _ => None
      end
  | [_] => None
  end.

(** [str(uuid.UUID(bytes=b))]: [ValueError] unless there are 16 bytes, else
    the 8-4-4-4-12 hexadecimal form. *)
Definition uuid_of_bytes (b : list byte) : result string :=
  if Nat.eqb (List.length b) 16 then
    let h := hex_of_bytes b in
    let dash := ["-"%char] in
    Ok (string_of_list_ascii
          (firstn 8 h ++ dash ++ firstn 4 (skipn 8 h) ++ dash
           ++ firstn 4 (skipn 12 h) ++ dash ++ firstn 4 (skipn 16 h) ++ dash
           ++ skipn 20 h))
  else Raise ValueError_uuid.

(** [uuid.UUID(s).bytes] for the strings this module passes: the hyphens are
    dropped and 32 hexadecimal digits must remain. *)
Definition bytes_of_uuid (s : string) : result (list byte) :=
  let h := filter (fun c => negb (Ascii.eqb c "-")) (list_ascii_of_string s) in
  if Nat.eqb (List.length h) 32 then
    match bytes_of_hex h with
    | Some b => Ok b
    | None => Raise ValueError_uuid
    end
  else Raise ValueError_uuid.

(** *** [sorted] on the [(key, hash)] pairs *)

(** [a < b] on [bytes]. *)
Fixpoint bytes_ltb (a b : list byte) : bool :=
  match a, b with
  | _, [] => false
  | [], _ :: _ => true
  | x :: a', y :: b' =>
      match N.compare (Byte.to_N x) (Byte.to_N y) with
      | Lt => true
      | Gt => false
      | Eq => bytes_ltb a' b'
      end
  end.

(** [p < q] on two pairs whose keys are both [None] or both strings. *)
Definition pair_ltb (p q : option string * list byte) : bool :=
  match fst p, fst q with
  | Some s, Some s' =>
      match String.compare s s' with
      | Lt => true
      | Gt => false
      | Eq => bytes_ltb (snd p) (snd q)
      end
  | _, _ => bytes_ltb (snd p) (snd q)
  end.

Fixpoint insert_sorted (p : option string * list byte)
    (l : list (option string * list byte)) : list (option string * list byte) :=
  match l with
  | [] => [p]
  | q :: l' => if pair_ltb p q then p :: l else q :: insert_sorted p l'
  end.

Definition is_none {A} (o : option A) : bool :=
  match o with None => true | Some _ => false end.

(** [sorted(pairs)].  Tuples compare by their first differing component, and
    [None < "x"] is a [TypeError] in Python 3: sorting pairs of which one has
    the key [None] and another a string raises.  Otherwise the order is the
    one of [pair_ltb]. *)
Definition py_sorted (pairs : list (option string * list byte))
    : result (list (option string * list byte)) :=
  if existsb (fun p => is_none (fst p)) pairs
     && existsb (fun p => negb (is_none (fst p))) pairs
  then Raise TypeError_unorderable
  else Ok (fold_right insert_sorted [] pairs).

(** *** Hashing *)

(** What [jsonpickle.dumps] is applied to. *)
Inductive pickled :=
| Pickle_task_info (info : string)
| Pickle_edge_info (upstream_info downstream_info : string)
    (k : option string)
| Pickle_hash_tuple (h : list byte)
    (edge_hashes : list (option string * list byte)).

(** What [get_hash] is applied to. *)
Inductive hashable :=
| Hash_bytes (b : list byte)
| Hash_str (s : string)
| Hash_task (t : Task)
| Hash_edge (e : Edge)
| Hash_tuple (h : list byte) (edge_hashes : list (option string * list byte)).

(** A [Dict[Task, bytes]] in insertion order. *)
Definition hash_dict := list (Task * list byte).

(** [d[t]] *)
Fixpoint hash_get (d : hash_dict) (t : Task) : result (list byte) :=
  match d with
  | [] => Raise (KeyError t)
  | (t', h) :: d' => if Task_eq_dec t t' then Ok h else hash_get d' t
  end.

(** [d[t] = h] *)
Fixpoint hash_set (d : hash_dict) (t : Task) (h : list byte) : hash_dict :=
  match d with
  | [] => [(t, h)]
  | (t', h') :: d' =>
      if Task_eq_dec t t' then (t', h) :: d' else (t', h') :: hash_set d' t h
  end.

(** A [collections.Counter] over hashes: a missing hash counts 0. *)
Definition Counter := list byte -> nat.

(** [Counter(values)] *)
Definition Counter_of (values : list (list byte)) : Counter :=
  fun h => count_occ bytes_eq_dec values h.

(** [counter[h] += 1] *)
Definition increment (counter : Counter) (h : list byte) : Counter :=
  fun h' => if bytes_eq_dec h' h then S (counter h') else counter h'.

(** The three dictionaries [generate_task_ids] works on. *)
Record fingerprint_state := mkState {
  hashes : hash_dict;
  counter : Counter;
  final_hashes : hash_dict
}.

Section Fingerprint.
(** [hashlib.md5(b).digest()], [jsonpickle.dumps] and [str] of a
    [(bytes, list)] tuple are library functions. *)
Variable md5 : list byte -> list byte.
Variable jsonpickle_dumps : pickled -> string.
Variable str_of_tuple :
  list byte -> list (option string * list byte) -> string.

(** [prefect.core.task.get_task_info] *)
Definition get_task_info (t : Task) : string := task_info t.

(** [get_hash]; [s.encode()] is the UTF-8 byte sequence of [s]. *)
Definition get_hash (obj : hashable) : list byte :=
  match obj with
  | Hash_bytes b => md5 b
  | Hash_str s => md5 (list_byte_of_string s)
  | Hash_task t =>
      md5 (list_byte_of_string
             (jsonpickle_dumps (Pickle_task_info (get_task_info t))))
  | Hash_edge e =>
      md5 (list_byte_of_string
             (jsonpickle_dumps
                (Pickle_edge_info (get_task_info (upstream_task e))
                                  (get_task_info (downstream_task e))
                                  (key e))))
  | Hash_tuple h es =>
      md5 (list_byte_of_string (jsonpickle_dumps (Pickle_hash_tuple h es)))
  end.

(** [Flow.generate_flow_id]; [self.version or ""]. *)
Definition generate_flow_id (f : Flow) : result string :=
  let hash_bytes :=
    get_hash (Hash_str (name f ++ ":"
                        ++ match version f with Some v => v | None => "" end)) in
  uuid_of_bytes hash_bytes.

(** [sorted((e.key, hashes[endpoint(e)]) for e in es)] *)
Definition edge_hashes_of (hs : hash_dict) (endpoint : Edge -> Task)
    (es : list Edge) : result (list (option string * list byte)) :=
  (pairs <- rfold (fun acc e =>
                     h <- hash_get hs (endpoint e) ;; Ok (acc ++ [(key e, h)]))
                  es [] ;;
   py_sorted pairs)%result.

(** The body of forward pass #1 for one task. *)
Definition forward_step (f : Flow) (st : fingerprint_state) (t : Task)
    : result fingerprint_state :=
  (h <- hash_get (hashes st) t ;;
   if Nat.eqb (counter st h) 1
   then Ok (mkState (hashes st) (counter st) (hash_set (final_hashes st) t h))
   else
     es <- edges_to f t ;;
     edge_hashes <- edge_hashes_of (hashes st) upstream_task es ;;
     let h' := get_hash (Hash_tuple h edge_hashes) in
     Ok (mkState (hash_set (hashes st) t h') (increment (counter st) h')
                 (final_hashes st)))%result.

(** The body of the backward pass for one task. *)
Definition backward_step (f : Flow) (st : fingerprint_state) (t : Task)
    : result fingerprint_state :=
  (h <- hash_get (hashes st) t ;;
   if Nat.eqb (counter st h) 1
   then Ok (mkState (hashes st) (counter st) (hash_set (final_hashes st) t h))
   else
     es <- edges_from f t ;;
     edge_hashes <- edge_hashes_of (hashes st) downstream_task es ;;
     let h' := get_hash (Hash_str (str_of_tuple h edge_hashes)) in
     Ok (mkState (hash_set (hashes st) t h') (increment (counter st) h')
                 (final_hashes st)))%result.

(** [while counter[hashes[t]] > 1: hashes[t] = get_hash(hashes[t]);
    counter[hashes[t]] += 1], at most [fuel] iterations; [None] when they
    were not enough. *)
Fixpoint duplicate_check (fuel : nat) (h : list byte) (c : Counter)
    : option (list byte * Counter) :=
  if Nat.ltb 1 (c h) then
    match fuel with
    | O => None
    | S fuel' =>
        let h' := get_hash (Hash_bytes h) in
        duplicate_check fuel' h' (increment c h')
    end
  else Some (h, c).

(** The body of forward pass #2 for one task. *)
Definition final_step (fuel : nat) (f : Flow) (st : fingerprint_state)
    (t : Task) : option (result fingerprint_state) :=
  match hash_get (hashes st) t with
  | Raise e => Some (Raise e)
  | Ok h =>
      if Nat.eqb (counter st h) 1
      then Some (Ok (mkState (hashes st) (counter st)
                             (hash_set (final_hashes st) t h)))
      else
        match (es <- edges_to f t ;;
               edge_hashes_of (hashes st) upstream_task es)%result with
        | Raise e => Some (Raise e)
        | Ok edge_hashes =>
            let h' := get_hash (Hash_str (str_of_tuple h edge_hashes)) in
            match duplicate_check fuel h' (increment (counter st) h') with
            | None => None
            | Some (h'', c) =>
                Some (Ok (mkState (hash_set (hashes st) t h'') c
                                  (hash_set (final_hashes st) t h'')))
            end
        end
  end.

Fixpoint final_pass (fuel : nat) (f : Flow) (ts : list Task)
    (st : fingerprint_state) : option (result fingerprint_state) :=
  match ts with
  | [] => Some (Ok st)
  | t :: ts' =>
      match final_step fuel f st t with
      | None => None
      | Some (Raise e) => Some (Raise e)
      | Some (Ok st') => final_pass fuel f ts' st'
      end
  end.

(** [{t: str(uuid.UUID(bytes=xor(seed, h))) for t, h in final_hashes.items()}] *)
Definition seed_ids (seed : list byte) (final : hash_dict)
    : result (list (Task * string)) :=
  rfold (fun acc th =>
           (s <- uuid_of_bytes (xor seed (snd th)) ;;
            Ok (acc ++ [(fst th, s)]))%result)
        final [].

(** [Flow.generate_task_ids].  [fuel] bounds each run of the duplicate
    check; [None] means that a run needed more. *)
Definition generate_task_ids (fuel : nat) (f : Flow)
    : option (result (list (Task * string))) :=
  let hashes0 := map (fun t => (t, get_hash (Hash_task t))) (tasks f) in
  let st0 := mkState hashes0 (Counter_of (map snd hashes0)) [] in
  match (order <- sorted_tasks f None ;;
         st1 <- rfold (forward_step f) order st0 ;;
         order' <- sorted_tasks f None ;;
         st2 <- rfold (backward_step f) (rev order') st1 ;;
         order'' <- sorted_tasks f None ;;
         Ok (order'', st2))%result with
  | Raise e => Some (Raise e)
  | Ok (order, st2) =>
      match final_pass fuel f order st2 with
      | None => None
      | Some (Raise e) => Some (Raise e)
      | Some (Ok st3) =>
          Some (flow_id <- generate_flow_id f ;;
                seed <- bytes_of_uuid flow_id ;;
                seed_ids seed (final_hashes st3))%result
      end
  end.
End Fingerprint.

(** ** Vocabulary of the properties *)

(** [u -> v] is an edge of the flow. *)
Definition dep (f : Flow) (u v : Task) : Prop :=
  exists e, In e (edges f) /\ upstream_task e = u /\ downstream_task e = v.

(** The edge relation restricted to the tasks of [ws]. *)
Definition dep_in (f : Flow) (ws : list Task) (u v : Task) : Prop :=
  dep f u v /\ In u ws /\ In v ws.

(** The edges between tasks of [ws] contain a cycle. *)
Definition has_cycle (f : Flow) (ws : list Task) : Prop :=
  exists t, clos_trans Task (dep_in f ws) t t.

(** [u] occurs in [l] at a position strictly before one of [v]. *)
Definition before (u v : Task) (l : list Task) : Prop :=
  exists l1 l2 l3, l = l1 ++ u :: l2 ++ v :: l3.

(** Invariant 1 of the data model: the endpoints of every edge are tasks of
    the flow. *)
Definition edges_closed (f : Flow) : Prop :=
  forall e, In e (edges f) ->
    In (upstream_task e) (tasks f) /\ In (downstream_task e) (tasks f).

(** A flow of the data model: [tasks] is a set and invariant 1 holds. *)
Definition well_formed (f : Flow) : Prop :=
  NoDup (tasks f) /\ edges_closed f.

(** [m] keeps [P], whether it returns or raises. *)
Definition preserves (P : Flow -> Prop) {A} (m : M A) : Prop :=
  forall f, P f -> P (snd (m f)).

(** [P] looks at the two sets only. *)
Definition graph_only (P : Flow -> Prop) : Prop :=
  forall f g, tasks f = tasks g -> edges f = edges g -> P f -> P g.

(** Invariant 4 of the data model. *)
Definition no_parameter_downstream (f : Flow) : Prop :=
  forall e, In e (edges f) -> is_parameter (downstream_task e) = false.

Definition flow_invariant (f : Flow) : Prop :=
  well_formed f /\ no_parameter_downstream f.

(** How many tasks currently carry the hash [x]. *)
Definition holders (d : hash_dict) (x : list byte) : nat :=
  count_occ bytes_eq_dec (map snd d) x.

(** [x] lies on a cycle through [ws]. *)
Definition lies_on_cycle (f : Flow) (ws : list Task) (x : Task) : Prop :=
  clos_trans Task (dep_in f ws) x x.

(** The order [l] respects every edge into it that starts in [ws]. *)
Definition respects_edges (f : Flow) (ws l : list Task) : Prop :=
  forall u v, dep f u v -> In u ws -> In v l -> before u v l.

(** What the passes of [generate_task_ids] keep: the hashed tasks are the
    tasks of the flow, no hash has more holders than the counter says, every
    hash has sixteen bytes, and [final_hashes] is a dictionary over tasks of
    the flow. *)
Definition passes_invariant (f : Flow) (st : fingerprint_state) : Prop :=
  map fst (hashes st) = tasks f /\
  (forall x, holders (hashes st) x <= counter st x) /\
  Forall (fun p => List.length (snd p) = 16) (hashes st) /\
  NoDup (map fst (final_hashes st)) /\
  incl (map fst (final_hashes st)) (tasks f).

(** What forward pass #2 has established for the tasks [done] it has been
    through: each has its hash recorded in [final_hashes], and no two of
    them carry the same hash. *)
Definition settled (f : Flow) (st : fingerprint_state) (done : list Task)
    : Prop :=
  passes_invariant f st /\
  (forall t, In t done ->
     exists h, hash_get (hashes st) t = Ok h /\
               hash_get (final_hashes st) t = Ok h) /\
  (forall t1 t2 h, In t1 done -> In t2 done -> t1 <> t2 ->
     hash_get (hashes st) t1 = Ok h -> hash_get (hashes st) t2 = Ok h ->
     False).

(** [well_formed] as a check. *)
Fixpoint no_duplicates (l : list Task) : bool :=
  match l with
  | [] => true
  | x :: l' => negb (mem Task_eq_dec x l') && no_duplicates l'
  end.

Definition well_formedb (f : Flow) : bool :=
  no_duplicates (tasks f)
  && forallb (fun e => mem Task_eq_dec (upstream_task e) (tasks f)
                       && mem Task_eq_dec (downstream_task e) (tasks f))
             (edges f).

(** A list in which each element is related to the next. *)
Fixpoint is_chain {A} (P : A -> A -> Prop) (l : list A) : Prop :=
  match l with
  | [] => True
  | x :: l' =>
      match l' with
      | [] => True
      | y :: _ => P x y /\ is_chain P l'
      end
  end.

(** ** Example flows *)

(** An ordinary task whose [run] takes one argument [data]. *)
Definition plain_task (ident : nat) (info : string) : Task :=
  mkTask ident info None false [("data", POSITIONAL_OR_KEYWORD)].

Definition extract : Task := plain_task 1 "extract".
Definition transform : Task := plain_task 2 "transform".
Definition load : Task := plain_task 3 "load".

(** The end-to-end example: [transform] takes the result of [extract] as
    [data], [load] runs after [transform]. *)
Definition etl : Flow :=
  mkFlow "etl" (Some "1") [extract; transform; load]
         [mkEdge extract transform (Some "data"); mkEdge transform load None].

(** The same tasks with the edges closing a cycle; no sequence of API calls
    builds it, it is the graph an offending call is refused for. *)
Definition etl_cycle : Flow :=
  mkFlow "etl" (Some "1") [extract; transform; load]
         [mkEdge extract transform None; mkEdge transform load None;
          mkEdge load extract None].

(** A flow named ["etl"], version ["1"], with nothing in it. *)
Definition etl_empty : Flow := mkFlow "etl" (Some "1") [] [].

(** A [Parameter] task. *)
Definition parameter_x : Task := mkTask 4 "x" None true [].

(** Two tasks that carry the same slug. *)
Definition slug_a_first : Task := mkTask 5 "first" (Some "a") false [].
Definition slug_a_second : Task := mkTask 6 "second" (Some "a") false [].

(** A task whose [run] collects any keyword argument. *)
Definition collector : Task := mkTask 7 "collector" None false [("kwargs", VAR_KEYWORD)].

(** An [as_task_result] that wraps a task in a result of an empty flow and
    leaves a result as it is. *)
Definition wrap_task (x : task_like) : result TaskResult :=
  match x with
  | IsTask t => Ok (mkTaskResult t (mkFlow "Flow" None [] []))
  | IsTaskResult r => Ok r
  end.

(** A second upstream task, and a second instance of [transform]: another
    object with the same attributes. *)
Definition reference : Task := plain_task 8 "reference".
Definition transform_twin : Task := plain_task 9 "transform".

(** [transform] takes the result of [extract] as [data] and runs after
    [reference]; its twin is in the flow too.  This is the flow after
    [set_dependencies(transform, upstream_tasks=[reference],
    keyword_results={"data": extract})] and [add_task(transform_twin)]. *)
Definition etl_twins : Flow :=
  mkFlow "etl" (Some "1") [extract; reference; transform; transform_twin]
         [mkEdge reference transform None;
          mkEdge extract transform (Some "data")].

(** A stand-in for a digest in examples: sixteen bytes, the input padded or
    cut. *)
Definition padded16 (b : list byte) : list byte :=
  firstn 16 (b ++ repeat x00 16).

(** Another stand-in digest, under which repeated hashing runs through
    different values: the successor of the padded input, read as a
    little-endian number. *)
Definition byte_succ (b : byte) : byte :=
  match Byte.of_N (N.succ (Byte.to_N b)) with
  | Some b' => b'
  | None => x00
  end.

Fixpoint bytes_succ (b : list byte) : list byte :=
  match b with
  | [] => []
  | x :: b' =>
      if Byte.eqb x xff then x00 :: bytes_succ b' else byte_succ x :: b'
  end.

Definition counting16 (b : list byte) : list byte := bytes_succ (padded16 b).

(** Serialisers for examples: the payload itself, the hash of a tuple. *)
Definition dumps_example (p : pickled) : string :=
  match p with
  | Pickle_task_info info => info
  | Pickle_edge_info u d _ => u ++ d
  | Pickle_hash_tuple h _ => string_of_list_byte h
  end.

Definition str_example (h : list byte)
    (edge_hashes : list (option string * list byte)) : string :=
  string_of_list_byte h.

(** [transform] and its twin, both fed by [extract] under the same key: two
    tasks with the same attributes and the same neighbourhood. *)
Definition etl_symmetric : Flow :=
  mkFlow "etl" (Some "1") [extract; transform; transform_twin]
         [mkEdge extract transform (Some "data");
          mkEdge extract transform_twin (Some "data")].

(** ** Vocabulary of the further properties *)

(** A computation that, when it returns, has removed no task and no edge. *)
Definition grows {A} (m : M A) : Prop :=
  forall f a f', m f = (Ok a, f') ->
    incl (tasks f) (tasks f') /\ incl (edges f) (edges f').

(** A computation that never touches [name] and [version], whether it
    returns or raises. *)
Definition keeps_identity {A} (m : M A) : Prop :=
  forall f, name (snd (m f)) = name f /\ version (snd (m f)) = version f.

(** The calls that run the cycle check before they return. *)
Definition validating (c : call) : bool :=
  match c with
  | Call_add_task _ => false
  | Call_add_edge _ _ _ v => v
  | Call_update _ v => v
  | Call_add_task_results _ v => v
  | Call_set_dependencies _ _ _ _ v => v
  end.

(** [t] is [r] or downstream of it, along edges of the flow. *)
Definition reaches (f : Flow) (r t : Task) : Prop :=
  clos_refl_trans Task (dep f) r t.

(** The task of a task result and the tasks and edges of its flow are in
    the flow. *)
Definition merged (tr : TaskResult) (f : Flow) : Prop :=
  In (tr_task tr) (tasks f) /\
  incl (tasks (tr_flow tr)) (tasks f) /\ incl (edges (tr_flow tr)) (edges f).

(** A task whose [run] takes [*args]. *)
Definition variadic : Task :=
  mkTask 10 "variadic" None false [("args", VAR_POSITIONAL)].

(** [etl] under another version. *)
Definition etl_v2 : Flow := mkFlow "etl" (Some "2") (tasks etl) (edges etl).

(** * Properties *)

Unset Implicit Arguments.

(** ** Sets *)

Section PySetFacts.
Variable A : Type.
Variable eq_dec : forall a b : A, {a = b} + {a <> b}.

Lemma mem_true_iff x s : mem eq_dec x s = true <-> In x s.
Proof. unfold mem. destruct (in_dec eq_dec x s); intuition congruence. Qed.

Lemma mem_false_iff x s : mem eq_dec x s = false <-> ~ In x s.
Proof. unfold mem. destruct (in_dec eq_dec x s); intuition congruence. Qed.

Lemma in_set_add x y s : In y (set_add eq_dec x s) <-> y = x \/ In y s.
Proof.
  unfold set_add. destruct (mem eq_dec x s) eqn:E.
  - apply mem_true_iff in E. intuition congruence.
  - rewrite in_app_iff. simpl. intuition congruence.
Qed.

Lemma NoDup_set_add x s : NoDup s -> NoDup (set_add eq_dec x s).
Proof.
  intros H. unfold set_add. destruct (mem eq_dec x s) eqn:E; [assumption|].
  apply mem_false_iff in E.
  apply NoDup_rev in H. rewrite <- (rev_involutive (s ++ [x])).
  apply NoDup_rev. rewrite rev_app_distr. simpl.
  constructor; [rewrite <- in_rev; assumption | assumption].
Qed.

Lemma in_set_update xs : forall s y,
  In y (set_update eq_dec xs s) <-> In y xs \/ In y s.
Proof.
  unfold set_update. induction xs as [|x xs IH]; intros s y; simpl.
  - tauto.
  - rewrite IH, in_set_add. intuition congruence.
Qed.

Lemma NoDup_set_update xs : forall s, NoDup s -> NoDup (set_update eq_dec xs s).
Proof.
  unfold set_update. induction xs as [|x xs IH]; intros s H; simpl.
  - assumption.
  - apply IH, NoDup_set_add, H.
Qed.

Lemma in_list_remove x y : forall l,
  In y (list_remove eq_dec x l) -> In y l.
Proof.
  induction l as [|z l IH]; simpl; [tauto|].
  destruct (eq_dec x z); simpl; intuition.
Qed.

Lemma in_list_remove_neq x y : forall l,
  y <> x -> In y l -> In y (list_remove eq_dec x l).
Proof.
  induction l as [|z l IH]; simpl; [tauto|].
  intros Hne [E|Hin]; destruct (eq_dec x z); simpl; intuition congruence.
Qed.

Lemma NoDup_list_remove x : forall l,
  NoDup l -> NoDup (list_remove eq_dec x l) /\ ~ In x (list_remove eq_dec x l).
Proof.
  induction l as [|z l IH]; simpl; intros H.
  - split; [constructor | tauto].
  - inversion H as [|? ? Hz Hl]; subst.
    destruct (eq_dec x z) as [->|Hne].
    + split; assumption.
    + destruct (IH Hl) as [IH1 IH2]. split.
      * constructor; [|assumption]. intros Hin. apply Hz.
        eapply in_list_remove; eassumption.
      * simpl. intros [E|Hin]; [congruence | tauto].
Qed.

Lemma list_remove_perm x : forall l,
  In x l -> Permutation l (x :: list_remove eq_dec x l).
Proof.
  induction l as [|z l IH]; simpl; [tauto|].
  intros Hin. destruct (eq_dec x z) as [->|Hne]; [reflexivity|].
  destruct Hin as [E|Hin]; [congruence|].
  rewrite (IH Hin) at 1. apply perm_swap.
Qed.
End PySetFacts.

(** ** Results *)

Lemma rbind_ok A B (r : result A) (k : A -> result B) b :
  rbind r k = Ok b -> exists a, r = Ok a /\ k a = Ok b.
Proof. destruct r as [a|e]; simpl; [eauto | discriminate]. Qed.

Lemma rbind_raise A B (r : result A) (k : A -> result B) x :
  rbind r k = Raise x ->
  r = Raise x \/ exists a, r = Ok a /\ k a = Raise x.
Proof. destruct r as [a|e]; simpl; [eauto | intros [= ->]; auto]. Qed.

(** ** Graph index *)

Lemma dict_get_ok d t es : dict_get d t = Ok es -> In t (map fst d).
Proof.
  induction d as [|[t' es'] d IH]; simpl; [discriminate|].
  destruct (Task_eq_dec t t') as [->|Hne]; auto.
Qed.

Lemma dict_get_raise d t x :
  dict_get d t = Raise x -> x = KeyError t /\ ~ In t (map fst d).
Proof.
  induction d as [|[t' es'] d IH]; simpl.
  - intros [= <-]. auto.
  - destruct (Task_eq_dec t t') as [->|Hne]; [discriminate|].
    intros H. destruct (IH H) as [-> Hn]. split; [reflexivity|].
    intros [E|Hin]; [congruence | tauto].
Qed.

Lemma dict_get_in d t : In t (map fst d) -> exists es, dict_get d t = Ok es.
Proof.
  destruct (dict_get d t) as [es|x] eqn:E; [eauto|].
  apply dict_get_raise in E. tauto.
Qed.

Lemma dict_add_ok d t e : forall d',
  dict_add d t e = Ok d' ->
  map fst d' = map fst d /\
  In t (map fst d) /\
  (forall es, dict_get d t = Ok es ->
              dict_get d' t = Ok (set_add Edge_eq_dec e es)) /\
  (forall t', t' <> t -> dict_get d' t' = dict_get d t').
Proof.
  induction d as [|[t0 es0] d IH]; simpl; intros d'; [discriminate|].
  destruct (Task_eq_dec t t0) as [->|Hne].
  - intros [= <-]. simpl. split; [reflexivity|]. split; [auto|]. split.
    + intros es [= <-]. destruct (Task_eq_dec t0 t0); congruence.
    + intros t' Hne. destruct (Task_eq_dec t' t0); congruence.
  - intros H. apply rbind_ok in H. destruct H as (d1 & H1 & [= <-]).
    destruct (IH _ H1) as (K1 & K0 & K2 & K3). simpl.
    split; [congruence|]. split; [auto|]. split.
    + intros es. destruct (Task_eq_dec t t0); [congruence | auto].
    + intros t' Hne'. destruct (Task_eq_dec t' t0); auto.
Qed.

Lemma dict_add_raise d t e x :
  dict_add d t e = Raise x -> x = KeyError t /\ ~ In t (map fst d).
Proof.
  induction d as [|[t0 es0] d IH]; simpl.
  - intros [= <-]. auto.
  - destruct (Task_eq_dec t t0) as [->|Hne]; [discriminate|].
    intros H. apply rbind_raise in H.
    destruct H as [H | (d1 & _ & H)]; [|discriminate].
    destruct (IH H) as [-> Hn]. split; [reflexivity|].
    intros [E|Hin]; [congruence | tauto].
Qed.

Lemma index_edges_ok endpoint es : forall d d',
  index_edges endpoint es d = Ok d' ->
  map fst d' = map fst d /\
  (forall e, In e es -> In (endpoint e) (map fst d)) /\
  (forall t es0, dict_get d t = Ok es0 ->
     exists es1, dict_get d' t = Ok es1 /\
       forall e, In e es1 <-> In e es0 \/ (In e es /\ endpoint e = t)).
Proof.
  induction es as [|e0 es IH]; simpl; intros d d' H.
  - injection H as <-. split; [reflexivity|]. split; [tauto|].
    intros t es0 Hg. exists es0. split; [assumption|]. tauto.
  - apply rbind_ok in H. destruct H as (d1 & H1 & H2).
    destruct (dict_add_ok _ _ _ _ H1) as (K1 & K0 & K2 & K3).
    destruct (IH _ _ H2) as (J1 & J2 & J3).
    split; [congruence|]. split.
    + intros e [<-|Hin]; [assumption|]. rewrite <- K1. auto.
    + intros t es0 Hg. destruct (Task_eq_dec t (endpoint e0)) as [->|Hne].
      * destruct (J3 _ _ (K2 _ Hg)) as (es1 & G1 & G2).
        exists es1. split; [assumption|]. intros e. rewrite G2, in_set_add.
        intuition congruence.
      * rewrite <- (K3 _ Hne) in Hg.
        destruct (J3 _ _ Hg) as (es1 & G1 & G2).
        exists es1. split; [assumption|]. intros e. rewrite G2.
        intuition congruence.
Qed.

Lemma index_edges_raise endpoint es : forall d x,
  index_edges endpoint es d = Raise x ->
  exists t, x = KeyError t /\ ~ In t (map fst d).
Proof.
  induction es as [|e0 es IH]; simpl; intros d x H; [discriminate|].
  apply rbind_raise in H. destruct H as [H | (d1 & H1 & H2)].
  - apply dict_add_raise in H. destruct H as [-> Hn]. eauto.
  - destruct (IH _ _ H2) as (t & -> & Hn). exists t. split; [reflexivity|].
    rewrite <- (proj1 (dict_add_ok _ _ _ _ H1)). assumption.
Qed.

Lemma index_edges_total endpoint es : forall d,
  (forall e, In e es -> In (endpoint e) (map fst d)) ->
  exists d', index_edges endpoint es d = Ok d'.
Proof.
  intros d H. destruct (index_edges endpoint es d) as [d'|x] eqn:E; [eauto|].
  exfalso. revert d H x E.
  induction es as [|e0 es IH]; simpl; intros d H x E; [discriminate|].
  apply rbind_raise in E. destruct E as [E | (d1 & E1 & E2)].
  - apply dict_add_raise in E. destruct E as [_ E]. apply E, H. auto.
  - apply (IH d1) with (x := x); [|assumption].
    intros e Hin. rewrite (proj1 (dict_add_ok _ _ _ _ E1)). auto.
Qed.

Lemma map_fst_empty_index ts :
  map fst (map (fun t : Task => (t, @nil Edge)) ts) = ts.
Proof. induction ts; simpl; congruence. Qed.

Lemma dict_get_empty_index ts t es :
  dict_get (map (fun t : Task => (t, [])) ts) t = Ok es -> es = [].
Proof.
  induction ts as [|t0 ts IH]; simpl; [discriminate|].
  destruct (Task_eq_dec t t0); [congruence | assumption].
Qed.

(** What a successful lookup in an adjacency index returns, for either
    direction of the index. *)
Lemma index_lookup_ok endpoint f t es :
  (d <- index_edges endpoint (edges f) (map (fun t => (t, [])) (tasks f)) ;;
   dict_get d t)%result = Ok es ->
  In t (tasks f) /\
  (forall e, In e (edges f) -> In (endpoint e) (tasks f)) /\
  (forall e, In e es <-> In e (edges f) /\ endpoint e = t).
Proof.
  intros H. apply rbind_ok in H. destruct H as (d & H1 & H2).
  destruct (index_edges_ok _ _ _ _ H1) as (K1 & K2 & K3).
  rewrite map_fst_empty_index in K1, K2.
  assert (Hin : In t (tasks f)).
  { rewrite <- K1. eapply dict_get_ok; eassumption. }
  split; [assumption|]. split; [assumption|].
  destruct (dict_get_in (map (fun t => (t, [])) (tasks f)) t) as [es0 E0].
  { rewrite map_fst_empty_index. assumption. }
  destruct (K3 _ _ E0) as (es1 & G1 & G2).
  apply dict_get_empty_index in E0. subst es0.
  rewrite H2 in G1. injection G1 as <-.
  intros e. rewrite G2. simpl. tauto.
Qed.

Lemma index_lookup_raise endpoint f t x :
  (d <- index_edges endpoint (edges f) (map (fun t => (t, [])) (tasks f)) ;;
   dict_get d t)%result = Raise x ->
  exists t', x = KeyError t' /\ ~ In t' (tasks f).
Proof.
  intros H. apply rbind_raise in H. destruct H as [H | (d & H1 & H2)].
  - apply index_edges_raise in H. rewrite map_fst_empty_index in H. exact H.
  - apply dict_get_raise in H2. destruct H2 as [-> Hn]. exists t.
    split; [reflexivity|].
    rewrite (proj1 (index_edges_ok _ _ _ _ H1)), map_fst_empty_index in Hn.
    exact Hn.
Qed.

Lemma index_lookup_total endpoint f t :
  In t (tasks f) ->
  (forall e, In e (edges f) -> In (endpoint e) (tasks f)) ->
  exists es,
    (d <- index_edges endpoint (edges f) (map (fun t => (t, [])) (tasks f)) ;;
     dict_get d t)%result = Ok es.
Proof.
  intros Hin Hc.
  destruct (index_edges_total endpoint (edges f)
              (map (fun t => (t, [])) (tasks f))) as [d Hd].
  { intros e He. rewrite map_fst_empty_index. auto. }
  destruct (dict_get_in d t) as [es Hes].
  { rewrite (proj1 (index_edges_ok _ _ _ _ Hd)), map_fst_empty_index.
    assumption. }
  exists es. rewrite Hd. simpl. assumption.
Qed.

(** ** Chains in a finite set *)

Section Chains.
Variable A : Type.
Variable eq_dec : forall a b : A, {a = b} + {a <> b}.
Variable P : A -> A -> Prop.

Lemma is_chain_snoc l u t :
  is_chain P (l ++ [u]) -> P u t -> is_chain P ((l ++ [u]) ++ [t]).
Proof.
  induction l as [|x l IH]; simpl; intros H Hp.
  - auto.
  - destruct l as [|y l]; simpl in *.
    + tauto.
    + destruct H as [H1 H2]. split; [assumption|]. apply IH; assumption.
Qed.

Lemma is_chain_app_l l1 : forall l2, is_chain P (l1 ++ l2) -> is_chain P l1.
Proof.
  induction l1 as [|x l1 IH]; intros l2 H; simpl; [exact I|].
  destruct l1 as [|y l1]; [exact I|].
  simpl in H. destruct H as [H1 H2]. split; [assumption|].
  apply (IH l2). exact H2.
Qed.

Lemma is_chain_app_r l1 : forall l2, is_chain P (l1 ++ l2) -> is_chain P l2.
Proof.
  induction l1 as [|x l1 IH]; intros l2 H; simpl in *; [assumption|].
  destruct (l1 ++ l2) as [|y l] eqn:E.
  - destruct l1; simpl in E; [subst; exact I | discriminate].
  - apply IH. rewrite E. tauto.
Qed.

Lemma is_chain_clos_trans l : forall a b,
  is_chain P (a :: l ++ [b]) -> clos_trans A P a b.
Proof.
  induction l as [|x l IH]; intros a b H.
  - simpl in H. apply t_step. tauto.
  - change (is_chain P (a :: x :: l ++ [b])) in H.
    destruct H as [H1 H2].
    eapply t_trans; [apply t_step; eassumption | apply IH; assumption].
Qed.

Lemma repeated_element (l : list A) :
  ~ NoDup l -> exists a l1 l2 l3, l = l1 ++ a :: l2 ++ a :: l3.
Proof.
  induction l as [|x l IH]; intros H.
  - exfalso. apply H. constructor.
  - destruct (in_dec eq_dec x l) as [Hin|Hnin].
    + apply in_split in Hin. destruct Hin as (l2 & l3 & ->).
      exists x, [], l2, l3. reflexivity.
    + destruct IH as (a & l1 & l2 & l3 & ->).
      { intros Hnd. apply H. constructor; assumption. }
      exists a, (x :: l1), l2, l3. reflexivity.
Qed.

(** In a finite non-empty set where every element has a predecessor inside
    the set, some element precedes itself through the set. *)
Lemma predecessor_cycle (R : list A) :
  R <> [] ->
  (forall t, In t R -> exists u, In u R /\ P u t) ->
  exists t, In t R /\ clos_trans A P t t.
Proof.
  intros Hne Hpred.
  assert (Hchain : forall n t, In t R ->
            exists l, List.length l = n /\ is_chain P (l ++ [t])
                      /\ incl l R).
  { induction n as [|n IH]; intros t Ht.
    - exists []. simpl. split; [reflexivity|]. split; [exact I|].
      intros x [].
    - destruct (Hpred t Ht) as (u & Hu & Hp).
      destruct (IH u Hu) as (l & Hl & Hc & Hi).
      exists (l ++ [u]). split.
      + rewrite length_app. simpl. lia.
      + split; [apply is_chain_snoc; assumption|].
        intros x Hx. apply in_app_or in Hx. destruct Hx as [Hx|[<-|[]]]; auto. }
  destruct R as [|t0 R0]; [congruence|].
  destruct (Hchain (List.length (t0 :: R0)) t0 (or_introl eq_refl))
    as (l & Hl & Hc & Hi).
  assert (Hnd : ~ NoDup (l ++ [t0])).
  { intros Hnd. apply NoDup_incl_length with (l' := t0 :: R0) in Hnd.
    - rewrite length_app in Hnd. simpl in Hnd, Hl. lia.
    - intros x Hx. apply in_app_or in Hx.
      destruct Hx as [Hx|[<-|[]]]; [auto | left; reflexivity]. }
  apply repeated_element in Hnd. destruct Hnd as (a & l1 & l2 & l3 & E).
  exists a. split.
  - assert (Ha : In a (l ++ [t0])).
    { rewrite E. apply in_or_app. right. left. reflexivity. }
    apply in_app_or in Ha. destruct Ha as [Ha|[<-|[]]]; [auto | left; reflexivity].
  - rewrite E in Hc. apply is_chain_app_r in Hc.
    apply is_chain_clos_trans with (l := l2).
    apply is_chain_app_l with (l2 := l3).
    simpl. rewrite <- app_assoc. simpl. exact Hc.
Qed.
End Chains.

(** ** Topological order *)

Lemma in_set_of (A : Type) (eq_dec : forall a b : A, {a = b} + {a <> b})
    (xs : list A) (x : A) :
  In x (set_of eq_dec xs) <-> In x xs.
Proof. unfold set_of. rewrite in_set_update. simpl. tauto. Qed.

Lemma upstream_tasks_ok f t ups :
  upstream_tasks f t = Ok ups -> forall u, In u ups <-> dep f u t.
Proof.
  unfold upstream_tasks. intros H u. apply rbind_ok in H.
  destruct H as (es & H1 & [= <-]).
  apply (index_lookup_ok downstream_task) in H1. destruct H1 as (_ & _ & H1).
  rewrite in_set_of, in_map_iff. unfold dep. split.
  - intros (e & E & Hin). apply H1 in Hin. exists e. tauto.
  - intros (e & Hin & E1 & E2). exists e. split; [assumption|].
    apply H1. tauto.
Qed.

Lemma upstream_tasks_total f t :
  In t (tasks f) ->
  (forall e, In e (edges f) -> In (downstream_task e) (tasks f)) ->
  exists ups, upstream_tasks f t = Ok ups.
Proof.
  intros Hin Hc. unfold upstream_tasks, edges_to, all_upstream_edges.
  destruct (index_lookup_total downstream_task f t Hin Hc) as [es ->].
  simpl. eauto.
Qed.

Lemma before_app u v l t : before u v l -> before u v (l ++ [t]).
Proof.
  intros (l1 & l2 & l3 & ->). exists l1, l2, (l3 ++ [t]).
  rewrite <- app_assoc. simpl. rewrite <- app_assoc. reflexivity.
Qed.

Lemma before_last u t l : In u l -> before u t (l ++ [t]).
Proof.
  intros H. apply in_split in H. destruct H as (l1 & l2 & ->).
  exists l1, l2, []. rewrite <- app_assoc. reflexivity.
Qed.

Section Topology.
Variable f : Flow.
Variable ws : list Task.
Hypothesis downstream_closed :
  forall e, In e (edges f) -> In (downstream_task e) (tasks f).
Hypothesis ws_tasks : incl ws (tasks f).

Local Abbreviation on_cycle := (lies_on_cycle f ws).
Local Abbreviation ordered := (respects_edges f ws).

Lemma on_cycle_pred x :
  on_cycle x -> exists y, dep_in f ws y x /\ on_cycle y.
Proof.
  unfold lies_on_cycle. intros H. apply clos_trans_tn1 in H.
  inversion H as [Hs | y z Hyx Hxy]; subst.
  - exists x. split; [assumption | apply t_step; assumption].
  - exists y. split; [assumption|].
    eapply t_trans; [apply t_step; eassumption | apply clos_tn1_trans; assumption].
Qed.

Lemma scan_total : forall todo R S c,
  incl todo (tasks f) -> exists r, scan f todo R S c = Ok r.
Proof.
  induction todo as [|t todo IH]; intros R S c Hin; simpl; [eauto|].
  destruct (upstream_tasks_total f t) as [ups ->];
    [apply Hin; left; reflexivity | assumption |].
  simpl. assert (Hin' : incl todo (tasks f)).
  { intros x Hx. apply Hin. right. assumption. }
  destruct (existsb _ ups); apply IH; assumption.
Qed.

Lemma scan_spec : forall todo R S c R' S' c',
  scan f todo R S c = Ok (R', S', c') ->
  NoDup todo -> incl todo R ->
  NoDup (S ++ R) -> Permutation (S ++ R) ws -> ordered S ->
  (forall x, on_cycle x -> In x R) ->
  NoDup (S' ++ R') /\ Permutation (S' ++ R') ws /\ ordered S' /\
  (forall x, on_cycle x -> In x R') /\
  List.length R' <= List.length R /\
  (c' = true ->
     c = true /\ R' = R /\ S' = S /\
     forall t, In t todo -> exists u, In u R /\ dep f u t) /\
  (c' = false -> c = false \/ List.length R' < List.length R).
Proof.
  induction todo as [|t todo IH]; intros R S c R' S' c' H Hnd Hincl HndSR Hperm Hord Hcyc.
  - simpl in H. injection H as <- <- <-.
    repeat split; auto; try tauto. intros t [].
  - simpl in H. apply rbind_ok in H. destruct H as (ups & Hups & H).
    pose proof (upstream_tasks_ok _ _ _ Hups) as Hspec.
    inversion Hnd as [|? ? Hnt Hnd']; subst.
    assert (HtR : In t R) by (apply Hincl; left; reflexivity).
    destruct (existsb (fun u => mem Task_eq_dec u R) ups) eqn:Hex.
    + assert (Hincl' : incl todo R).
      { intros x Hx. apply Hincl. right. assumption. }
      destruct (IH _ _ _ _ _ _ H Hnd' Hincl' HndSR Hperm Hord Hcyc)
        as (I1 & I2 & I3 & I4 & I5 & I6 & I7).
      do 5 (split; [assumption|]). split; [|assumption].
      intros Hc. destruct (I6 Hc) as (C1 & C2 & C3 & C4).
      do 3 (split; [assumption|]).
      intros t' [<-|Ht']; [|auto].
      apply existsb_exists in Hex. destruct Hex as (u & Hu & Hm).
      exists u. split; [apply mem_true_iff in Hm; assumption|].
      apply Hspec. assumption.
    + assert (Hups_out : forall u, dep f u t -> ~ In u R).
      { intros u Hd HuR. apply Hspec in Hd.
        assert (existsb (fun u => mem Task_eq_dec u R) ups = true).
        { apply existsb_exists. exists u. split; [assumption|].
          apply mem_true_iff. assumption. }
        congruence. }
      pose proof (list_remove_perm _ Task_eq_dec t R HtR) as HpR.
      assert (HndR : NoDup R) by (eapply NoDup_app_remove_l; eassumption).
      destruct (NoDup_list_remove _ Task_eq_dec t _ HndR) as [HndR1 Hnot].
      assert (Hperm1 : Permutation ((S ++ [t]) ++ list_remove Task_eq_dec t R)
                                   (S ++ R)).
      { rewrite <- app_assoc. simpl. apply Permutation_app_head.
        symmetry. assumption. }
      assert (Hincl' : incl todo (list_remove Task_eq_dec t R)).
      { intros x Hx. apply in_list_remove_neq.
        - intros ->. tauto.
        - apply Hincl. right. assumption. }
      assert (Hord' : ordered (S ++ [t])).
      { intros u v Hd Hu Hv. apply in_app_or in Hv. destruct Hv as [Hv|[<-|[]]].
        - apply before_app. apply Hord; assumption.
        - apply before_last.
          assert (HuSR : In u (S ++ R)).
          { eapply Permutation_in; [symmetry; eassumption | assumption]. }
          apply in_app_or in HuSR. destruct HuSR as [HuS|HuR]; [assumption|].
          exfalso. eapply Hups_out; eassumption. }
      assert (Hcyc' : forall x, on_cycle x -> In x (list_remove Task_eq_dec t R)).
      { intros x Hx. apply in_list_remove_neq; [|apply Hcyc; assumption].
        intros ->. destruct (on_cycle_pred _ Hx) as (y & (Hd & _ & _) & Hy).
        eapply Hups_out; [eassumption | apply Hcyc; assumption]. }
      assert (Hlen : List.length (list_remove Task_eq_dec t R) < List.length R).
      { apply Permutation_length in HpR. simpl in HpR. lia. }
      destruct (IH _ _ _ _ _ _ H Hnd' Hincl') as (I1 & I2 & I3 & I4 & I5 & I6 & I7);
        auto.
      * eapply Permutation_NoDup; [symmetry; eassumption | assumption].
      * etransitivity; eassumption.
      * do 4 (split; [assumption|]). split; [lia|]. split.
        -- intros Hc. destruct (I6 Hc) as [? _]. discriminate.
        -- intros _. right. lia.
Qed.

(** The loop of [sorted_tasks], started with enough fuel from a state that
    satisfies its invariant: it returns a valid order of [ws] when no cycle
    runs through [ws], and raises otherwise. *)
Lemma sort_loop_spec : forall n R srt,
  List.length R <= n ->
  NoDup (srt ++ R) -> Permutation (srt ++ R) ws -> ordered srt ->
  (forall x, on_cycle x -> In x R) ->
  (exists l, sort_loop f n R srt = Some (Ok l) /\ Permutation l ws /\
             ordered l /\ ~ has_cycle f ws) \/
  (sort_loop f n R srt = Some (Raise ValueError_cyclic) /\ has_cycle f ws).
Proof.
  assert (Hbase : forall n srt, Permutation (srt ++ []) ws -> ordered srt ->
            (forall x, on_cycle x -> In x []) ->
            exists l, sort_loop f n [] srt = Some (Ok l) /\ Permutation l ws /\
                      ordered l /\ ~ has_cycle f ws).
  { intros n srt Hperm Hord Hcyc. exists srt. rewrite app_nil_r in Hperm.
    split; [destruct n; reflexivity|]. split; [assumption|].
    split; [assumption|]. intros [x Hx]. exact (Hcyc x Hx). }
  induction n as [|n IH]; intros R srt Hlen Hnd Hperm Hord Hcyc;
    destruct R as [|t R0]; try (left; apply Hbase; assumption).
  - simpl in Hlen. lia.
  - set (R := t :: R0) in *.
    assert (HRws : incl R ws).
    { intros x Hx. eapply Permutation_in; [eassumption|].
      apply in_or_app. right. assumption. }
    destruct (scan_total R R srt true) as [[[R' srt'] c'] Hscan].
    { intros x Hx. apply ws_tasks, HRws, Hx. }
    assert (HndR : NoDup R) by (eapply NoDup_app_remove_l; eassumption).
    destruct (scan_spec _ _ _ _ _ _ _ Hscan HndR (incl_refl R) Hnd Hperm Hord Hcyc)
      as (I1 & I2 & I3 & I4 & I5 & I6 & I7).
    change (sort_loop f (Datatypes.S n) R srt) with
      (match scan f R R srt true with
       | Raise e => Some (Raise e)
       | Ok (remaining', sorted', cyclic) =>
           if cyclic then Some (Raise ValueError_cyclic)
           else sort_loop f n remaining' sorted'
       end).
    rewrite Hscan. destruct c'.
    + right. split; [reflexivity|].
      destruct (I6 eq_refl) as (_ & _ & _ & Hpred).
      destruct (predecessor_cycle Task Task_eq_dec (dep_in f ws) R) as (x & _ & Hx).
      * discriminate.
      * intros x Hx. destruct (Hpred x Hx) as (u & Hu & Hd).
        exists u. split; [assumption|]. split; [assumption|]. split; auto.
      * exists x. exact Hx.
    + apply IH; auto.
      destruct (I7 eq_refl) as [?|Hlt]; [discriminate|].
      subst R. simpl in Hlen, Hlt. lia.
Qed.
End Topology.

Lemma dep_in_cycle_in f ws x y :
  clos_trans Task (dep_in f ws) x y -> In x ws.
Proof.
  induction 1 as [x y (_ & H & _) | x y z _ IH _ _]; assumption.
Qed.

(** [sorted_tasks] on a working set that is a duplicate-free part of the
    task set. *)
Lemma sort_working_set f ws :
  (forall e, In e (edges f) -> In (downstream_task e) (tasks f)) ->
  incl ws (tasks f) -> NoDup ws ->
  (exists l, sort_loop f (List.length ws) ws [] = Some (Ok l) /\
             Permutation l ws /\
             (forall u v, dep f u v -> In u ws -> In v l -> before u v l) /\
             ~ has_cycle f ws) \/
  (sort_loop f (List.length ws) ws [] = Some (Raise ValueError_cyclic) /\
   has_cycle f ws).
Proof.
  intros Hc Hincl Hnd.
  apply (sort_loop_spec f ws Hc Hincl (List.length ws) ws []); simpl; auto.
  - intros u v _ _ [].
  - intros x Hx. eapply dep_in_cycle_in. exact Hx.
Qed.

(** *** The closure of the root tasks *)

Lemma difference_nil ts seen : difference ts seen = [] -> incl ts seen.
Proof.
  unfold difference. intros H x Hx.
  destruct (mem Task_eq_dec x seen) eqn:E; [apply mem_true_iff in E; exact E|].
  assert (Hin : In x (filter (fun t => negb (mem Task_eq_dec t seen)) ts)).
  { apply filter_In. rewrite E. auto. }
  rewrite H in Hin. destruct Hin.
Qed.

Lemma in_difference ts seen x :
  In x (difference ts seen) <-> In x ts /\ ~ In x seen.
Proof.
  unfold difference. rewrite filter_In, negb_true_iff, mem_false_iff. tauto.
Qed.

Lemma downstream_tasks_in f t ds : downstream_tasks f t = Ok ds -> In t (tasks f).
Proof.
  unfold downstream_tasks. intros H. apply rbind_ok in H.
  destruct H as (es & H & _).
  apply (index_lookup_ok upstream_task) in H. tauto.
Qed.

Lemma closure_fold f : forall l ts seen ts' seen',
  rfold (fun '(ts', seen') t =>
           (ds <- downstream_tasks f t ;;
            Ok (set_update Task_eq_dec ds ts', set_add Task_eq_dec t seen'))%result)
        l (ts, seen) = Ok (ts', seen') ->
  NoDup ts -> NoDup seen -> incl seen (tasks f) ->
  NoDup ts' /\ NoDup seen' /\ incl seen' (tasks f) /\
  (forall x, In x seen' <-> In x seen \/ In x l).
Proof.
  induction l as [|t l IH]; simpl; intros ts seen ts' seen' H Hts Hseen Hincl.
  - injection H as <- <-. repeat split; auto; tauto.
  - apply rbind_ok in H. destruct H as ([ts1 seen1] & H1 & H2).
    apply rbind_ok in H1. destruct H1 as (ds & Hds & [= <- <-]).
    apply IH in H2.
    + destruct H2 as (I1 & I2 & I3 & I4). repeat split; auto.
      * intros Hx. apply I4 in Hx. rewrite in_set_add in Hx. intuition.
      * intros Hx. apply I4. rewrite in_set_add. intuition.
    + apply NoDup_set_update. assumption.
    + apply NoDup_set_add. assumption.
    + intros x Hx. apply in_set_add in Hx. destruct Hx as [->|Hx]; [|auto].
      eapply downstream_tasks_in; eassumption.
Qed.

(** As many rounds as there are tasks, and one, complete the closure. *)
Lemma closure_loop_fuel f : forall n ts seen,
  NoDup ts -> NoDup seen -> incl seen (tasks f) ->
  List.length (tasks f) < n + List.length seen ->
  exists r, closure_loop f n ts seen = Some r /\
            forall ws, r = Ok ws -> NoDup ws /\ incl ws (tasks f).
Proof.
  induction n as [|n IH]; intros ts seen Hts Hseen Hincl Hlen.
  - apply NoDup_incl_length in Hincl; [|assumption]. simpl in Hlen. lia.
  - simpl. destruct (difference ts seen) as [|d ds] eqn:Ed.
    + exists (Ok ts). split; [reflexivity|]. intros ws [= <-].
      split; [assumption|]. apply difference_nil in Ed.
      intros x Hx. auto.
    + destruct (closure_round f ts seen) as [[ts' seen']|e] eqn:Er.
      * unfold closure_round in Er. apply closure_fold in Er; auto.
        destruct Er as (I1 & I2 & I3 & I4). apply IH; auto.
        assert (Hd : In d (difference ts seen)) by (rewrite Ed; left; reflexivity).
        apply in_difference in Hd. destruct Hd as [_ Hd].
        assert (Hle : List.length (d :: seen) <= List.length seen').
        { apply NoDup_incl_length; [constructor; assumption|].
          intros x [<-|Hx]; apply I4; [right; rewrite Ed; left; reflexivity | auto]. }
        simpl in Hle. lia.
      * exists (Raise e). split; [reflexivity|]. discriminate.
Qed.

Lemma working_tasks_spec f roots ws :
  NoDup (tasks f) -> working_tasks f roots = Ok ws ->
  NoDup ws /\ incl ws (tasks f).
Proof.
  intros Hnd H. unfold working_tasks in H.
  destruct roots as [[|r rs]|]; try (injection H as <-; split; [assumption | apply incl_refl]).
  destruct (closure_loop_fuel f (S (List.length (tasks f)))
              (set_of Task_eq_dec (r :: rs)) []) as (res & E & Hres).
  - apply NoDup_set_update. constructor.
  - constructor.
  - intros x [].
  - simpl. lia.
  - rewrite E in H. subst res. apply Hres. reflexivity.
Qed.

(** The branch of [working_tasks] for an exhausted closure is dead. *)
Lemma working_tasks_fuel f r rs :
  closure_loop f (S (List.length (tasks f))) (set_of Task_eq_dec (r :: rs)) []
  <> None.
Proof.
  destruct (closure_loop_fuel f (S (List.length (tasks f)))
              (set_of Task_eq_dec (r :: rs)) []) as (res & E & _).
  - apply NoDup_set_update. constructor.
  - constructor.
  - intros x [].
  - simpl. lia.
  - rewrite E. discriminate.
Qed.

(** The branch of [sorted_tasks] for an exhausted loop is dead. *)
Lemma sort_loop_fuel f roots ws :
  well_formed f -> working_tasks f roots = Ok ws ->
  sort_loop f (List.length ws) ws [] <> None.
Proof.
  intros [Hnd Hc] Hw. destruct (working_tasks_spec f roots ws Hnd Hw) as [Hnd' Hincl].
  destruct (sort_working_set f ws) as [(l & E & _) | (E & _)]; auto;
    try (rewrite E; discriminate).
  intros e He. apply Hc. assumption.
Qed.

Lemma no_duplicates_sound l : no_duplicates l = true -> NoDup l.
Proof.
  induction l as [|x l IH]; simpl; intros H; [constructor|].
  apply andb_true_iff in H. destruct H as [H1 H2].
  apply negb_true_iff, mem_false_iff in H1. constructor; auto.
Qed.

Lemma well_formedb_sound f : well_formedb f = true -> well_formed f.
Proof.
  unfold well_formedb. intros H. apply andb_true_iff in H.
  destruct H as [H1 H2]. split; [apply no_duplicates_sound; assumption|].
  intros e He. rewrite forallb_forall in H2. specialize (H2 e He).
  apply andb_true_iff in H2. destruct H2 as [Hu Hd].
  apply mem_true_iff in Hu. apply mem_true_iff in Hd. auto.
Qed.

(** The end-to-end example of the specification. *)
Example etl_sorted_tasks :
  sorted_tasks etl None = Ok [extract; transform; load] /\
  root_tasks etl = Ok [extract] /\
  terminal_tasks etl = Ok [load].
Proof. repeat split. Qed.

(** A returned order lists every task of the flow exactly once. *)
Lemma sorted_tasks_permutation f l :
  well_formed f -> sorted_tasks f None = Ok l ->
  NoDup l /\ Permutation l (tasks f).
Proof.
  intros [Hnd Hc] H. unfold sorted_tasks in H. simpl in H.
  destruct (sort_working_set f (tasks f)) as [(l' & E & Hp & _) | (E & _)];
    try assumption; try apply incl_refl; try (intros e He; apply Hc; assumption);
    rewrite E in H; [|discriminate].
  injection H as <-. split; [|assumption].
  eapply Permutation_NoDup; [symmetry; eassumption | assumption].
Qed.

(** C2: whenever [sorted_tasks()] returns on a flow of the data model, the
    tuple lists every task exactly once and, for every edge [(u, v)] of the
    flow, [u] stands strictly before [v]: it is a topological order. *)
Theorem sorted_tasks_topological (f : Flow) (l : list Task) :
  well_formed f ->
  sorted_tasks f None = Ok l ->
  NoDup l /\ Permutation l (tasks f) /\
  forall e, In e (edges f) ->
            before (upstream_task e) (downstream_task e) l.
Proof.
  intros [Hnd Hc] H. unfold sorted_tasks in H. simpl in H.
  destruct (sort_working_set f (tasks f)) as [(l' & E & Hp & Ho & _) | (E & _)];
    try assumption; try apply incl_refl; try (intros e He; apply Hc; assumption);
    rewrite E in H; [|discriminate].
  injection H as <-. split.
  - eapply Permutation_NoDup; [symmetry; eassumption | assumption].
  - split; [assumption|]. intros e He. destruct (Hc e He) as [Hu Hd].
    apply Ho; [exists e; auto | assumption |].
    eapply Permutation_in; [symmetry; eassumption | assumption].
Qed.

Lemma sorted_tasks_topological_witness :
  well_formed etl /\ sorted_tasks etl None = Ok [extract; transform; load] /\
  (NoDup [extract; transform; load] /\
   Permutation [extract; transform; load] (tasks etl) /\
   forall e, In e (edges etl) ->
             before (upstream_task e) (downstream_task e)
                    [extract; transform; load]).
Proof.
  assert (Hwf : well_formed etl) by (apply well_formedb_sound; reflexivity).
  split; [exact Hwf|]. split; [reflexivity|].
  apply (sorted_tasks_topological etl _ Hwf). reflexivity.
Defined.

(** C3: on a flow of the data model, [sorted_tasks] raises the cycle error
    exactly when the edges between the tasks under consideration contain a
    cycle; without a cycle it returns and emits every one of these tasks.
    [validate] raises it exactly when the flow has a cycle. *)
Theorem sorted_tasks_cyclic_iff (f : Flow) (roots : option (list Task))
    (ws : list Task) :
  well_formed f ->
  working_tasks f roots = Ok ws ->
  (sorted_tasks f roots = Raise ValueError_cyclic <-> has_cycle f ws) /\
  (~ has_cycle f ws ->
   exists l, sorted_tasks f roots = Ok l /\ Permutation l ws) /\
  (validate f = Raise ValueError_cyclic <-> has_cycle f (tasks f)).
Proof.
  intros [Hnd Hc] Hw.
  assert (Hd : forall e, In e (edges f) -> In (downstream_task e) (tasks f)).
  { intros e He. apply Hc. assumption. }
  destruct (working_tasks_spec f roots ws Hnd Hw) as [Hnd' Hincl].
  split; [|split].
  - unfold sorted_tasks. rewrite Hw. simpl.
    destruct (sort_working_set f ws Hd Hincl Hnd') as [(l & E & _ & _ & Hn) | (E & Hy)];
      rewrite E; split; intros H; try reflexivity; try assumption;
      try discriminate; tauto.
  - intros Hn. unfold sorted_tasks. rewrite Hw. simpl.
    destruct (sort_working_set f ws Hd Hincl Hnd') as [(l & E & Hp & _) | (E & Hy)];
      [|tauto]. rewrite E. eauto.
  - unfold validate, sorted_tasks. simpl.
    destruct (sort_working_set f (tasks f) Hd (incl_refl _) Hnd)
      as [(l & E & _ & _ & Hn) | (E & Hy)];
      rewrite E; simpl; split; intros H; try reflexivity; try assumption;
      try discriminate; tauto.
Qed.

Lemma sorted_tasks_cyclic_iff_witness :
  well_formed etl_cycle /\
  working_tasks etl_cycle None = Ok [extract; transform; load] /\
  sorted_tasks etl_cycle None = Raise ValueError_cyclic /\
  has_cycle etl_cycle [extract; transform; load].
Proof.
  assert (Hwf : well_formed etl_cycle) by (apply well_formedb_sound; reflexivity).
  split; [exact Hwf|]. split; [reflexivity|]. split; [reflexivity|].
  apply (sorted_tasks_cyclic_iff etl_cycle None _ Hwf eq_refl). reflexivity.
Defined.

(** ** Graph builder *)

(** *** The rollback protocol *)

(** When [restore_graph_on_error] raises, the exception is the one of the
    block or of the validation, and both sets are the ones saved on entry. *)
Lemma restore_graph_on_error_raise A (validate_ : bool) (body : M A) f e f' :
  restore_graph_on_error validate_ body f = (Raise e, f') ->
  tasks f' = tasks f /\ edges f' = edges f /\
  ((exists f1, body f = (Raise e, f1)) \/
   (validate_ = true /\ exists a f1, body f = (Ok a, f1) /\ validate f1 = Raise e)).
Proof.
  unfold restore_graph_on_error.
  destruct (body f) as [[a|e0] f1] eqn:Eb.
  - destruct validate_; [|discriminate].
    destruct (validate f1) as [u|e1] eqn:Ev; [discriminate|].
    intros [= <- <-]. simpl. split; [reflexivity|]. split; [reflexivity|].
    right. split; [reflexivity|]. eauto.
  - intros [= <- <-]. simpl. split; [reflexivity|]. split; [reflexivity|].
    left. eauto.
Qed.

(** When it returns, the block returned and the flow is as the block left
    it. *)
Lemma restore_graph_on_error_ok A (validate_ : bool) (body : M A) f a f' :
  restore_graph_on_error validate_ body f = (Ok a, f') ->
  body f = (Ok a, f') /\ (validate_ = true -> validate f' = Ok tt).
Proof.
  unfold restore_graph_on_error.
  destruct (body f) as [[a0|e0] f1] eqn:Eb; [|discriminate].
  destruct validate_.
  - destruct (validate f1) as [[]|e1] eqn:Ev; [|discriminate].
    intros [= <- <-]. auto.
  - intros [= <- <-]. split; [reflexivity | discriminate].
Qed.

(** *** Properties kept by every step *)

Section Preservation.
Variable P : Flow -> Prop.
Hypothesis P_graph : graph_only P.

Lemma preserves_ret A (a : A) : preserves P (ret a).
Proof. intros f H. exact H. Qed.

Lemma preserves_raise A e : preserves P (@raise A e).
Proof. intros f H. exact H. Qed.

Lemma preserves_query A (q : Flow -> result A) : preserves P (query q).
Proof. intros f H. exact H. Qed.

Lemma preserves_bind A B (m : M A) (k : A -> M B) :
  preserves P m -> (forall a, preserves P (k a)) -> preserves P (bind m k).
Proof.
  intros Hm Hk f H. unfold bind. specialize (Hm f H).
  destruct (m f) as [[a|e] f1]; simpl in *; [apply Hk; assumption | assumption].
Qed.

Lemma preserves_when b (m : M unit) : preserves P m -> preserves P (when b m).
Proof. intros Hm. destruct b; [exact Hm | apply preserves_ret]. Qed.

Lemma preserves_for_each A (xs : list A) (body : A -> M unit) :
  (forall x, preserves P (body x)) -> preserves P (for_each xs body).
Proof.
  intros Hb. induction xs as [|x xs IH]; simpl.
  - apply preserves_ret.
  - apply preserves_bind; [apply Hb | intros _; exact IH].
Qed.

Lemma preserves_restore A (validate_ : bool) (body : M A) :
  preserves P body -> preserves P (restore_graph_on_error validate_ body).
Proof.
  intros Hb f H. specialize (Hb f H). unfold restore_graph_on_error.
  destruct (body f) as [[a|e] f1]; simpl in *.
  - destruct validate_; [|assumption].
    destruct (validate f1); simpl; [assumption|].
    eapply P_graph; [| |exact H]; reflexivity.
  - eapply P_graph; [| |exact H]; reflexivity.
Qed.
End Preservation.

(** *** [add_task] and [add_edge] *)

Lemma flow_eta f : mkFlow (name f) (version f) (tasks f) (edges f) = f.
Proof. destruct f; reflexivity. Qed.

Lemma set_add_present (A : Type) (eq_dec : forall a b : A, {a = b} + {a <> b})
    x (s : list A) :
  In x s -> set_add eq_dec x s = s.
Proof.
  intros H. unfold set_add. apply (mem_true_iff A eq_dec) in H.
  rewrite H. reflexivity.
Qed.

(** [add_task] either raises and leaves the flow alone, or adds the task. *)
Lemma add_task_cases task f :
  (exists e, add_task task f = (Raise e, f)) \/
  (exists t, task = ATask t /\
     add_task task f =
     (Ok tt, mkFlow (name f) (version f)
                    (set_add Task_eq_dec t (tasks f)) (edges f))).
Proof.
  destruct task as [t|r]; simpl.
  - destruct (negb (mem Task_eq_dec t (tasks f)) && truthy (slug t)
              && mem option_string_eq_dec (slug t) (map slug (tasks f))).
    + left. eauto.
    + right. eauto.
  - left. unfold raise. eauto.
Qed.

(** The conditional insertion of an endpoint in [add_edge]. *)
Lemma ensure_task_cases t f :
  (exists e, when (negb (mem Task_eq_dec t (tasks f))) (add_task (ATask t)) f
             = (Raise e, f)) \/
  when (negb (mem Task_eq_dec t (tasks f))) (add_task (ATask t)) f
  = (Ok tt, mkFlow (name f) (version f)
                   (set_add Task_eq_dec t (tasks f)) (edges f)).
Proof.
  destruct (mem Task_eq_dec t (tasks f)) eqn:E; simpl.
  - right. apply mem_true_iff in E.
    rewrite (set_add_present _ Task_eq_dec _ _ E), flow_eta. reflexivity.
  - destruct (add_task_cases (ATask t) f) as [[e He] | (t' & [= <-] & Ho)];
      [left; eauto | right; assumption].
Qed.

(** The block of [add_edge] either raises, or returns with both endpoints
    and the edge inserted. *)
Lemma add_edge_block_cases u d k f :
  (exists e f', add_edge_block u d k f = (Raise e, f')) \/
  add_edge_block u d k f =
  (Ok tt, mkFlow (name f) (version f)
                 (set_add Task_eq_dec d (set_add Task_eq_dec u (tasks f)))
                 (set_add Edge_eq_dec (mkEdge u d k) (edges f))).
Proof.
  unfold add_edge_block, bind, get_tasks.
  destruct (ensure_task_cases u f) as [[e ->] | ->]; [left; eauto|].
  set (f1 := mkFlow (name f) (version f) (set_add Task_eq_dec u (tasks f))
                    (edges f)).
  destruct (ensure_task_cases d f1) as [[e ->] | ->]; [left; eauto|].
  unfold insert_edge. simpl.
  destruct k as [k|]; [|right; reflexivity].
  unfold query.
  match goal with |- context [edges_to ?g d] => destruct (edges_to g d) as [es|e] end;
    [|left; eauto].
  destruct (bind_partial (run_signature d) (edge_keys es)) as [[]|e];
    [right; reflexivity | left; eauto].
Qed.

Lemma check_duplicate_key_state d k f : snd (check_duplicate_key d k f) = f.
Proof.
  unfold check_duplicate_key. destruct (truthy k); [|reflexivity].
  unfold bind, query. destruct (edges_to f d) as [es|e]; [|reflexivity].
  destruct (mem option_string_eq_dec k _); reflexivity.
Qed.

(** [add_edge] either raises with both sets as they were, or returns with
    both endpoints and the edge inserted, the downstream task not being a
    parameter. *)
Lemma add_edge_cases u d k v f :
  (exists e f', add_edge u d k v f = (Raise e, f') /\
                tasks f' = tasks f /\ edges f' = edges f) \/
  (add_edge u d k v f =
   (Ok tt, mkFlow (name f) (version f)
                  (set_add Task_eq_dec (resolve d)
                     (set_add Task_eq_dec (resolve u) (tasks f)))
                  (set_add Edge_eq_dec (mkEdge (resolve u) (resolve d) k)
                     (edges f))) /\
   is_parameter (resolve d) = false).
Proof.
  unfold add_edge. destruct (is_parameter (resolve d)) eqn:Ep.
  - left. exists ValueError_parameter_downstream, f. auto.
  - unfold bind.
    pose proof (check_duplicate_key_state (resolve d) k f) as Hs.
    destruct (check_duplicate_key (resolve d) k f) as [[[]|e] f0];
      simpl in Hs; subst f0.
    + destruct (restore_graph_on_error v
                  (add_edge_block (resolve u) (resolve d) k) f)
        as [[[]|e] f'] eqn:Er.
      * right. split; [|reflexivity].
        apply restore_graph_on_error_ok in Er. destruct Er as [Er _].
        destruct (add_edge_block_cases (resolve u) (resolve d) k f)
          as [(e & f1 & He) | Ho]; congruence.
      * left. apply restore_graph_on_error_raise in Er.
        exists e, f'. tauto.
    + left. exists e, f. auto.
Qed.

(** *** The invariants of the data model *)

Lemma flow_invariant_graph_only : graph_only flow_invariant.
Proof.
  intros f g Ht He [[Hnd Hc] Hp].
  unfold flow_invariant, well_formed, edges_closed, no_parameter_downstream.
  rewrite <- Ht, <- He. auto.
Qed.

Lemma preserves_add_task task : preserves flow_invariant (add_task task).
Proof.
  intros f H.
  destruct (add_task_cases task f) as [[e ->] | (t & _ & ->)]; [exact H|].
  simpl. destruct H as [[Hnd Hc] Hp]. split; [split|]; simpl.
  - apply NoDup_set_add. assumption.
  - intros e He. simpl. rewrite !in_set_add. destruct (Hc e He). auto.
  - exact Hp.
Qed.

Lemma preserves_add_edge u d k v : preserves flow_invariant (add_edge u d k v).
Proof.
  intros f H.
  destruct (add_edge_cases u d k v f) as [(e & f' & -> & Ht & He) | [-> Hp]].
  - simpl. eapply flow_invariant_graph_only; [| |exact H]; congruence.
  - simpl. destruct H as [[Hnd Hc] Hnp]. split; [split|]; simpl.
    + apply NoDup_set_add, NoDup_set_add. assumption.
    + intros e He. simpl in *. apply in_set_add in He.
      rewrite !in_set_add. destruct He as [->|He]; simpl; [auto|].
      destruct (Hc e He). auto.
    + intros e He. simpl in He. apply in_set_add in He.
      destruct He as [->|He]; [exact Hp | apply Hnp; assumption].
Qed.

Lemma preserves_update flow v : preserves flow_invariant (update flow v).
Proof.
  unfold update.
  apply preserves_restore; [exact flow_invariant_graph_only|].
  apply preserves_bind; [|intros _]; apply preserves_for_each; intros x;
    (apply preserves_bind; [intros f H; exact H | intros ts]);
    apply preserves_when; [apply preserves_add_task | apply preserves_add_edge].
Qed.

Lemma preserves_add_task_results trs v :
  preserves flow_invariant (add_task_results trs v).
Proof.
  unfold add_task_results.
  apply preserves_restore; [exact flow_invariant_graph_only|].
  apply preserves_for_each. intros t.
  apply preserves_bind; [apply preserves_add_task | intros _; apply preserves_update].
Qed.

Section Reachable.
Variable as_task_result : task_like -> result TaskResult.

Lemma preserves_set_dependencies t us ds ks v :
  preserves flow_invariant (set_dependencies as_task_result t us ds ks v).
Proof.
  unfold set_dependencies.
  apply preserves_bind; [|intros task' f H; exact H].
  apply preserves_restore; [exact flow_invariant_graph_only|].
  apply preserves_bind; [apply preserves_query | intros r].
  apply preserves_bind.
  { destruct (has_varargs _); [apply preserves_raise | apply preserves_ret]. }
  intros _. apply preserves_bind; [apply preserves_add_task_results | intros _].
  repeat (apply preserves_bind;
          [apply preserves_for_each; intros x;
           apply preserves_bind; [apply preserves_query | intros tr];
           apply preserves_bind; [apply preserves_add_task_results | intros _];
           apply preserves_add_edge
          | intros _]).
  apply preserves_ret.
Qed.

Lemma preserves_run_call c : preserves flow_invariant (run_call as_task_result c).
Proof.
  destruct c; simpl.
  - apply preserves_add_task.
  - apply preserves_add_edge.
  - apply preserves_update.
  - apply preserves_add_task_results.
  - apply preserves_bind; [apply preserves_set_dependencies | intros _; apply preserves_ret].
Qed.

Lemma Flow_init_invariant n v ts es f :
  Flow_init n v ts es = Ok f -> flow_invariant f.
Proof.
  unfold Flow_init.
  set (self := mkFlow _ v [] []).
  set (m := (for_each ts add_task ;; for_each es _)%flow).
  assert (Hm : preserves flow_invariant m).
  { apply preserves_bind; [|intros _]; apply preserves_for_each; intros x;
      [apply preserves_add_task | apply preserves_add_edge]. }
  assert (H0 : flow_invariant self).
  { split; [split|]; simpl; [constructor | intros e [] | intros e []]. }
  specialize (Hm self H0). destruct (m self) as [[a|e] f1]; simpl in *;
    [intros [= <-]; assumption | discriminate].
Qed.

(** Every flow obtained through construction and the mutation API satisfies
    invariants 1 and 4 of the data model, and its task set is a set. *)
Lemma reachable_invariant f : reachable as_task_result f -> flow_invariant f.
Proof.
  induction 1 as [n v ts es f H | f c _ IH].
  - eapply Flow_init_invariant; eassumption.
  - apply preserves_run_call. assumption.
Qed.
End Reachable.

(** *** Atomicity *)

(** C4: when a top-level call of the mutation API raises, whatever
    [validate] is, the task set and the edge set are the ones from before
    the call; and what [restore_graph_on_error] raises is the exception of
    its block, or the one of the validation that follows the block. *)
Theorem failed_call_restores_graph
    (as_task_result : task_like -> result TaskResult) :
  (forall c f e f',
     run_call as_task_result c f = (Raise e, f') ->
     tasks f' = tasks f /\ edges f' = edges f) /\
  (forall A (validate_ : bool) (body : M A) f e f',
     restore_graph_on_error validate_ body f = (Raise e, f') ->
     tasks f' = tasks f /\ edges f' = edges f /\
     ((exists f1, body f = (Raise e, f1)) \/
      (validate_ = true /\
       exists a f1, body f = (Ok a, f1) /\ validate f1 = Raise e))).
Proof.
  split; [|exact restore_graph_on_error_raise].
  intros c f e f' H. destruct c; simpl in H.
  - destruct (add_task_cases task f) as [[e0 He] | (t & _ & Ho)];
      rewrite H in *; [injection He as _ <-; auto | discriminate].
  - destruct (add_edge_cases upstream downstream k validate_ f)
      as [(e0 & f0 & He & Ht & Hed) | [Ho _]]; rewrite H in *;
      [injection He as _ <-; auto | discriminate].
  - apply restore_graph_on_error_raise in H. tauto.
  - apply restore_graph_on_error_raise in H. tauto.
  - unfold bind, set_dependencies in H. unfold bind at 1 in H.
    match type of H with
    | context [restore_graph_on_error ?v ?b f] =>
        destruct (restore_graph_on_error v b f) as [[a|e0] f0] eqn:Er
    end; simpl in H; [discriminate|].
    injection H as <- <-. apply restore_graph_on_error_raise in Er. tauto.
Qed.

Lemma failed_call_restores_graph_witness :
  run_call wrap_task (Call_add_edge (IsTask load) (IsTask extract) None true) etl
  = (Raise ValueError_cyclic, etl) /\
  tasks etl = tasks etl /\ edges etl = edges etl.
Proof.
  assert (H : run_call wrap_task
                (Call_add_edge (IsTask load) (IsTask extract) None true) etl
              = (Raise ValueError_cyclic, etl)) by reflexivity.
  split; [exact H|].
  exact (proj1 (failed_call_restores_graph wrap_task) _ _ _ _ H).
Defined.

(** *** Slugs *)

(** C9: adding a task that is not in the flow and whose non-empty slug is
    the slug of a task of the flow raises the duplicate-slug error, and the
    flow is left as it was. *)
Theorem add_task_duplicate_slug (f : Flow) (t t' : Task) (s : string) :
  In t' (tasks f) -> slug t' = Some s -> s <> "" ->
  slug t = Some s -> ~ In t (tasks f) ->
  add_task (ATask t) f = (Raise (ValueError_duplicate_slug s), f).
Proof.
  intros Hin Hs' Hne Hs Hnin. simpl.
  apply (mem_false_iff _ Task_eq_dec) in Hnin. rewrite Hnin, Hs. simpl.
  apply String.eqb_neq in Hne. rewrite Hne. simpl.
  assert (Hm : mem option_string_eq_dec (Some s) (map slug (tasks f)) = true).
  { apply mem_true_iff, in_map_iff. exists t'. auto. }
  rewrite Hm. reflexivity.
Qed.

Lemma add_task_duplicate_slug_witness :
  add_task (ATask slug_a_second) (mkFlow "etl" None [slug_a_first] [])
  = (Raise (ValueError_duplicate_slug "a"), mkFlow "etl" None [slug_a_first] []).
Proof.
  apply (add_task_duplicate_slug (mkFlow "etl" None [slug_a_first] [])
           slug_a_second slug_a_first "a").
  - simpl. auto.
  - reflexivity.
  - discriminate.
  - reflexivity.
  - simpl. intros [H|[]]. discriminate.
Defined.

(** *** Parameters *)

(** C7: no flow obtained through construction and the mutation API has an
    edge whose downstream task is a [Parameter]; and [add_edge] towards a
    [Parameter], a task result being resolved to its task, raises the
    invalid-dependency error with the flow untouched. *)
Theorem parameter_never_downstream
    (as_task_result : task_like -> result TaskResult) :
  (forall f, reachable as_task_result f ->
     forall e, In e (edges f) -> is_parameter (downstream_task e) = false) /\
  (forall f upstream downstream k validate_,
     is_parameter (resolve downstream) = true ->
     add_edge upstream downstream k validate_ f
     = (Raise ValueError_parameter_downstream, f)).
Proof.
  split.
  - intros f H. apply (reachable_invariant as_task_result f H).
  - intros f u d k v H. unfold add_edge. rewrite H. reflexivity.
Qed.

Lemma parameter_never_downstream_witness :
  reachable wrap_task etl /\
  (forall e, In e (edges etl) -> is_parameter (downstream_task e) = false) /\
  add_edge (IsTask extract) (IsTask parameter_x) None true etl
  = (Raise ValueError_parameter_downstream, etl).
Proof.
  assert (H : reachable wrap_task etl).
  { apply (reachable_init wrap_task (Some "etl") (Some "1")
             [ATask extract; ATask transform; ATask load]
             [mkEdge extract transform (Some "data"); mkEdge transform load None]).
    reflexivity. }
  split; [exact H|]. split.
  - exact (proj1 (parameter_never_downstream wrap_task) etl H).
  - apply (proj2 (parameter_never_downstream wrap_task)). reflexivity.
Defined.

(** *** Endpoints of a new edge *)

(** When [add_edge] returns, both endpoints are tasks of the flow and the
    edge is one of its edges, for any key. *)
Lemma add_edge_ok_endpoints u d k v f f' :
  add_edge u d k v f = (Ok tt, f') ->
  In (resolve u) (tasks f') /\ In (resolve d) (tasks f') /\
  In (mkEdge (resolve u) (resolve d) k) (edges f').
Proof.
  intros H.
  destruct (add_edge_cases u d k v f) as [(e & f0 & He & _) | [Ho _]];
    rewrite H in *; [discriminate|].
  injection Ho as ->. simpl. rewrite !in_set_add. auto.
Qed.

(** A lookup in either adjacency index fails for a task outside the task
    set. *)
Lemma edges_to_missing f t :
  ~ In t (tasks f) -> exists t', edges_to f t = Raise (KeyError t').
Proof.
  intros Hn. destruct (edges_to f t) as [es|x] eqn:E.
  - apply (index_lookup_ok downstream_task) in E. tauto.
  - apply (index_lookup_raise downstream_task) in E.
    destruct E as (t' & -> & _). eauto.
Qed.

Lemma edges_from_missing f t :
  ~ In t (tasks f) -> exists t', edges_from f t = Raise (KeyError t').
Proof.
  intros Hn. destruct (edges_from f t) as [es|x] eqn:E.
  - apply (index_lookup_ok upstream_task) in E. tauto.
  - apply (index_lookup_raise upstream_task) in E.
    destruct E as (t' & -> & _). eauto.
Qed.

(** C5: on the empty flow, [add_edge(extract, transform, key="data")] does
    not insert the missing endpoints: the duplicate-key guard looks
    [transform] up in the adjacency index and raises [KeyError], the flow
    staying empty; constructing a flow from that edge alone fails the same
    way.  With [key=None] the same call inserts both endpoints. *)
Theorem add_edge_keyed_missing_downstream :
  add_edge (IsTask extract) (IsTask transform) (Some "data") true etl_empty
  = (Raise (KeyError transform), etl_empty) /\
  Flow_init (Some "etl") (Some "1") []
            [mkEdge extract transform (Some "data")]
  = Raise (KeyError transform) /\
  add_edge (IsTask extract) (IsTask transform) None true etl_empty
  = (Ok tt, mkFlow "etl" (Some "1") [extract; transform]
                   [mkEdge extract transform None]).
Proof. repeat split. Qed.

(** C10, as stated, fails: with the empty string as key the duplicate-key
    guard is skipped and the call inserts the missing downstream task; and
    with a [Parameter] downstream the call fails before that guard, with
    another exception. *)
Lemma add_edge_missing_downstream_counterexample :
  ~ In collector (tasks etl_empty) /\
  add_edge (IsTask extract) (IsTask collector) (Some "") true etl_empty
  = (Ok tt, mkFlow "etl" (Some "1") [extract; collector]
                   [mkEdge extract collector (Some "")]) /\
  ~ In parameter_x (tasks etl_empty) /\
  add_edge (IsTask extract) (IsTask parameter_x) (Some "data") true etl_empty
  = (Raise ValueError_parameter_downstream, etl_empty).
Proof. repeat split; simpl; tauto. Qed.

(** C10, amended: [edges_to] and [edges_from] raise [KeyError] for every
    task outside the task set; and [add_edge] with a non-empty key towards
    a task that is not a [Parameter] and not in the task set raises
    [KeyError] at the duplicate-key guard, with the flow untouched. *)
Theorem edges_lookup_requires_membership :
  (forall f t, ~ In t (tasks f) ->
     (exists t', edges_to f t = Raise (KeyError t')) /\
     (exists t', edges_from f t = Raise (KeyError t'))) /\
  (forall f upstream downstream k validate_,
     k <> "" ->
     is_parameter (resolve downstream) = false ->
     ~ In (resolve downstream) (tasks f) ->
     exists t', add_edge upstream downstream (Some k) validate_ f
                = (Raise (KeyError t'), f)).
Proof.
  split.
  - intros f t H. split; [apply edges_to_missing | apply edges_from_missing];
      assumption.
  - intros f u d k v Hk Hp Hn. unfold add_edge. rewrite Hp.
    destruct (edges_to_missing f (resolve d) Hn) as [t' Ht'].
    exists t'. unfold bind, check_duplicate_key. simpl.
    apply String.eqb_neq in Hk. rewrite Hk. simpl.
    unfold bind, query. rewrite Ht'. reflexivity.
Qed.

Lemma edges_lookup_requires_membership_witness :
  ~ In transform (tasks etl_empty) /\
  (exists t', edges_to etl_empty transform = Raise (KeyError t')) /\
  (exists t', add_edge (IsTask extract) (IsTask transform) (Some "data") true
                etl_empty = (Raise (KeyError t'), etl_empty)).
Proof.
  assert (Hn : ~ In transform (tasks etl_empty)) by (simpl; tauto).
  split; [exact Hn|]. split.
  - exact (proj1 (proj1 edges_lookup_requires_membership etl_empty transform Hn)).
  - apply (proj2 edges_lookup_requires_membership etl_empty
             (IsTask extract) (IsTask transform) "data" true);
      [discriminate | reflexivity | exact Hn].
Defined.

(** *** The signature-binding check *)

Lemma upstream_tasks_raise f t e :
  upstream_tasks f t = Raise e -> exists t', e = KeyError t'.
Proof.
  unfold upstream_tasks. intros H. apply rbind_raise in H.
  destruct H as [H | (es & _ & H)]; [|discriminate].
  apply (index_lookup_raise downstream_task) in H.
  destruct H as (t' & -> & _). eauto.
Qed.

Lemma scan_raise f : forall todo R S c e,
  scan f todo R S c = Raise e -> exists t', e = KeyError t'.
Proof.
  induction todo as [|t todo IH]; simpl; intros R S c e H; [discriminate|].
  apply rbind_raise in H. destruct H as [H | (ups & _ & H)].
  - eapply upstream_tasks_raise; eassumption.
  - destruct (existsb _ ups); eapply IH; eassumption.
Qed.

Lemma sort_loop_raise f : forall n R srt e,
  sort_loop f n R srt = Some (Raise e) ->
  e = ValueError_cyclic \/ exists t', e = KeyError t'.
Proof.
  induction n as [|n IH]; intros R srt e H; destruct R as [|t R0];
    cbn [sort_loop] in H; try discriminate.
  destruct (scan f (t :: R0) (t :: R0) srt true) as [[[R' S'] c']|e1] eqn:Es.
  - destruct c'; [injection H as <-; auto | eapply IH; eassumption].
  - injection H as <-. right. eapply scan_raise; eassumption.
Qed.

(** The validation never raises the binding error. *)
Lemma validate_not_bind f : validate f <> Raise TypeError_bind.
Proof.
  unfold validate, sorted_tasks. simpl.
  destruct (sort_loop f (List.length (tasks f)) (tasks f) []) as [[l|e]|] eqn:E;
    simpl; try discriminate.
  apply sort_loop_raise in E. destruct E as [-> | [t' ->]]; discriminate.
Qed.

Lemma in_edge_keys es k :
  In k (edge_keys es) <-> exists e, In e es /\ key e = Some k.
Proof.
  unfold edge_keys. rewrite in_set_of, in_flat_map. split.
  - intros (e & He & Hk). exists e. split; [assumption|].
    destruct (key e) as [s|]; simpl in Hk; [|tauto].
    destruct Hk as [->|[]]. reflexivity.
  - intros (e & He & Hk). exists e. split; [assumption|].
    rewrite Hk. simpl. auto.
Qed.

Lemma add_task_raise task f e f' :
  add_task task f = (Raise e, f') ->
  e = TypeError_not_a_task \/ exists s, e = ValueError_duplicate_slug s.
Proof.
  destruct task as [t|r]; simpl.
  - destruct (negb (mem Task_eq_dec t (tasks f)) && truthy (slug t)
              && mem option_string_eq_dec (slug t) (map slug (tasks f)));
      intros [= <- <-]; eauto.
  - intros [= <- <-]. auto.
Qed.

(** Without a key the block of [add_edge] binds nothing. *)
Lemma add_edge_block_unkeyed_raise u d f e f' :
  add_edge_block u d None f = (Raise e, f') -> e <> TypeError_bind.
Proof.
  unfold add_edge_block, bind, get_tasks. intros H.
  assert (Hens : forall t g e0 g',
            when (negb (mem Task_eq_dec t (tasks g))) (add_task (ATask t)) g
            = (Raise e0, g') -> e0 <> TypeError_bind).
  { intros t g e0 g' Hw. destruct (mem Task_eq_dec t (tasks g));
      [discriminate|].
    change (add_task (ATask t) g = (Raise e0, g')) in Hw.
    apply add_task_raise in Hw. destruct Hw as [-> | [s ->]]; discriminate. }
  destruct (when (negb (mem Task_eq_dec u (tasks f))) (add_task (ATask u)) f)
    as [[[]|e1] f1] eqn:E1.
  - destruct (when (negb (mem Task_eq_dec d (tasks f1))) (add_task (ATask d)) f1)
      as [[[]|e2] f2] eqn:E2.
    + discriminate.
    + injection H as <- <-. eapply Hens; eassumption.
  - injection H as <- <-. eapply Hens; eassumption.
Qed.

(** C6, as stated, fails: with [validate=False] an edge whose key is not a
    parameter of the downstream task is refused by the binding check. *)
Lemma add_edge_unvalidated_bind_counterexample :
  add_edge (IsTask extract) (IsTask transform) (Some "zzz") false etl
  = (Raise TypeError_bind, etl).
Proof. reflexivity. Qed.

(** C6, amended: the signature-binding check of [add_edge] does not depend
    on [validate].  A call raises the binding error with [validate=False]
    exactly when it does with [validate=True], and never when the key is
    [None]; and between two tasks of a flow of the data model, a key that is
    not yet bound for the downstream task and that its signature cannot bind
    is refused with the binding error, the flow untouched, whatever
    [validate] is. *)
Theorem add_edge_bind_check_any_validate :
  (forall f upstream downstream k,
     fst (add_edge upstream downstream k false f) = Raise TypeError_bind <->
     fst (add_edge upstream downstream k true f) = Raise TypeError_bind) /\
  (forall f upstream downstream validate_,
     fst (add_edge upstream downstream None validate_ f)
     <> Raise TypeError_bind) /\
  (forall f upstream downstream k validate_,
     well_formed f ->
     In (resolve upstream) (tasks f) ->
     In (resolve downstream) (tasks f) ->
     is_parameter (resolve downstream) = false ->
     (forall e, In e (edges f) ->
                downstream_task e = resolve downstream -> key e <> Some k) ->
     accepts_keyword (run_signature (resolve downstream)) k = false ->
     add_edge upstream downstream (Some k) validate_ f
     = (Raise TypeError_bind, f)).
Proof.
  split.
  - intros f u d k. unfold add_edge.
    destruct (is_parameter (resolve d)); [tauto|].
    unfold bind.
    destruct (check_duplicate_key (resolve d) k f) as [[[]|e] f0]; [|tauto].
    unfold restore_graph_on_error.
    destruct (add_edge_block (resolve u) (resolve d) k f0) as [[[]|e] f1];
      [|tauto].
    destruct (validate f1) as [[]|e] eqn:Ev; simpl; [tauto|].
    split; [discriminate|]. intros [= ->]. exfalso.
    exact (validate_not_bind f1 Ev).
  - split.
    { intros f u d v. unfold add_edge.
      destruct (is_parameter (resolve d)); [simpl; congruence|].
      unfold bind.
      change (check_duplicate_key (resolve d) None f)
        with (@pair (result unit) Flow (Ok tt) f).
      cbv beta iota. unfold restore_graph_on_error.
      destruct (add_edge_block (resolve u) (resolve d) None f)
        as [[[]|e] f1] eqn:Eb.
      - destruct v; [|simpl; congruence].
        destruct (validate f1) as [[]|e] eqn:Ev; simpl; [congruence|].
        intros [= ->]. exact (validate_not_bind f1 Ev).
      - simpl. intros [= ->].
        exact (add_edge_block_unkeyed_raise _ _ _ _ _ Eb eq_refl). }
    intros f u d k v [Hnd Hc] Hu Hd Hp Hfresh Hacc.
    set (up := resolve u) in *. set (dn := resolve d) in *.
    assert (Hdc : forall e, In e (edges f) -> In (downstream_task e) (tasks f)).
    { intros e He. apply Hc. assumption. }
    unfold add_edge. fold up. fold dn. rewrite Hp.
    assert (Hcheck : check_duplicate_key dn (Some k) f = (Ok tt, f)).
    { unfold check_duplicate_key. destruct (truthy (Some k)); [|reflexivity].
      unfold bind, query.
      destruct (index_lookup_total downstream_task f dn Hd Hdc) as [es Hes].
      unfold edges_to, all_upstream_edges. rewrite Hes.
      assert (Hm : mem option_string_eq_dec (Some k)
                     (set_of option_string_eq_dec (map key es)) = false).
      { apply mem_false_iff. rewrite in_set_of, in_map_iff.
        intros (e & Hk & He). apply (index_lookup_ok downstream_task) in Hes.
        destruct Hes as (_ & _ & Hes). apply Hes in He. destruct He as [He Hdn].
        exact (Hfresh e He Hdn Hk). }
      rewrite Hm. reflexivity. }
    unfold bind at 1. rewrite Hcheck.
    set (f1 := mkFlow (name f) (version f) (tasks f)
                      (set_add Edge_eq_dec (mkEdge up dn (Some k)) (edges f))).
    assert (Hblock : add_edge_block up dn (Some k) f = (Raise TypeError_bind, f1)).
    { unfold add_edge_block, bind, get_tasks.
      apply (mem_true_iff _ Task_eq_dec) in Hu.
      apply (mem_true_iff _ Task_eq_dec) in Hd.
      rewrite Hu. simpl. rewrite Hd. simpl. fold f1. unfold query.
      destruct (index_lookup_total downstream_task f1 dn) as [es Hes].
      { apply mem_true_iff in Hd. exact Hd. }
      { intros e He. simpl in He. apply in_set_add in He. simpl.
        destruct He as [->|He]; [apply mem_true_iff in Hd; exact Hd | auto]. }
      unfold edges_to, all_upstream_edges. rewrite Hes.
      unfold bind_partial.
      assert (Hk : In k (edge_keys es)).
      { apply in_edge_keys. exists (mkEdge up dn (Some k)).
        split; [|reflexivity].
        apply (index_lookup_ok downstream_task) in Hes.
        destruct Hes as (_ & _ & Hes). apply Hes. simpl.
        rewrite in_set_add. auto. }
      destruct (forallb (accepts_keyword (run_signature dn)) (edge_keys es)) eqn:Ef;
        [|reflexivity].
      rewrite forallb_forall in Ef. rewrite (Ef k Hk) in Hacc. discriminate. }
    unfold restore_graph_on_error. rewrite Hblock. simpl.
    rewrite flow_eta. reflexivity.
Qed.

Lemma add_edge_bind_check_any_validate_witness :
  well_formed etl /\
  add_edge (IsTask extract) (IsTask load) (Some "zzz") false etl
  = (Raise TypeError_bind, etl).
Proof.
  assert (Hwf : well_formed etl) by (apply well_formedb_sound; reflexivity).
  split; [exact Hwf|].
  apply (proj2 (proj2 add_edge_bind_check_any_validate) etl (IsTask extract)
           (IsTask load) "zzz" false Hwf).
  - simpl. auto.
  - simpl. auto.
  - reflexivity.
  - intros e He _. simpl in He. destruct He as [<-|[<-|[]]]; discriminate.
  - reflexivity.
Defined.

(** ** Fingerprints *)

Lemma padded16_length b : List.length (padded16 b) = 16.
Proof.
  unfold padded16. rewrite length_firstn, length_app, repeat_length. lia.
Qed.

(** C8: the flow ID is the UUID string of the MD5 digest of
    ["<name>:<version>"], the version being empty when it is [None]; hence
    it is the same for two flows with the same name and version, whatever
    their tasks and edges, and it is a UUID string since a digest has sixteen
    bytes. *)
Theorem generate_flow_id_name_version
    (md5 : list byte -> list byte) (jsonpickle_dumps : pickled -> string) :
  (forall f,
     generate_flow_id md5 jsonpickle_dumps f
     = uuid_of_bytes
         (md5 (list_byte_of_string
                 (name f ++ ":"
                  ++ match version f with Some v => v | None => "" end)))) /\
  (forall f g,
     name f = name g -> version f = version g ->
     generate_flow_id md5 jsonpickle_dumps f
     = generate_flow_id md5 jsonpickle_dumps g) /\
  (forall n ts es ts' es',
     generate_flow_id md5 jsonpickle_dumps (mkFlow n None ts es)
     = generate_flow_id md5 jsonpickle_dumps (mkFlow n (Some "") ts' es')) /\
  ((forall b, List.length (md5 b) = 16) ->
   forall f, exists s, generate_flow_id md5 jsonpickle_dumps f = Ok s).
Proof.
  split; [reflexivity|]. split; [|split].
  - intros f g Hn Hv. unfold generate_flow_id. rewrite Hn, Hv. reflexivity.
  - reflexivity.
  - intros Hlen f. unfold generate_flow_id, uuid_of_bytes, get_hash.
    rewrite Hlen. simpl. eauto.
Qed.

Lemma generate_flow_id_name_version_witness :
  name etl = name etl_cycle /\ version etl = version etl_cycle /\
  generate_flow_id padded16 (fun _ => "") etl
  = generate_flow_id padded16 (fun _ => "") etl_cycle /\
  (forall b, List.length (padded16 b) = 16) /\
  exists s, generate_flow_id padded16 (fun _ => "") etl = Ok s.
Proof.
  split; [reflexivity|]. split; [reflexivity|]. split; [|split].
  - apply (proj1 (proj2 (generate_flow_id_name_version padded16 (fun _ => ""))));
      reflexivity.
  - exact padded16_length.
  - apply (proj2 (proj2 (proj2 (generate_flow_id_name_version padded16
                                  (fun _ => ""))))).
    exact padded16_length.
Defined.

(** *** The hash dictionaries *)

Lemma hash_get_map (g : Task -> list byte) ts t :
  In t ts -> hash_get (map (fun t => (t, g t)) ts) t = Ok (g t).
Proof.
  induction ts as [|t0 ts IH]; simpl; [tauto|].
  intros H. destruct (Task_eq_dec t t0) as [->|Hne]; [reflexivity|].
  destruct H as [E|H]; [congruence | auto].
Qed.

Lemma hash_get_set_same d t h : hash_get (hash_set d t h) t = Ok h.
Proof.
  induction d as [|[t0 h0] d IH]; simpl.
  - destruct (Task_eq_dec t t); congruence.
  - destruct (Task_eq_dec t t0) as [->|Hne]; simpl.
    + destruct (Task_eq_dec t0 t0); congruence.
    + destruct (Task_eq_dec t t0); congruence.
Qed.

Lemma hash_get_set_other d t h t' :
  t' <> t -> hash_get (hash_set d t h) t' = hash_get d t'.
Proof.
  intros Hne. induction d as [|[t0 h0] d IH]; simpl.
  - destruct (Task_eq_dec t' t); congruence.
  - destruct (Task_eq_dec t t0) as [->|Hne0]; simpl.
    + destruct (Task_eq_dec t' t0); congruence.
    + destruct (Task_eq_dec t' t0); congruence.
Qed.

Lemma increment_le c h x : c x <= increment c h x.
Proof. unfold increment. destruct (bytes_eq_dec x h); lia. Qed.

Section FingerprintFacts.
Variable md5 : list byte -> list byte.
Variable jsonpickle_dumps : pickled -> string.
Variable str_of_tuple : list byte -> list (option string * list byte) -> string.

Local Abbreviation fwd := (forward_step md5 jsonpickle_dumps).

(** Forward pass #1 on a task without incoming edges: the step returns,
    touches the hash of no other task and lowers no count. *)
Lemma forward_step_root f st t h :
  edges_to f t = Ok [] ->
  hash_get (hashes st) t = Ok h ->
  exists st', fwd f st t = Ok st' /\
    (forall t', t' <> t -> hash_get (hashes st') t' = hash_get (hashes st) t') /\
    (exists h', hash_get (hashes st') t = Ok h') /\
    (forall x, counter st x <= counter st' x).
Proof.
  intros He Hh. unfold forward_step. rewrite Hh. simpl.
  destruct (Nat.eqb (counter st h) 1).
  - eexists. split; [reflexivity|]. simpl. eauto.
  - rewrite He. simpl. eexists. split; [reflexivity|]. simpl.
    split; [intros t' Hne; apply hash_get_set_other; assumption|].
    split; [eexists; apply hash_get_set_same|].
    intros x. apply increment_le.
Qed.

(** C1: [etl_twins] is a flow that the constructor builds, well formed and
    acyclic; [transform] shares its attribute payload with its twin, so it is
    not finalised by the base pass, and forward pass #1 sorts the pairs of
    its two incoming edges, one with the key [None] and one with the key
    ["data"]: [generate_task_ids] raises [TypeError] and assigns no ID,
    whatever the digest and the serialisers are. *)
Theorem generate_task_ids_unorderable_keys :
  Flow_init (Some "etl") (Some "1")
            [ATask extract; ATask reference; ATask transform;
             ATask transform_twin]
            [mkEdge reference transform None;
             mkEdge extract transform (Some "data")]
  = Ok etl_twins /\
  well_formed etl_twins /\
  sorted_tasks etl_twins None
  = Ok [extract; reference; transform; transform_twin] /\
  forall fuel,
    generate_task_ids md5 jsonpickle_dumps str_of_tuple fuel etl_twins
    = Some (Raise TypeError_unorderable).
Proof.
  split; [reflexivity|].
  split; [apply well_formedb_sound; reflexivity|].
  split; [reflexivity|].
  intros fuel.
  set (g := fun t => get_hash md5 jsonpickle_dumps (Hash_task t)).
  set (hs0 := map (fun t => (t, get_hash md5 jsonpickle_dumps (Hash_task t)))
                  (tasks etl_twins)).
  set (st0 := mkState hs0 (Counter_of (map snd hs0)) []).
  assert (Hin : forall t, In t (tasks etl_twins) ->
                          hash_get (hashes st0) t = Ok (g t)).
  { intros t Ht. apply (hash_get_map g). assumption. }
  assert (Hcount : 2 <= counter st0 (g transform)).
  { unfold g. simpl. unfold Counter_of. simpl.
    repeat match goal with
           | |- context [bytes_eq_dec ?a ?b] => destruct (bytes_eq_dec a b)
           end; try congruence; lia. }
  destruct (forward_step_root etl_twins st0 extract (g extract))
    as (st1 & E1 & K1 & [hE HE] & C1); [reflexivity | apply Hin; simpl; auto |].
  destruct (forward_step_root etl_twins st1 reference (g reference))
    as (st2 & E2 & K2 & [hR HR] & C2);
    [reflexivity | rewrite K1; [apply Hin; simpl; auto | discriminate] |].
  assert (E3 : fwd etl_twins st2 transform = Raise TypeError_unorderable).
  { unfold forward_step.
    rewrite K2, K1, (Hin transform) by (simpl; auto; discriminate).
    cbn [rbind].
    assert (Hne : Nat.eqb (counter st2 (g transform)) 1 = false).
    { apply Nat.eqb_neq. specialize (C1 (g transform)).
      specialize (C2 (g transform)). lia. }
    rewrite Hne.
    change (edges_to etl_twins transform)
      with (Ok [mkEdge reference transform None;
                mkEdge extract transform (Some "data")]).
    cbn [rbind]. unfold edge_hashes_of. cbn [rfold upstream_task key].
    rewrite HR. cbn [rbind]. rewrite (K2 extract), HE by discriminate.
    reflexivity. }
  assert (Hpass : rfold (fwd etl_twins)
                    [extract; reference; transform; transform_twin] st0
                  = Raise TypeError_unorderable).
  { cbn [rfold]. rewrite E1. cbn [rbind]. rewrite E2. cbn [rbind].
    rewrite E3. reflexivity. }
  unfold generate_task_ids. cbv zeta. fold hs0. fold st0.
  change (sorted_tasks etl_twins None)
    with (Ok [extract; reference; transform; transform_twin]).
  cbn [rbind]. rewrite Hpass. reflexivity.
Qed.
End FingerprintFacts.

(** *** Bytes and UUID strings *)

Lemma xorb_cancel a b c : xorb a b = xorb a c -> b = c.
Proof. destruct a, b, c; simpl; congruence. Qed.

Lemma byte_xor_cancel a b c : byte_xor a b = byte_xor a c -> b = c.
Proof.
  unfold byte_xor. intros H.
  rewrite <- (Byte.of_bits_to_bits b), <- (Byte.of_bits_to_bits c).
  destruct (Byte.to_bits a) as (a0 & a1 & a2 & a3 & a4 & a5 & a6 & a7).
  destruct (Byte.to_bits b) as (b0 & b1 & b2 & b3 & b4 & b5 & b6 & b7).
  destruct (Byte.to_bits c) as (c0 & c1 & c2 & c3 & c4 & c5 & c6 & c7).
  apply (f_equal Byte.to_bits) in H. rewrite !Byte.to_bits_of_bits in H.
  injection H as H0 H1 H2 H3 H4 H5 H6 H7.
  apply xorb_cancel in H0, H1, H2, H3, H4, H5, H6, H7. congruence.
Qed.

Lemma xor_inj seed h1 h2 :
  List.length seed = 16 -> List.length h1 = 16 -> List.length h2 = 16 ->
  xor seed h1 = xor seed h2 -> h1 = h2.
Proof.
  intros Hs H1 H2 H.
  do 17 (destruct seed as [|? seed]; try discriminate Hs).
  do 17 (destruct h1 as [|? h1]; try discriminate H1).
  do 17 (destruct h2 as [|? h2]; try discriminate H2).
  cbn in H. injection H. intros.
  repeat f_equal; eapply byte_xor_cancel; eassumption.
Qed.

Lemma xor_length seed h :
  h <> [] -> List.length (xor seed h) = List.length seed.
Proof.
  intros Hne. unfold xor. destruct h as [|x h]; [congruence|].
  rewrite length_map, length_combine, length_seq. lia.
Qed.

Lemma hex_hi_not_dash b : Ascii.eqb (hex_hi b) "-" = false.
Proof. destruct b; reflexivity. Qed.

Lemma hex_lo_not_dash b : Ascii.eqb (hex_lo b) "-" = false.
Proof. destruct b; reflexivity. Qed.

Lemma filter_hex_hi b l :
  filter (fun c => negb (Ascii.eqb c "-")) (hex_hi b :: l)
  = hex_hi b :: filter (fun c => negb (Ascii.eqb c "-")) l.
Proof. cbn [filter]. rewrite hex_hi_not_dash. reflexivity. Qed.

Lemma filter_hex_lo b l :
  filter (fun c => negb (Ascii.eqb c "-")) (hex_lo b :: l)
  = hex_lo b :: filter (fun c => negb (Ascii.eqb c "-")) l.
Proof. cbn [filter]. rewrite hex_lo_not_dash. reflexivity. Qed.

Lemma filter_dash l :
  filter (fun c => negb (Ascii.eqb c "-")) ("-"%char :: l)
  = filter (fun c => negb (Ascii.eqb c "-")) l.
Proof. reflexivity. Qed.

Lemma bytes_of_hex_cons b cs :
  bytes_of_hex (hex_hi b :: hex_lo b :: cs)
  = match bytes_of_hex cs with
    | Some bs => Some (b :: bs)
    | None => None
    end.
Proof.
  cbn [bytes_of_hex]. destruct (bytes_of_hex cs); destruct b; reflexivity.
Qed.

Lemma bytes_of_hex_length : forall b h,
  bytes_of_hex h = Some b -> List.length h = 2 * List.length b.
Proof.
  induction b as [|x b IH]; intros h H.
  - destruct h as [|c1 [|c2 h]]; [reflexivity | discriminate |].
    cbn [bytes_of_hex] in H.
    destruct (hex_value c1) as [[[[? ?] ?] ?]|]; [|discriminate].
    destruct (hex_value c2) as [[[[? ?] ?] ?]|]; [|discriminate].
    destruct (bytes_of_hex h); discriminate.
  - destruct h as [|c1 [|c2 h]]; try discriminate.
    cbn [bytes_of_hex] in H.
    destruct (hex_value c1) as [[[[? ?] ?] ?]|]; [|discriminate].
    destruct (hex_value c2) as [[[[? ?] ?] ?]|]; [|discriminate].
    destruct (bytes_of_hex h) as [bs|] eqn:E; [|discriminate].
    injection H as _ ->. apply IH in E. simpl. lia.
Qed.

(** Reading back the string of a UUID gives its sixteen bytes. *)
Lemma bytes_of_uuid_of_bytes b s :
  uuid_of_bytes b = Ok s -> bytes_of_uuid s = Ok b.
Proof.
  unfold uuid_of_bytes. destruct (Nat.eqb (List.length b) 16) eqn:E;
    [|discriminate].
  intros [= <-]. apply Nat.eqb_eq in E.
  do 17 (destruct b as [|? b]; try discriminate E).
  unfold bytes_of_uuid. rewrite list_ascii_of_string_of_list_ascii.
  cbn [hex_of_bytes flat_map hex_of_byte app firstn skipn].
  repeat (rewrite filter_hex_hi || rewrite filter_hex_lo || rewrite filter_dash).
  cbn [filter List.length Nat.eqb].
  rewrite !bytes_of_hex_cons. reflexivity.
Qed.

Lemma uuid_of_bytes_inj a b s :
  uuid_of_bytes a = Ok s -> uuid_of_bytes b = Ok s -> a = b.
Proof.
  intros Ha Hb. apply bytes_of_uuid_of_bytes in Ha, Hb. congruence.
Qed.

Lemma uuid_of_bytes_length b s : uuid_of_bytes b = Ok s -> List.length b = 16.
Proof.
  unfold uuid_of_bytes. destruct (Nat.eqb (List.length b) 16) eqn:E;
    [intros _; apply Nat.eqb_eq; exact E | discriminate].
Qed.

Lemma bytes_of_uuid_length s b : bytes_of_uuid s = Ok b -> List.length b = 16.
Proof.
  unfold bytes_of_uuid.
  destruct (Nat.eqb (List.length _) 32) eqn:E; [|discriminate].
  destruct (bytes_of_hex _) as [b'|] eqn:Eh; [|discriminate].
  intros [= <-]. apply bytes_of_hex_length in Eh.
  apply Nat.eqb_eq in E. lia.
Qed.

(** *** Counting the holders of a hash *)

Lemma hash_get_in d t h : hash_get d t = Ok h -> In (t, h) d.
Proof.
  induction d as [|[t0 h0] d IH]; simpl; [discriminate|].
  destruct (Task_eq_dec t t0) as [->|Hne]; [intros [= ->]; auto | auto].
Qed.

Lemma hash_get_key d t h : hash_get d t = Ok h -> In t (map fst d).
Proof.
  intros H. apply hash_get_in in H.
  apply in_map_iff. exists (t, h). auto.
Qed.

Lemma hash_get_of_in d t h :
  NoDup (map fst d) -> In (t, h) d -> hash_get d t = Ok h.
Proof.
  induction d as [|[t0 h0] d IH]; simpl; [tauto|].
  intros Hnd [E|Hin].
  - injection E as -> ->. destruct (Task_eq_dec t t); congruence.
  - inversion Hnd as [|? ? Hn Hnd']; subst.
    destruct (Task_eq_dec t t0) as [->|Hne]; [|auto].
    exfalso. apply Hn. apply in_map_iff. exists (t0, h). auto.
Qed.

Lemma hash_set_keys d t h :
  In t (map fst d) -> map fst (hash_set d t h) = map fst d.
Proof.
  induction d as [|[t0 h0] d IH]; simpl; [tauto|].
  intros H. destruct (Task_eq_dec t t0) as [->|Hne]; simpl; [reflexivity|].
  f_equal. apply IH. destruct H as [E|H]; [congruence | assumption].
Qed.

Lemma hash_set_in_keys d t h t' :
  In t' (map fst (hash_set d t h)) <-> t' = t \/ In t' (map fst d).
Proof.
  induction d as [|[t0 h0] d IH]; simpl.
  - intuition congruence.
  - destruct (Task_eq_dec t t0) as [->|Hne]; simpl.
    + intuition congruence.
    + rewrite IH. intuition congruence.
Qed.

Lemma hash_set_keys_nodup d t h :
  NoDup (map fst d) -> NoDup (map fst (hash_set d t h)).
Proof.
  induction d as [|[t0 h0] d IH]; simpl; intros H.
  - constructor; [tauto | constructor].
  - inversion H as [|? ? Hn Hnd]; subst.
    destruct (Task_eq_dec t t0) as [->|Hne]; simpl.
    + constructor; assumption.
    + constructor; [|auto]. rewrite hash_set_in_keys. intuition congruence.
Qed.

Lemma hash_set_set d t h h' : hash_set (hash_set d t h) t h' = hash_set d t h'.
Proof.
  induction d as [|[t0 h0] d IH]; simpl.
  - destruct (Task_eq_dec t t); congruence.
  - destruct (Task_eq_dec t t0) as [->|Hne]; simpl.
    + destruct (Task_eq_dec t0 t0); congruence.
    + destruct (Task_eq_dec t t0); congruence.
Qed.

(** Overwriting the hash [h] of [t] by [h'] moves one holder from [h] to
    [h']. *)
Lemma holders_set d t h h' x :
  hash_get d t = Ok h ->
  holders (hash_set d t h') x + (if bytes_eq_dec h x then 1 else 0)
  = holders d x + (if bytes_eq_dec h' x then 1 else 0).
Proof.
  unfold holders. induction d as [|[t0 h0] d IH]; simpl; [discriminate|].
  destruct (Task_eq_dec t t0) as [->|Hne]; simpl.
  - intros [= ->].
    destruct (bytes_eq_dec h' x), (bytes_eq_dec h x); lia.
  - intros H. specialize (IH H). destruct (bytes_eq_dec h0 x); lia.
Qed.

Lemma holders_rehash d t h' x :
  holders (hash_set d t h') x
  <= holders d x + (if bytes_eq_dec h' x then 1 else 0).
Proof.
  destruct (hash_get d t) as [h|e] eqn:E.
  - pose proof (holders_set d t h h' x E). lia.
  - clear E. unfold holders.
    induction d as [|[t0 h0] d IH]; simpl.
    + destruct (bytes_eq_dec h' x); lia.
    + destruct (Task_eq_dec t t0) as [->|Hne]; simpl.
      * destruct (bytes_eq_dec h' x), (bytes_eq_dec h0 x); lia.
      * destruct (bytes_eq_dec h0 x); lia.
Qed.

Lemma two_holders d t1 t2 x :
  t1 <> t2 -> hash_get d t1 = Ok x -> hash_get d t2 = Ok x ->
  2 <= holders d x.
Proof.
  unfold holders. intros Hne. induction d as [|[t0 h0] d IH]; simpl;
    [discriminate|].
  destruct (Task_eq_dec t1 t0) as [->|H1], (Task_eq_dec t2 t0) as [->|H2];
    try congruence.
  - intros [= ->] H. destruct (bytes_eq_dec x x); [|congruence].
    apply hash_get_in in H.
    assert (In x (map snd d)) by (apply in_map_iff; exists (t2, x); auto).
    apply (count_occ_In bytes_eq_dec) in H0. lia.
  - intros H [= ->]. destruct (bytes_eq_dec x x); [|congruence].
    apply hash_get_in in H.
    assert (In x (map snd d)) by (apply in_map_iff; exists (t1, x); auto).
    apply (count_occ_In bytes_eq_dec) in H0. lia.
  - intros G1 G2. specialize (IH G1 G2). destruct (bytes_eq_dec h0 x); lia.
Qed.

Lemma increment_spec c h x :
  increment c h x = c x + (if bytes_eq_dec h x then 1 else 0).
Proof.
  unfold increment.
  destruct (bytes_eq_dec x h), (bytes_eq_dec h x); try congruence; lia.
Qed.

Lemma hash_set_lengths d t h :
  Forall (fun p => List.length (snd p) = 16) d -> List.length h = 16 ->
  Forall (fun p : Task * list byte => List.length (snd p) = 16) (hash_set d t h).
Proof.
  intros Hd Hh. induction d as [|[t0 h0] d IH]; simpl.
  - constructor; [assumption | constructor].
  - inversion Hd; subst. destruct (Task_eq_dec t t0); constructor; auto.
Qed.

(** A dictionary whose keys carry pairwise different values has no repeated
    value. *)
Lemma distinct_values d :
  NoDup (map fst d) ->
  (forall t1 t2 h, t1 <> t2 -> hash_get d t1 = Ok h -> hash_get d t2 = Ok h ->
                   False) ->
  NoDup (map snd d).
Proof.
  induction d as [|[t0 h0] d IH]; simpl; intros Hnd Hdist; [constructor|].
  inversion Hnd as [|? ? Hn Hnd']; subst. constructor.
  - intros Hin. apply in_map_iff in Hin. destruct Hin as ([t1 h1] & E & Hin).
    simpl in E. subst h1.
    assert (Hne : t1 <> t0).
    { intros ->. apply Hn. apply in_map_iff. exists (t0, h0). auto. }
    apply (Hdist t1 t0 h0 Hne).
    + destruct (Task_eq_dec t1 t0); [congruence|].
      apply hash_get_of_in; assumption.
    + destruct (Task_eq_dec t0 t0); congruence.
  - apply IH; [assumption|]. intros t1 t2 h Hne G1 G2.
    assert (K1 : t1 <> t0).
    { intros ->. apply Hn. eapply hash_get_key; eassumption. }
    assert (K2 : t2 <> t0).
    { intros ->. apply Hn. eapply hash_get_key; eassumption. }
    apply (Hdist t1 t2 h Hne).
    + destruct (Task_eq_dec t1 t0); [congruence | assumption].
    + destruct (Task_eq_dec t2 t0); [congruence | assumption].
Qed.

(** *** Termination of the duplicate check *)

(** The duplicate check stops within [n] rounds as soon as one of the first
    [n] rehashes of [h] is a hash that has not been counted yet.  Nothing
    more can be said for an arbitrary digest: under a digest with a fixed
    point that is counted twice, the check never stops. *)
Lemma duplicate_check_terminates (md5 : list byte -> list byte)
    (jsonpickle_dumps : pickled -> string) : forall n h c,
  (c h <= 1 \/ exists k, k <= n /\ c (Nat.iter k md5 h) = 0) ->
  exists r, duplicate_check md5 jsonpickle_dumps n h c = Some r.
Proof.
  induction n as [|n IH]; intros h c H; simpl;
    destruct (Nat.ltb 1 (c h)) eqn:E; eauto; apply Nat.ltb_lt in E.
  - exfalso. destruct H as [H | (k & Hk & H)]; [lia|].
    assert (k = 0) by lia. subst k. simpl in H. lia.
  - apply IH. destruct H as [H | (k & Hk & H)]; [lia|].
    destruct k as [|k]; [simpl in H; lia|].
    rewrite Nat.iter_succ_r in H. rewrite increment_spec.
    destruct (bytes_eq_dec (md5 h) (md5 h)); [|congruence].
    destruct (bytes_eq_dec (Nat.iter k md5 (md5 h)) (md5 h)) as [Eq|Hne].
    + left. rewrite Eq in H. lia.
    + right. exists k. split; [lia|]. rewrite increment_spec.
      destruct (bytes_eq_dec (md5 h) (Nat.iter k md5 (md5 h)));
        [congruence | lia].
Qed.

Lemma duplicate_check_fixed_point (md5 : list byte -> list byte)
    (jsonpickle_dumps : pickled -> string) h :
  md5 h = h ->
  forall fuel c, 2 <= c h ->
    duplicate_check md5 jsonpickle_dumps fuel h c = None.
Proof.
  intros Hfix. induction fuel as [|fuel IH]; intros c Hc; simpl;
    destruct (Nat.ltb 1 (c h)) eqn:E;
    try (apply Nat.ltb_ge in E; lia); [reflexivity|].
  rewrite Hfix. apply IH. pose proof (increment_le c h h). lia.
Qed.

(** *** Uniqueness of the task IDs *)

Section Uniqueness.
Variable md5 : list byte -> list byte.
Variable jsonpickle_dumps : pickled -> string.
Variable str_of_tuple : list byte -> list (option string * list byte) -> string.
Hypothesis md5_length : forall b, List.length (md5 b) = 16.
Variable f : Flow.

Local Abbreviation base := (passes_invariant f).

Lemma base_finalize st t h :
  base st -> hash_get (hashes st) t = Ok h ->
  base (mkState (hashes st) (counter st) (hash_set (final_hashes st) t h)).
Proof.
  intros (B1 & B2 & B3 & B4 & B5) Hg. unfold passes_invariant. simpl.
  repeat split; auto.
  - apply hash_set_keys_nodup. assumption.
  - intros t' Ht'. apply hash_set_in_keys in Ht'. destruct Ht' as [->|Ht'];
      [|auto]. rewrite <- B1. eapply hash_get_key; eassumption.
Qed.

Lemma base_rehash st t h h' c :
  base st -> hash_get (hashes st) t = Ok h -> List.length h' = 16 ->
  (forall x, holders (hash_set (hashes st) t h') x <= c x) ->
  base (mkState (hash_set (hashes st) t h') c (final_hashes st)).
Proof.
  intros (B1 & B2 & B3 & B4 & B5) Hg Hl Hc. unfold passes_invariant. simpl.
  repeat split; auto.
  - rewrite hash_set_keys; [assumption|]. eapply hash_get_key; eassumption.
  - apply hash_set_lengths; assumption.
Qed.

Lemma holders_increment st t h' x :
  (forall y, holders (hashes st) y <= counter st y) ->
  holders (hash_set (hashes st) t h') x <= increment (counter st) h' x.
Proof.
  intros H. rewrite increment_spec.
  pose proof (holders_rehash (hashes st) t h' x). specialize (H x). lia.
Qed.

Lemma forward_step_base st t st' :
  base st -> forward_step md5 jsonpickle_dumps f st t = Ok st' -> base st'.
Proof.
  intros Hb H. unfold forward_step in H.
  apply rbind_ok in H. destruct H as (h & Hg & H).
  destruct (Nat.eqb (counter st h) 1).
  - injection H as <-. apply base_finalize; assumption.
  - apply rbind_ok in H. destruct H as (es & _ & H).
    apply rbind_ok in H. destruct H as (ehs & _ & H). injection H as <-.
    apply base_rehash with (h := h);
      [assumption | assumption | apply md5_length |].
    intros x. apply holders_increment. apply Hb.
Qed.

Lemma backward_step_base st t st' :
  base st ->
  backward_step md5 jsonpickle_dumps str_of_tuple f st t = Ok st' -> base st'.
Proof.
  intros Hb H. unfold backward_step in H.
  apply rbind_ok in H. destruct H as (h & Hg & H).
  destruct (Nat.eqb (counter st h) 1).
  - injection H as <-. apply base_finalize; assumption.
  - apply rbind_ok in H. destruct H as (es & _ & H).
    apply rbind_ok in H. destruct H as (ehs & _ & H). injection H as <-.
    apply base_rehash with (h := h);
      [assumption | assumption | apply md5_length |].
    intros x. apply holders_increment. apply Hb.
Qed.

Lemma rfold_base (step : fingerprint_state -> Task -> result fingerprint_state) :
  (forall st t st', base st -> step st t = Ok st' -> base st') ->
  forall ts st st', base st -> rfold step ts st = Ok st' -> base st'.
Proof.
  intros Hstep. induction ts as [|t ts IH]; simpl; intros st st' Hb H.
  - injection H as <-. assumption.
  - apply rbind_ok in H. destruct H as (st1 & H1 & H2).
    eapply IH; [|eassumption]. eapply Hstep; eassumption.
Qed.

(** The duplicate check, run on the hash [h] that [t] is about to carry:
    when it stops, no hash has more holders than counted, and the hash it
    stops at is counted at most once. *)
Lemma duplicate_check_spec d t : forall fuel h c h' c',
  List.length h = 16 ->
  (forall x, holders (hash_set d t h) x <= c x) ->
  duplicate_check md5 jsonpickle_dumps fuel h c = Some (h', c') ->
  (forall x, holders (hash_set d t h') x <= c' x) /\ c' h' <= 1 /\
  List.length h' = 16.
Proof.
  induction fuel as [|fuel IH]; intros h c h' c' Hl Hq H; simpl in H;
    destruct (Nat.ltb 1 (c h)) eqn:E; try discriminate;
    try (injection H as <- <-; apply Nat.ltb_ge in E; auto).
  apply IH in H; [assumption | apply md5_length |].
  intros x. rewrite increment_spec.
  pose proof (holders_rehash (hash_set d t h) t (md5 h) x) as Hr.
  rewrite hash_set_set in Hr. specialize (Hq x). lia.
Qed.

Local Abbreviation settled := (settled f).

Lemma final_step_settled fuel st done t st' :
  settled st done -> ~ In t done ->
  final_step md5 jsonpickle_dumps str_of_tuple fuel f st t = Some (Ok st') ->
  settled st' (t :: done).
Proof.
  intros (Hb & Hfin & Hdist) Hnew H. unfold final_step in H.
  destruct (hash_get (hashes st) t) as [h|e] eqn:Hg; [|discriminate].
  assert (Hother : forall t0, In t0 done -> t0 <> t).
  { intros t0 H0 ->. tauto. }
  destruct (Nat.eqb (counter st h) 1) eqn:E.
  - injection H as <-. apply Nat.eqb_eq in E.
    assert (Hsole : forall t0, t0 <> t -> hash_get (hashes st) t0 = Ok h -> False).
    { intros t0 Hne G. pose proof (two_holders _ _ _ _ Hne G Hg) as H2.
      destruct Hb as (_ & B2 & _). specialize (B2 h). lia. }
    split; [apply base_finalize; assumption|]. simpl. split.
    + intros t0 [<-|H0].
      * exists h. split; [assumption | apply hash_get_set_same].
      * destruct (Hfin t0 H0) as (h0 & G1 & G2). exists h0.
        split; [assumption|]. rewrite hash_get_set_other; auto.
    + intros t1 t2 x [<-|H1] [<-|H2] Hne G1 G2; try congruence.
      * rewrite Hg in G1. injection G1 as <-. eapply (Hsole t2); eauto.
      * rewrite Hg in G2. injection G2 as <-. eapply (Hsole t1); eauto.
      * eapply Hdist; eauto.
  - destruct (rbind (edges_to f t) _) as [ehs|e]; [|discriminate].
    set (h1 := get_hash md5 jsonpickle_dumps (Hash_str (str_of_tuple h ehs))) in *.
    destruct (duplicate_check md5 jsonpickle_dumps fuel h1
                (increment (counter st) h1)) as [[h2 c]|] eqn:Ed;
      [|discriminate].
    injection H as <-.
    destruct (duplicate_check_spec (hashes st) t fuel h1
                (increment (counter st) h1) h2 c) as (Q & Hc & Hl);
      [apply md5_length | intros x; apply holders_increment; apply Hb
       | exact Ed |].
    assert (Hsole : forall t0, t0 <> t ->
              hash_get (hash_set (hashes st) t h2) t0 = Ok h2 -> False).
    { intros t0 Hne G.
      pose proof (two_holders _ _ _ _ Hne G (hash_get_set_same _ _ _)) as H2.
      specialize (Q h2). lia. }
    split.
    { apply (base_finalize
               (mkState (hash_set (hashes st) t h2) c (final_hashes st)) t h2);
        [apply base_rehash with (h := h); assumption
        | apply hash_get_set_same]. }
    simpl. split.
    + intros t0 [<-|H0].
      * exists h2. split; apply hash_get_set_same.
      * destruct (Hfin t0 H0) as (h0 & G1 & G2). exists h0.
        rewrite !hash_get_set_other; auto.
    + intros t1 t2 x [<-|H1] [<-|H2] Hne G1 G2; try congruence.
      * rewrite hash_get_set_same in G1. injection G1 as <-.
        eapply (Hsole t2); eauto.
      * rewrite hash_get_set_same in G2. injection G2 as <-.
        eapply (Hsole t1); eauto.
      * rewrite hash_get_set_other in G1, G2; auto. eapply Hdist; eauto.
Qed.

Lemma final_pass_settled fuel : forall ts st done st',
  NoDup ts -> (forall t, In t ts -> ~ In t done) ->
  settled st done ->
  final_pass md5 jsonpickle_dumps str_of_tuple fuel f ts st = Some (Ok st') ->
  settled st' (rev ts ++ done).
Proof.
  induction ts as [|t ts IH]; simpl; intros st done st' Hnd Hnew Hs H.
  - injection H as <-. assumption.
  - inversion Hnd as [|? ? Hn Hnd']; subst.
    destruct (final_step md5 jsonpickle_dumps str_of_tuple fuel f st t)
      as [[st1|e]|] eqn:E; try discriminate.
    rewrite <- app_assoc. simpl. apply IH with (st := st1); auto.
    + intros t' Ht' [<-|Hd]; [tauto|]. eapply Hnew; eauto.
    + eapply final_step_settled; eauto.
Qed.

(** The seeding keeps the keys and turns each hash into the UUID string of
    its [xor] with the seed. *)
Lemma seed_ids_spec seed : forall final acc ids,
  rfold (fun acc th =>
           (s <- uuid_of_bytes (xor seed (snd th)) ;;
            Ok (acc ++ [(fst th, s)]))%result) final acc = Ok ids ->
  exists ids', ids = acc ++ ids' /\
    Forall2 (fun (th : Task * list byte) (ts : Task * string) =>
               fst ts = fst th /\
               uuid_of_bytes (xor seed (snd th)) = Ok (snd ts)) final ids'.
Proof.
  induction final as [|th final IH]; simpl; intros acc ids H.
  - injection H as <-. exists []. rewrite app_nil_r. auto.
  - apply rbind_ok in H. destruct H as (acc1 & H1 & H2).
    apply rbind_ok in H1. destruct H1 as (s & Hs & [= <-]).
    apply IH in H2. destruct H2 as (ids' & -> & HF).
    exists ((fst th, s) :: ids'). rewrite <- app_assoc. split; [reflexivity|].
    constructor; auto.
Qed.

Lemma seeded_values_distinct seed final ids :
  List.length seed = 16 ->
  Forall (fun p : Task * list byte => List.length (snd p) = 16) final ->
  NoDup (map snd final) ->
  Forall2 (fun (th : Task * list byte) (ts : Task * string) =>
             fst ts = fst th /\
             uuid_of_bytes (xor seed (snd th)) = Ok (snd ts)) final ids ->
  map fst ids = map fst final /\ NoDup (map snd ids).
Proof.
  intros Hseed Hlen Hnd HF.
  induction HF as [|th ts final ids [Hk Hu] HF IH]; simpl.
  - split; [reflexivity | constructor].
  - inversion Hlen as [|? ? Hl Hlen']; subst.
    inversion Hnd as [|? ? Hn Hnd']; subst.
    destruct (IH Hlen' Hnd') as [IH1 IH2]. split; [congruence|].
    constructor; [|assumption]. intros Hin. apply Hn.
    apply in_map_iff in Hin. destruct Hin as (ts' & E & Hin').
    clear - Hseed Hlen' Hl Hu HF Hin' E.
    induction HF as [|th0 ts0 final ids [Hk0 Hu0] HF IH]; [destruct Hin'|].
    inversion Hlen' as [|? ? Hl0 Hlen0]; subst.
    destruct Hin' as [->|Hin'].
    + left. rewrite E in Hu0.
      pose proof (uuid_of_bytes_inj _ _ _ Hu0 Hu) as Hx.
      apply xor_inj in Hx; auto.
    + right. apply IH; assumption.
Qed.

(** Whenever [generate_task_ids] returns on a flow of the data model, it
    returns one ID for each task, and no ID twice: the forced rehash of
    forward pass #2 stops only at a hash that no other task carries. *)
Lemma generate_task_ids_distinct fuel ids :
  well_formed f ->
  generate_task_ids md5 jsonpickle_dumps str_of_tuple fuel f = Some (Ok ids) ->
  Permutation (map fst ids) (tasks f) /\ NoDup (map snd ids).
Proof.
  intros Hwf H. unfold generate_task_ids in H. cbv zeta in H.
  set (hs0 := map (fun t => (t, get_hash md5 jsonpickle_dumps (Hash_task t)))
                  (tasks f)) in H.
  set (st0 := mkState hs0 (Counter_of (map snd hs0)) []) in H.
  destruct (sorted_tasks f None) as [order|e] eqn:Eo; [|discriminate].
  cbn [rbind] in H.
  destruct (rfold (forward_step md5 jsonpickle_dumps f) order st0)
    as [st1|e] eqn:E1; [|discriminate].
  cbn [rbind] in H.
  destruct (rfold (backward_step md5 jsonpickle_dumps str_of_tuple f)
              (rev order) st1) as [st2|e] eqn:E2; [|discriminate].
  cbn [rbind] in H.
  destruct (final_pass md5 jsonpickle_dumps str_of_tuple fuel f order st2)
    as [[st3|e]|] eqn:E3; try discriminate.
  injection H as H. apply rbind_ok in H. destruct H as (flow_id & _ & H).
  apply rbind_ok in H. destruct H as (seed & Hseed & H).
  apply bytes_of_uuid_length in Hseed.
  destruct (sorted_tasks_permutation f order Hwf Eo) as (Hnd & Hperm).
  assert (B0 : base st0).
  { unfold passes_invariant, st0, hs0. simpl. repeat split.
    - rewrite map_map. simpl. apply map_id.
    - intros x. unfold holders, Counter_of. lia.
    - apply Forall_forall. intros p Hp. apply in_map_iff in Hp.
      destruct Hp as (t & <- & _). apply md5_length.
    - constructor.
    - intros t []. }
  assert (B1 : base st1).
  { eapply (rfold_base (forward_step md5 jsonpickle_dumps f));
      [intros; eapply forward_step_base; eassumption | exact B0 | exact E1]. }
  assert (B2 : base st2).
  { eapply (rfold_base (backward_step md5 jsonpickle_dumps str_of_tuple f));
      [intros; eapply backward_step_base; eassumption | exact B1 | exact E2]. }
  assert (S2 : settled st2 []).
  { split; [exact B2|]. split; [intros t [] | intros t1 t2 h []]. }
  pose proof (final_pass_settled fuel order st2 [] st3 Hnd
                (fun t _ H => H) S2 E3) as (B3 & Hfin & Hdist).
  rewrite app_nil_r in Hfin, Hdist.
  destruct B3 as (K1 & K2 & K3 & K4 & K5).
  assert (Hdone : forall t, In t (tasks f) -> In t (rev order)).
  { intros t Ht. apply in_rev. rewrite rev_involutive.
    eapply Permutation_in; [symmetry; eassumption | assumption]. }
  assert (Hsame : forall t h, hash_get (final_hashes st3) t = Ok h ->
                              hash_get (hashes st3) t = Ok h).
  { intros t h G.
    destruct (Hfin t) as (h' & G1 & G2).
    - apply Hdone, K5. eapply hash_get_key; eassumption.
    - congruence. }
  assert (Hkeys : Permutation (map fst (final_hashes st3)) (tasks f)).
  { apply NoDup_Permutation; [assumption | apply Hwf |].
    intros t. split; [apply K5|]. intros Ht.
    destruct (Hfin t (Hdone t Ht)) as (h & _ & G).
    eapply hash_get_key; eassumption. }
  assert (Hvals : NoDup (map snd (final_hashes st3))).
  { apply distinct_values; [assumption|]. intros t1 t2 h Hne G1 G2.
    apply (Hdist t1 t2 h); auto; apply Hdone, K5;
      eapply hash_get_key; eassumption. }
  assert (Hlens : Forall (fun p : Task * list byte => List.length (snd p) = 16)
                         (final_hashes st3)).
  { apply Forall_forall. intros [t h] Hp.
    apply hash_get_of_in in Hp; [|assumption]. apply Hsame, hash_get_in in Hp.
    rewrite Forall_forall in K3. apply (K3 _ Hp). }
  unfold seed_ids in H. apply seed_ids_spec in H.
  destruct H as (ids' & -> & HF). simpl.
  destruct (seeded_values_distinct seed _ _ Hseed Hlens Hvals HF) as [E Hn].
  split; [rewrite E; assumption | assumption].
Qed.
End Uniqueness.

Lemma bytes_succ_length b : List.length (bytes_succ b) = List.length b.
Proof.
  induction b as [|x b IH]; simpl; [reflexivity|].
  destruct (Byte.eqb x xff); simpl; congruence.
Qed.

Lemma counting16_length b : List.length (counting16 b) = 16.
Proof. unfold counting16. rewrite bytes_succ_length. apply padded16_length. Qed.

(** On [etl_symmetric], with the counting digest, ten rounds of the
    duplicate check are enough: the twins get different IDs. *)
Lemma generate_task_ids_symmetric :
  exists ids,
    generate_task_ids counting16 dumps_example str_example 10 etl_symmetric
    = Some (Ok ids) /\
    map fst ids = [extract; transform; transform_twin] /\
    NoDup (map snd ids).
Proof.
  destruct (generate_task_ids counting16 dumps_example str_example 10
              etl_symmetric) as [[ids|e]|] eqn:E;
    try (vm_compute in E; discriminate).
  exists ids. split; [reflexivity|]. split.
  - vm_compute in E. injection E as <-. reflexivity.
  - eapply (generate_task_ids_distinct counting16 dumps_example str_example
              counting16_length etl_symmetric 10 ids);
      [apply well_formedb_sound; reflexivity | exact E].
Qed.

(** * Further properties *)

(** ** What every call of the mutation API keeps *)

Lemma bind_ok A B (m : M A) (k : A -> M B) f b f' :
  bind m k f = (Ok b, f') ->
  exists a f1, m f = (Ok a, f1) /\ k a f1 = (Ok b, f').
Proof.
  unfold bind. destruct (m f) as [[a|e] f1]; [eauto | discriminate].
Qed.

Section Growth.

Lemma grows_ret A (a : A) : grows (ret a).
Proof. intros f a' f' [= <- <-]. split; apply incl_refl. Qed.

Lemma grows_raise A e : grows (@raise A e).
Proof. intros f a f' H. discriminate. Qed.

Lemma grows_query A (q : Flow -> result A) : grows (query q).
Proof.
  intros f a f' H. unfold query in H. injection H as _ <-.
  split; apply incl_refl.
Qed.

Lemma grows_bind A B (m : M A) (k : A -> M B) :
  grows m -> (forall a, grows (k a)) -> grows (bind m k).
Proof.
  intros Hm Hk f b f' H. apply bind_ok in H. destruct H as (a & f1 & H1 & H2).
  destruct (Hm _ _ _ H1) as [T1 E1]. destruct (Hk _ _ _ _ H2) as [T2 E2].
  split; eapply incl_tran; eassumption.
Qed.

Lemma grows_when b (m : M unit) : grows m -> grows (when b m).
Proof. intros Hm. destruct b; [exact Hm | apply grows_ret]. Qed.

Lemma grows_for_each A (xs : list A) (body : A -> M unit) :
  (forall x, grows (body x)) -> grows (for_each xs body).
Proof.
  intros Hb. induction xs as [|x xs IH]; simpl.
  - apply grows_ret.
  - apply grows_bind; [apply Hb | intros _; exact IH].
Qed.

Lemma grows_restore A (v : bool) (body : M A) :
  grows body -> grows (restore_graph_on_error v body).
Proof.
  intros Hb f a f' H. apply restore_graph_on_error_ok in H.
  destruct H as [H _]. eapply Hb; eassumption.
Qed.

Lemma grows_add_task task : grows (add_task task).
Proof.
  intros f a f' H.
  destruct (add_task_cases task f) as [[e He] | (t & _ & Ho)];
    rewrite H in *; [discriminate|].
  assert (E : f' = mkFlow (name f) (version f)
                          (set_add Task_eq_dec t (tasks f)) (edges f))
    by congruence.
  subst f'. simpl. split; [|apply incl_refl].
  intros x Hx. apply in_set_add. auto.
Qed.

Lemma grows_add_edge u d k v : grows (add_edge u d k v).
Proof.
  intros f a f' H.
  destruct (add_edge_cases u d k v f) as [(e & f0 & He & _) | [Ho _]];
    rewrite H in *; [discriminate|].
  assert (E : f' = mkFlow (name f) (version f)
                (set_add Task_eq_dec (resolve d)
                   (set_add Task_eq_dec (resolve u) (tasks f)))
                (set_add Edge_eq_dec (mkEdge (resolve u) (resolve d) k)
                   (edges f)))
    by congruence.
  subst f'. simpl.
  split; intros x Hx; rewrite ?in_set_add; auto.
Qed.

Lemma grows_update flow v : grows (update flow v).
Proof.
  unfold update. apply grows_restore.
  apply grows_bind; [|intros _]; apply grows_for_each; intros x;
    (apply grows_bind; [intros f a f' [= _ <-]; split; apply incl_refl
                       | intros ts]);
    apply grows_when; [apply grows_add_task | apply grows_add_edge].
Qed.

Lemma grows_add_task_results trs v : grows (add_task_results trs v).
Proof.
  unfold add_task_results. apply grows_restore, grows_for_each. intros t.
  apply grows_bind; [apply grows_add_task | intros _; apply grows_update].
Qed.

Variable as_task_result : task_like -> result TaskResult.

Lemma grows_set_dependencies_block (us ds : list task_like)
    (ks : list (string * task_like)) (task' : Task) :
  grows
    (for_each us
       (fun t0 =>
          tr <- query (fun _ => as_task_result t0) ;;
          add_task_results [tr] true ;;
          add_edge (IsTaskResult tr) (IsTask task') None false) ;;
     for_each ds
       (fun t0 =>
          tr <- query (fun _ => as_task_result t0) ;;
          add_task_results [tr] true ;;
          add_edge (IsTask task') (IsTaskResult tr) None false) ;;
     for_each ks
       (fun kt =>
          tr <- query (fun _ => as_task_result (snd kt)) ;;
          add_task_results [tr] true ;;
          add_edge (IsTaskResult tr) (IsTask task') (Some (fst kt)) false) ;;
     ret task')%flow.
Proof.
  repeat (apply grows_bind;
          [apply grows_for_each; intros x;
           apply grows_bind; [apply grows_query | intros tr];
           apply grows_bind; [apply grows_add_task_results | intros _];
           apply grows_add_edge
          | intros _]).
  apply grows_ret.
Qed.

Lemma grows_set_dependencies t us ds ks v :
  grows (set_dependencies as_task_result t us ds ks v).
Proof.
  unfold set_dependencies.
  apply grows_bind;
    [|intros task' f a f' [= _ <-]; split; apply incl_refl].
  apply grows_restore.
  apply grows_bind; [apply grows_query | intros r].
  apply grows_bind.
  { destruct (has_varargs _); [apply grows_raise | apply grows_ret]. }
  intros _. apply grows_bind; [apply grows_add_task_results | intros _].
  apply grows_set_dependencies_block.
Qed.

Lemma grows_run_call c : grows (run_call as_task_result c).
Proof.
  destruct c; simpl.
  - apply grows_add_task.
  - apply grows_add_edge.
  - apply grows_update.
  - apply grows_add_task_results.
  - apply grows_bind; [apply grows_set_dependencies | intros _; apply grows_ret].
Qed.
End Growth.

Section Identity.

Lemma keeps_identity_ret A (a : A) : keeps_identity (ret a).
Proof. intros f. auto. Qed.

Lemma keeps_identity_raise A e : keeps_identity (@raise A e).
Proof. intros f. auto. Qed.

Lemma keeps_identity_query A (q : Flow -> result A) : keeps_identity (query q).
Proof. intros f. auto. Qed.

Lemma keeps_identity_bind A B (m : M A) (k : A -> M B) :
  keeps_identity m -> (forall a, keeps_identity (k a)) ->
  keeps_identity (bind m k).
Proof.
  intros Hm Hk f. unfold bind. specialize (Hm f).
  destruct (m f) as [[a|e] f1]; simpl in *; [|assumption].
  destruct (Hk a f1) as [K1 K2]. destruct Hm. split; congruence.
Qed.

Lemma keeps_identity_when b (m : M unit) :
  keeps_identity m -> keeps_identity (when b m).
Proof. intros Hm. destruct b; [exact Hm | apply keeps_identity_ret]. Qed.

Lemma keeps_identity_for_each A (xs : list A) (body : A -> M unit) :
  (forall x, keeps_identity (body x)) -> keeps_identity (for_each xs body).
Proof.
  intros Hb. induction xs as [|x xs IH]; simpl.
  - apply keeps_identity_ret.
  - apply keeps_identity_bind; [apply Hb | intros _; exact IH].
Qed.

Lemma keeps_identity_restore A (v : bool) (body : M A) :
  keeps_identity body -> keeps_identity (restore_graph_on_error v body).
Proof.
  intros Hb f. specialize (Hb f). unfold restore_graph_on_error.
  destruct (body f) as [[a|e] f1]; simpl in *; [|assumption].
  destruct v; [|assumption]. destruct (validate f1); assumption.
Qed.

Lemma keeps_identity_add_task task : keeps_identity (add_task task).
Proof.
  intros f.
  destruct (add_task_cases task f) as [[e ->] | (t & _ & ->)]; simpl; auto.
Qed.

Lemma keeps_identity_add_edge u d k v : keeps_identity (add_edge u d k v).
Proof.
  unfold add_edge. destruct (is_parameter (resolve d));
    [apply keeps_identity_raise|].
  apply keeps_identity_bind.
  { intros f. rewrite check_duplicate_key_state. auto. }
  intros _. apply keeps_identity_restore. unfold add_edge_block.
  apply keeps_identity_bind; [intros f; simpl; auto | intros ts].
  apply keeps_identity_bind;
    [apply keeps_identity_when, keeps_identity_add_task | intros _].
  apply keeps_identity_bind; [intros f; simpl; auto | intros ts'].
  apply keeps_identity_bind;
    [apply keeps_identity_when, keeps_identity_add_task | intros _].
  apply keeps_identity_bind; [intros f; simpl; auto | intros _].
  destruct k; [|apply keeps_identity_ret].
  apply keeps_identity_bind; [apply keeps_identity_query | intros es].
  apply keeps_identity_query.
Qed.

Lemma keeps_identity_update flow v : keeps_identity (update flow v).
Proof.
  unfold update. apply keeps_identity_restore.
  apply keeps_identity_bind; [|intros _]; apply keeps_identity_for_each;
    intros x; (apply keeps_identity_bind; [intros f; simpl; auto | intros ts]);
    apply keeps_identity_when;
    [apply keeps_identity_add_task | apply keeps_identity_add_edge].
Qed.

Lemma keeps_identity_add_task_results trs v :
  keeps_identity (add_task_results trs v).
Proof.
  unfold add_task_results.
  apply keeps_identity_restore, keeps_identity_for_each. intros t.
  apply keeps_identity_bind;
    [apply keeps_identity_add_task | intros _; apply keeps_identity_update].
Qed.

Variable as_task_result : task_like -> result TaskResult.

Lemma keeps_identity_set_dependencies t us ds ks v :
  keeps_identity (set_dependencies as_task_result t us ds ks v).
Proof.
  unfold set_dependencies.
  apply keeps_identity_bind; [|intros task' f; simpl; auto].
  apply keeps_identity_restore.
  apply keeps_identity_bind; [apply keeps_identity_query | intros r].
  apply keeps_identity_bind.
  { destruct (has_varargs _);
      [apply keeps_identity_raise | apply keeps_identity_ret]. }
  intros _.
  apply keeps_identity_bind; [apply keeps_identity_add_task_results | intros _].
  repeat (apply keeps_identity_bind;
          [apply keeps_identity_for_each; intros x;
           apply keeps_identity_bind; [apply keeps_identity_query | intros tr];
           apply keeps_identity_bind;
             [apply keeps_identity_add_task_results | intros _];
           apply keeps_identity_add_edge
          | intros _]).
  apply keeps_identity_ret.
Qed.

Lemma keeps_identity_run_call c : keeps_identity (run_call as_task_result c).
Proof.
  destruct c; simpl.
  - apply keeps_identity_add_task.
  - apply keeps_identity_add_edge.
  - apply keeps_identity_update.
  - apply keeps_identity_add_task_results.
  - apply keeps_identity_bind;
      [apply keeps_identity_set_dependencies
      | intros _; apply keeps_identity_ret].
Qed.
End Identity.

(** A flow of the data model on which [validate] returns has no cycle. *)
Lemma validate_ok_acyclic f :
  well_formed f -> validate f = Ok tt -> ~ has_cycle f (tasks f).
Proof.
  intros [Hnd Hc] H Hcyc. unfold validate, sorted_tasks in H. simpl in H.
  destruct (sort_working_set f (tasks f)) as [(l & E & _ & _ & Hn) | (E & _)];
    try assumption; try apply incl_refl;
    try (intros e He; apply Hc; assumption).
  - tauto.
  - rewrite E in H. discriminate.
Qed.

(** A flow of the data model on which [validate] raises the cycle error has
    a cycle, and conversely. *)
Lemma validate_cyclic f :
  well_formed f -> has_cycle f (tasks f) -> validate f = Raise ValueError_cyclic.
Proof.
  intros [Hnd Hc] Hcyc. unfold validate, sorted_tasks. simpl.
  destruct (sort_working_set f (tasks f)) as [(l & E & _ & _ & Hn) | (E & _)];
    try assumption; try apply incl_refl;
    try (intros e He; apply Hc; assumption).
  - tauto.
  - rewrite E. reflexivity.
Qed.

Lemma reachable_etl : reachable wrap_task etl.
Proof.
  apply (reachable_init wrap_task (Some "etl") (Some "1")
           [ATask extract; ATask transform; ATask load]
           [mkEdge extract transform (Some "data"); mkEdge transform load None]).
  reflexivity.
Qed.

(** X1: in every flow obtained through the constructor and the mutation
    API, whether the calls returned or raised, the task set has no repeated
    task and both endpoints of every edge are tasks of the flow. *)
Theorem reachable_well_formed
    (as_task_result : task_like -> result TaskResult) (f : Flow) :
  reachable as_task_result f -> well_formed f.
Proof. intros H. apply (reachable_invariant as_task_result f H). Qed.

Lemma reachable_well_formed_witness :
  reachable wrap_task etl /\ well_formed etl.
Proof.
  split; [exact reachable_etl|].
  exact (reachable_well_formed wrap_task etl reachable_etl).
Defined.

(** X2: a call of the mutation API that returns has removed nothing: every
    task and every edge of the flow before the call is still there. *)
Theorem successful_call_only_adds
    (as_task_result : task_like -> result TaskResult) (c : call) (f f' : Flow) :
  run_call as_task_result c f = (Ok tt, f') ->
  incl (tasks f) (tasks f') /\ incl (edges f) (edges f').
Proof. intros H. exact (grows_run_call as_task_result c f tt f' H). Qed.

Lemma successful_call_only_adds_witness :
  exists f',
    run_call wrap_task (Call_add_edge (IsTask extract) (IsTask load) None true)
             etl = (Ok tt, f') /\
    incl (tasks etl) (tasks f') /\ incl (edges etl) (edges f').
Proof.
  eexists. split; [reflexivity|].
  apply (successful_call_only_adds wrap_task
           (Call_add_edge (IsTask extract) (IsTask load) None true) etl).
  reflexivity.
Defined.

(** X3: no call of the mutation API, returning or raising, changes the name
    or the version of the flow; the flow ID is therefore the same before and
    after any change of the graph. *)
Theorem call_keeps_flow_id
    (as_task_result : task_like -> result TaskResult)
    (md5 : list byte -> list byte) (jsonpickle_dumps : pickled -> string)
    (c : call) (f : Flow) :
  name (snd (run_call as_task_result c f)) = name f /\
  version (snd (run_call as_task_result c f)) = version f /\
  generate_flow_id md5 jsonpickle_dumps (snd (run_call as_task_result c f))
  = generate_flow_id md5 jsonpickle_dumps f.
Proof.
  destruct (keeps_identity_run_call as_task_result c f) as [Hn Hv].
  split; [assumption|]. split; [assumption|].
  unfold generate_flow_id. rewrite Hn, Hv. reflexivity.
Qed.

(** X4: when a call that validates returns on a flow obtained through the
    API, the flow it leaves passes [validate] and has no cycle. *)
Theorem validating_call_leaves_acyclic
    (as_task_result : task_like -> result TaskResult) (c : call) (f f' : Flow) :
  reachable as_task_result f ->
  validating c = true ->
  run_call as_task_result c f = (Ok tt, f') ->
  validate f' = Ok tt /\ ~ has_cycle f' (tasks f').
Proof.
  intros Hr Hv H.
  assert (Hwf : well_formed f').
  { apply (reachable_invariant as_task_result).
    replace f' with (snd (run_call as_task_result c f)) by (rewrite H; reflexivity).
    apply reachable_call. assumption. }
  assert (Hval : validate f' = Ok tt).
  { destruct c; simpl in Hv, H; try discriminate; subst.
    - unfold add_edge in H.
      destruct (is_parameter (resolve downstream)); [discriminate|].
      apply bind_ok in H. destruct H as ([] & f1 & H1 & H2).
      apply restore_graph_on_error_ok in H2. apply H2. reflexivity.
    - apply restore_graph_on_error_ok in H. apply H. reflexivity.
    - apply restore_graph_on_error_ok in H. apply H. reflexivity.
    - apply bind_ok in H. destruct H as (r & f1 & H1 & [= <-]).
      unfold set_dependencies in H1. apply bind_ok in H1.
      destruct H1 as (task' & f2 & H1 & [= _ <-]).
      apply restore_graph_on_error_ok in H1. apply H1. reflexivity. }
  split; [assumption | apply validate_ok_acyclic; assumption].
Qed.

Lemma validating_call_leaves_acyclic_witness :
  exists f',
    reachable wrap_task etl /\
    run_call wrap_task (Call_add_edge (IsTask extract) (IsTask load) None true)
             etl = (Ok tt, f') /\
    validate f' = Ok tt /\ ~ has_cycle f' (tasks f').
Proof.
  eexists. split; [exact reachable_etl|]. split; [reflexivity|].
  apply (validating_call_leaves_acyclic wrap_task
           (Call_add_edge (IsTask extract) (IsTask load) None true) etl);
    [exact reachable_etl | reflexivity | reflexivity].
Defined.

(** ** Edges that are refused, edges that change nothing *)

(** The block of [add_edge] between two tasks of the flow, without a key:
    it inserts the edge and nothing else. *)
Lemma add_edge_block_present u d f :
  In u (tasks f) -> In d (tasks f) ->
  add_edge_block u d None f
  = (Ok tt, mkFlow (name f) (version f) (tasks f)
                   (set_add Edge_eq_dec (mkEdge u d None) (edges f))).
Proof.
  intros Hu Hd. unfold add_edge_block, bind, get_tasks.
  apply (mem_true_iff _ Task_eq_dec) in Hu.
  apply (mem_true_iff _ Task_eq_dec) in Hd.
  rewrite Hu. simpl. rewrite Hd. reflexivity.
Qed.

Lemma well_formed_insert_edge f e :
  well_formed f ->
  In (upstream_task e) (tasks f) -> In (downstream_task e) (tasks f) ->
  well_formed (mkFlow (name f) (version f) (tasks f)
                      (set_add Edge_eq_dec e (edges f))).
Proof.
  intros [Hnd Hc] Hu Hd. split; [assumption|].
  intros e' He'. simpl in *. apply in_set_add in He'.
  destruct He' as [->|He']; [auto | apply Hc; assumption].
Qed.

Lemma clos_trans_then_rt (A : Type) (R : relation A) x y z :
  clos_trans A R x y -> clos_refl_trans A R y z -> clos_trans A R x z.
Proof.
  intros Hxy Hyz. apply clos_rt_rtn1 in Hyz.
  induction Hyz as [|y' z' Hstep _ IH]; [assumption|].
  eapply t_trans; [exact IH | apply t_step; exact Hstep].
Qed.

Lemma clos_rt_lift (A : Type) (R S : relation A) :
  (forall x y, R x y -> S x y) ->
  forall x y, clos_refl_trans A R x y -> clos_refl_trans A S x y.
Proof.
  intros H x y Hxy. induction Hxy as [x y' Hr | x | x y' z' _ IH1 _ IH2].
  - apply rt_step, H, Hr.
  - apply rt_refl.
  - eapply rt_trans; eassumption.
Qed.

(** X5: between two tasks of a flow of the data model, a validating
    [add_edge] from [upstream] to [downstream] is refused with the cycle
    error, the flow left as it was, whenever [upstream] is [downstream]
    itself or lies downstream of it: the edge would close a cycle. *)
Theorem add_edge_closing_cycle_refused (f : Flow) (upstream downstream : task_like) :
  well_formed f ->
  In (resolve upstream) (tasks f) -> In (resolve downstream) (tasks f) ->
  is_parameter (resolve downstream) = false ->
  reaches f (resolve downstream) (resolve upstream) ->
  add_edge upstream downstream None true f = (Raise ValueError_cyclic, f).
Proof.
  intros Hwf Hu Hd Hp Hpath.
  set (up := resolve upstream) in *. set (dn := resolve downstream) in *.
  set (f1 := mkFlow (name f) (version f) (tasks f)
                    (set_add Edge_eq_dec (mkEdge up dn None) (edges f))).
  assert (Hwf1 : well_formed f1) by (apply well_formed_insert_edge; assumption).
  assert (Hlift : forall x y, dep f x y -> dep_in f1 (tasks f1) x y).
  { intros x y (e & He & <- & <-). destruct (proj2 Hwf e He) as [Hx Hy].
    split; [|simpl; auto]. exists e. simpl. rewrite in_set_add. auto. }
  assert (Hcyc : has_cycle f1 (tasks f1)).
  { exists up. apply clos_trans_then_rt with (y := dn).
    - apply t_step. split; [|simpl; auto].
      exists (mkEdge up dn None). simpl. rewrite in_set_add. auto.
    - exact (clos_rt_lift _ _ _ Hlift _ _ Hpath). }
  unfold add_edge. fold up. fold dn. rewrite Hp. unfold bind.
  change (check_duplicate_key dn None f)
    with (@pair (result unit) Flow (Ok tt) f).
  cbv beta iota. unfold restore_graph_on_error.
  rewrite (add_edge_block_present up dn f Hu Hd). fold f1.
  rewrite (validate_cyclic f1 Hwf1 Hcyc). simpl. rewrite flow_eta. reflexivity.
Qed.

Lemma add_edge_closing_cycle_refused_witness :
  well_formed etl /\ reaches etl extract load /\
  add_edge (IsTask load) (IsTask extract) None true etl
  = (Raise ValueError_cyclic, etl).
Proof.
  assert (Hwf : well_formed etl) by (apply well_formedb_sound; reflexivity).
  assert (Hpath : reaches etl extract load).
  { apply rt_trans with (y := transform); apply rt_step.
    - exists (mkEdge extract transform (Some "data")). simpl. auto.
    - exists (mkEdge transform load None). simpl. auto. }
  split; [exact Hwf|]. split; [exact Hpath|].
  apply (add_edge_closing_cycle_refused etl (IsTask load) (IsTask extract) Hwf);
    [simpl; auto | simpl; auto | reflexivity | exact Hpath].
Defined.

(** X6: in a flow of the data model, when an edge into [downstream] already
    carries the non-empty key [k], any [add_edge] into [downstream] with the
    key [k] raises the duplicate-key error and leaves the flow as it was,
    from whatever upstream task and whatever [validate] is; this includes
    adding the very same keyed edge a second time. *)
Theorem add_edge_duplicate_key (f : Flow) (e : Edge) (k : string)
    (upstream : task_like) (validate_ : bool) :
  well_formed f ->
  In e (edges f) -> key e = Some k -> k <> "" ->
  is_parameter (downstream_task e) = false ->
  add_edge upstream (IsTask (downstream_task e)) (Some k) validate_ f
  = (Raise (ValueError_duplicate_key k), f).
Proof.
  intros [Hnd Hc] He Hk Hne Hp. unfold add_edge. cbv zeta. cbn [resolve].
  rewrite Hp.
  assert (Ht : truthy (Some k) = true).
  { unfold truthy. apply String.eqb_neq in Hne. rewrite Hne. reflexivity. }
  unfold bind at 1. unfold check_duplicate_key. rewrite Ht.
  unfold bind, query.
  destruct (index_lookup_total downstream_task f (downstream_task e))
    as [es Hes].
  { apply Hc. assumption. }
  { intros e' He'. apply Hc. assumption. }
  unfold edges_to, all_upstream_edges. rewrite Hes.
  assert (Hm : mem option_string_eq_dec (Some k)
                 (set_of option_string_eq_dec (map key es)) = true).
  { apply mem_true_iff. rewrite in_set_of, in_map_iff. exists e.
    split; [assumption|].
    apply (index_lookup_ok downstream_task) in Hes. apply Hes. auto. }
  rewrite Hm. reflexivity.
Qed.

Lemma add_edge_duplicate_key_witness :
  well_formed etl /\
  add_edge (IsTask load) (IsTask transform) (Some "data") false etl
  = (Raise (ValueError_duplicate_key "data"), etl).
Proof.
  assert (Hwf : well_formed etl) by (apply well_formedb_sound; reflexivity).
  split; [exact Hwf|].
  apply (add_edge_duplicate_key etl (mkEdge extract transform (Some "data"))
           "data" (IsTask load) false Hwf);
    [simpl; auto | reflexivity | discriminate | reflexivity].
Defined.

(** X7: adding what is already there changes nothing.  [add_task] on a
    task of the flow returns with the flow as it was, whatever its slug; and
    in a flow of the data model, [add_edge] without a key for an edge of the
    flow returns with the flow as it was, provided that the flow passes the
    cycle check when [validate] is true. *)
Theorem adding_again_changes_nothing (f : Flow) :
  (forall t, In t (tasks f) -> add_task (ATask t) f = (Ok tt, f)) /\
  (forall upstream downstream validate_,
     well_formed f ->
     In (mkEdge (resolve upstream) (resolve downstream) None) (edges f) ->
     is_parameter (resolve downstream) = false ->
     (validate_ = true -> validate f = Ok tt) ->
     add_edge upstream downstream None validate_ f = (Ok tt, f)).
Proof.
  split.
  - intros t Ht. simpl. pose proof Ht as Hm.
    apply (mem_true_iff _ Task_eq_dec) in Hm. rewrite Hm. simpl.
    rewrite (set_add_present _ Task_eq_dec _ _ Ht), flow_eta. reflexivity.
  - intros u d v Hwf He Hp Hv.
    destruct (proj2 Hwf _ He) as [Hu Hd]. simpl in Hu, Hd.
    unfold add_edge. rewrite Hp. unfold bind.
    change (check_duplicate_key (resolve d) None f)
      with (@pair (result unit) Flow (Ok tt) f).
    cbv beta iota. unfold restore_graph_on_error.
    rewrite (add_edge_block_present _ _ f Hu Hd).
    rewrite (set_add_present _ Edge_eq_dec _ _ He), flow_eta.
    destruct v; [rewrite (Hv eq_refl)|]; reflexivity.
Qed.

Lemma adding_again_changes_nothing_witness :
  In transform (tasks etl) /\ add_task (ATask transform) etl = (Ok tt, etl) /\
  well_formed etl /\
  add_edge (IsTask transform) (IsTask load) None true etl = (Ok tt, etl).
Proof.
  assert (Hwf : well_formed etl) by (apply well_formedb_sound; reflexivity).
  assert (Hin : In transform (tasks etl)) by (simpl; auto).
  split; [exact Hin|]. split.
  - exact (proj1 (adding_again_changes_nothing etl) transform Hin).
  - split; [exact Hwf|].
    apply (proj2 (adding_again_changes_nothing etl) (IsTask transform)
             (IsTask load) true Hwf);
      [simpl; auto | reflexivity | intros _; reflexivity].
Defined.

(** ** Merging another flow *)

(** The first loop of [update]. *)
Lemma update_tasks_loop : forall ts f f1,
  for_each ts
    (fun task =>
       ts' <- get_tasks ;;
       when (negb (mem Task_eq_dec task ts')) (add_task (ATask task)))%flow f
  = (Ok tt, f1) ->
  edges f1 = edges f /\
  forall t, In t (tasks f1) <-> In t (tasks f) \/ In t ts.
Proof.
  induction ts as [|x ts IH]; cbn [for_each]; intros f f1 H.
  - injection H as <-. split; [reflexivity | simpl; tauto].
  - apply bind_ok in H. destruct H as ([] & f2 & H1 & H2).
    unfold bind, get_tasks in H1. cbv beta iota in H1.
    destruct (ensure_task_cases x f) as [[e He] | Ho]; [congruence|].
    rewrite Ho in H1. injection H1 as <-.
    destruct (IH _ _ H2) as [E T]. simpl in E, T. split; [assumption|].
    intros t. rewrite T, in_set_add. simpl. intuition congruence.
Qed.

(** The second loop of [update], run on a flow whose edges have their
    endpoints among its tasks. *)
Lemma update_edges_loop : forall es f f',
  edges_closed f ->
  for_each es
    (fun edge =>
       es' <- get_edges ;;
       when (negb (mem Edge_eq_dec edge es'))
            (add_edge (IsTask (upstream_task edge))
                      (IsTask (downstream_task edge)) (key edge) false))%flow f
  = (Ok tt, f') ->
  edges_closed f' /\
  (forall e, In e (edges f') <-> In e (edges f) \/ In e es) /\
  (forall t, In t (tasks f') <->
             In t (tasks f) \/
             exists e, In e es /\ (t = upstream_task e \/ t = downstream_task e)).
Proof.
  induction es as [|x es IH]; cbn [for_each]; intros f f' Hc H.
  - injection H as <-. split; [assumption|].
    split; intros y; [simpl; tauto|]. split; [auto | intros [?|(e & [] & _)]; auto].
  - apply bind_ok in H. destruct H as ([] & f2 & H1 & H2).
    unfold bind, get_edges in H1. cbv beta iota in H1.
    destruct (mem Edge_eq_dec x (edges f)) eqn:Em; simpl in H1.
    + injection H1 as <-. apply mem_true_iff in Em.
      destruct (IH _ _ Hc H2) as (C & E & T). split; [assumption|]. split.
      * intros e. rewrite E. simpl. intuition (subst; auto).
      * intros t. rewrite T. destruct (Hc x Em) as [Hu Hd]. split.
        -- intros [?|(e & He & Ht)]; [auto | right; exists e; simpl; auto].
        -- intros [?|(e & [<-|He] & Ht)];
             [auto | destruct Ht as [->| ->]; auto | right; exists e; auto].
    + destruct (add_edge_cases (IsTask (upstream_task x))
                  (IsTask (downstream_task x)) (key x) false f)
        as [(e0 & f0 & He & _) | [Ho _]]; [congruence|].
      rewrite Ho in H1. injection H1 as <-. simpl resolve in H2.
      assert (Hx : mkEdge (upstream_task x) (downstream_task x) (key x) = x)
        by (destruct x; reflexivity).
      rewrite Hx in H2.
      match type of H2 with
      | for_each _ _ ?g = _ => assert (Hc2 : edges_closed g)
      end.
      { intros e He. simpl in *. apply in_set_add in He.
        rewrite !in_set_add. destruct He as [->|He]; [auto|].
        destruct (Hc e He). auto. }
      destruct (IH _ _ Hc2 H2) as (C & E & T). simpl in E, T.
      split; [assumption|]. split.
      * intros e. rewrite E, in_set_add. simpl. intuition congruence.
      * intros t. rewrite T, !in_set_add. split.
        -- intros [[->|[->|?]]|(e & He & Ht)]; auto;
             right; [exists x | exists x | exists e]; simpl; auto.
        -- intros [?|(e & [<-|He] & Ht)];
             [auto | destruct Ht as [->| ->]; auto | right; exists e; auto].
Qed.

(** X8: when [update] returns on a flow of the data model, with another
    flow whose edges have their endpoints among its tasks, the tasks of the
    flow are its former tasks and the tasks of the other flow, its edges are
    its former edges and the edges of the other flow, and with [validate]
    true the result passes the cycle check. *)
Theorem update_is_union (other : Flow) (validate_ : bool) (f f' : Flow) :
  well_formed f -> edges_closed other ->
  update other validate_ f = (Ok tt, f') ->
  (forall t, In t (tasks f') <-> In t (tasks f) \/ In t (tasks other)) /\
  (forall e, In e (edges f') <-> In e (edges f) \/ In e (edges other)) /\
  (validate_ = true -> validate f' = Ok tt).
Proof.
  intros [Hnd Hc] Ho H. unfold update in H.
  apply restore_graph_on_error_ok in H. destruct H as [H Hv].
  apply bind_ok in H. destruct H as ([] & f1 & H1 & H2).
  apply update_tasks_loop in H1. destruct H1 as [E1 T1].
  assert (Hc1 : edges_closed f1).
  { intros e He. rewrite E1 in He. destruct (Hc e He).
    rewrite !T1. auto. }
  apply update_edges_loop in H2; [|assumption].
  destruct H2 as (_ & E2 & T2). split; [|split; [|assumption]].
  - intros t. rewrite T2, T1. split.
    + intros [[?|?]|(e & He & Ht)]; auto.
      destruct (Ho e He). destruct Ht as [->| ->]; auto.
    + intros [?|?]; auto.
  - intros e. rewrite E2, E1. tauto.
Qed.

Lemma update_is_union_witness :
  exists f',
    well_formed etl /\ edges_closed etl_twins /\
    update etl_twins true etl = (Ok tt, f') /\
    (forall t, In t (tasks f') <-> In t (tasks etl) \/ In t (tasks etl_twins)) /\
    (forall e, In e (edges f') <-> In e (edges etl) \/ In e (edges etl_twins)).
Proof.
  assert (Hwf : well_formed etl) by (apply well_formedb_sound; reflexivity).
  assert (Hc : edges_closed etl_twins).
  { apply (well_formedb_sound etl_twins). reflexivity. }
  eexists. split; [exact Hwf|]. split; [exact Hc|]. split; [reflexivity|].
  split; apply (update_is_union etl_twins true etl _ Hwf Hc eq_refl).
Defined.

(** ** The adjacency index *)

Lemma NoDup_set_of (A : Type) (eq_dec : forall a b : A, {a = b} + {a <> b})
    (xs : list A) : NoDup (set_of eq_dec xs).
Proof. apply NoDup_set_update. constructor. Qed.

Lemma downstream_tasks_ok f t ds :
  downstream_tasks f t = Ok ds -> forall d, In d ds <-> dep f t d.
Proof.
  unfold downstream_tasks. intros H d. apply rbind_ok in H.
  destruct H as (es & He & [= <-]).
  apply (index_lookup_ok upstream_task) in He. destruct He as (_ & _ & He).
  rewrite in_set_of, in_map_iff. split.
  - intros (e & <- & Hin). apply He in Hin. destruct Hin as [Hin Hu].
    exists e. auto.
  - intros (e & Hin & Hu & Hd). exists e. split; [assumption|].
    apply He. auto.
Qed.

Lemma downstream_tasks_total f t :
  In t (tasks f) ->
  (forall e, In e (edges f) -> In (upstream_task e) (tasks f)) ->
  exists ds, downstream_tasks f t = Ok ds.
Proof.
  intros Ht Hc. unfold downstream_tasks, edges_from, all_downstream_edges.
  destruct (index_lookup_total upstream_task f t Ht Hc) as [es ->].
  simpl. eauto.
Qed.

(** X9: in a flow whose edges have their endpoints among its tasks,
    [upstream_tasks] and [downstream_tasks] return for every task of the
    flow, without repetition, and they are two views of the same edges: [u]
    is among the upstream tasks of [t] exactly when [t] is among the
    downstream tasks of [u], exactly when an edge of the flow goes from [u]
    to [t]. *)
Theorem upstream_downstream_dual (f : Flow) (u t : Task) :
  edges_closed f -> In u (tasks f) -> In t (tasks f) ->
  exists ups ds,
    upstream_tasks f t = Ok ups /\ downstream_tasks f u = Ok ds /\
    NoDup ups /\ NoDup ds /\
    (In u ups <-> In t ds) /\
    (In u ups <-> exists e, In e (edges f) /\ upstream_task e = u /\
                            downstream_task e = t).
Proof.
  intros Hc Hu Ht.
  destruct (upstream_tasks_total f t Ht) as [ups Eu];
    [intros e He; apply Hc; assumption|].
  destruct (downstream_tasks_total f u Hu) as [ds Ed];
    [intros e He; apply Hc; assumption|].
  exists ups, ds. split; [assumption|]. split; [assumption|].
  assert (Nu : NoDup ups).
  { unfold upstream_tasks in Eu. apply rbind_ok in Eu.
    destruct Eu as (es & _ & [= <-]). apply NoDup_set_of. }
  assert (Nd : NoDup ds).
  { unfold downstream_tasks in Ed. apply rbind_ok in Ed.
    destruct Ed as (es & _ & [= <-]). apply NoDup_set_of. }
  split; [assumption|]. split; [assumption|].
  rewrite (upstream_tasks_ok f t ups Eu u), (downstream_tasks_ok f u ds Ed t).
  split; reflexivity.
Qed.

Lemma upstream_downstream_dual_witness :
  edges_closed etl /\ In extract (tasks etl) /\ In transform (tasks etl) /\
  exists ups ds,
    upstream_tasks etl transform = Ok ups /\
    downstream_tasks etl extract = Ok ds /\
    NoDup ups /\ NoDup ds /\
    (In extract ups <-> In transform ds) /\
    (In extract ups <-> exists e, In e (edges etl) /\ upstream_task e = extract /\
                            downstream_task e = transform).
Proof.
  assert (Hc : edges_closed etl) by (apply (well_formedb_sound etl); reflexivity).
  assert (Hu : In extract (tasks etl)) by (simpl; auto).
  assert (Ht : In transform (tasks etl)) by (simpl; auto).
  split; [exact Hc|]. split; [exact Hu|]. split; [exact Ht|].
  exact (upstream_downstream_dual etl extract transform Hc Hu Ht).
Defined.

(** ** Root and terminal tasks *)

(** The comprehension [set(t for t in self.tasks if not lookup(t))]. *)
Lemma select_unconnected (look : Task -> result (list Edge)) : forall ts acc,
  (forall t, In t ts -> exists es, look t = Ok es) ->
  NoDup acc ->
  exists rs,
    rfold (fun acc t =>
             (es <- look t ;;
              Ok (match es with [] => set_add Task_eq_dec t acc | _ => acc end))%result)
          ts acc = Ok rs /\
    NoDup rs /\
    forall t, In t rs <-> In t acc \/ (In t ts /\ look t = Ok []).
Proof.
  induction ts as [|x ts IH]; intros acc Hl Hn; simpl.
  - exists acc. split; [reflexivity|]. split; [assumption|]. intros t. tauto.
  - destruct (Hl x (or_introl eq_refl)) as [es Ex]. rewrite Ex. simpl.
    destruct es as [|e es].
    + destruct (IH (set_add Task_eq_dec x acc)) as (rs & E & N & I).
      * intros t Ht. apply Hl. right. assumption.
      * apply NoDup_set_add. assumption.
      * exists rs. split; [assumption|]. split; [assumption|].
        intros t. rewrite I, in_set_add. split.
        -- intros [[->|?]|[? ?]]; auto.
        -- intros [?|[[<-|?] ?]]; auto.
    + destruct (IH acc) as (rs & E & N & I).
      * intros t Ht. apply Hl. right. assumption.
      * assumption.
      * exists rs. split; [assumption|]. split; [assumption|].
        intros t. rewrite I. split.
        -- intros [?|[? ?]]; auto.
        -- intros [?|[[<-|?] ?]]; auto. congruence.
Qed.

Lemma edges_to_nil f t :
  edges_closed f -> In t (tasks f) ->
  (edges_to f t = Ok [] <-> forall u, ~ dep f u t).
Proof.
  intros Hc Ht. split.
  - intros E u (e & He & Hu & Hd).
    apply (index_lookup_ok downstream_task) in E. destruct E as (_ & _ & E).
    apply (E e). auto.
  - intros Hn.
    destruct (index_lookup_total downstream_task f t Ht) as [es E];
      [intros e He; apply Hc; assumption|].
    fold (all_upstream_edges f) in E. fold (edges_to f t) in E.
    rewrite E. destruct es as [|e es]; [reflexivity|]. exfalso.
    apply (index_lookup_ok downstream_task) in E. destruct E as (_ & _ & E).
    destruct (proj1 (E e) (or_introl eq_refl)) as [He Hd].
    apply (Hn (upstream_task e)). exists e. auto.
Qed.

Lemma edges_from_nil f t :
  edges_closed f -> In t (tasks f) ->
  (edges_from f t = Ok [] <-> forall d, ~ dep f t d).
Proof.
  intros Hc Ht. split.
  - intros E d (e & He & Hu & Hd).
    apply (index_lookup_ok upstream_task) in E. destruct E as (_ & _ & E).
    apply (E e). auto.
  - intros Hn.
    destruct (index_lookup_total upstream_task f t Ht) as [es E];
      [intros e He; apply Hc; assumption|].
    fold (all_downstream_edges f) in E. fold (edges_from f t) in E.
    rewrite E. destruct es as [|e es]; [reflexivity|]. exfalso.
    apply (index_lookup_ok upstream_task) in E. destruct E as (_ & _ & E).
    destruct (proj1 (E e) (or_introl eq_refl)) as [He Hd].
    apply (Hn (downstream_task e)). exists e. auto.
Qed.

Lemma upstream_or_none f t :
  edges_closed f -> In t (tasks f) ->
  (exists u, dep f u t) \/ forall u, ~ dep f u t.
Proof.
  intros Hc Ht.
  destruct (index_lookup_total downstream_task f t Ht) as [es E];
    [intros e He; apply Hc; assumption|].
  apply (index_lookup_ok downstream_task) in E. destruct E as (_ & _ & E).
  destruct es as [|e es].
  - right. intros u (e & He & Hu & Hd). apply (E e). auto.
  - left. destruct (proj1 (E e) (or_introl eq_refl)) as [He Hd].
    exists (upstream_task e), e. auto.
Qed.

Lemma downstream_or_none f t :
  edges_closed f -> In t (tasks f) ->
  (exists d, dep f t d) \/ forall d, ~ dep f t d.
Proof.
  intros Hc Ht.
  destruct (index_lookup_total upstream_task f t Ht) as [es E];
    [intros e He; apply Hc; assumption|].
  apply (index_lookup_ok upstream_task) in E. destruct E as (_ & _ & E).
  destruct es as [|e es].
  - right. intros u (e & He & Hu & Hd). apply (E e). auto.
  - left. destruct (proj1 (E e) (or_introl eq_refl)) as [He Hd].
    exists (downstream_task e), e. auto.
Qed.

Lemma clos_trans_flip (A : Type) (R : relation A) x y :
  clos_trans A (fun a b => R b a) x y -> clos_trans A R y x.
Proof.
  intros H. induction H as [x y H | x y z _ IH1 _ IH2].
  - apply t_step. assumption.
  - eapply t_trans; eassumption.
Qed.

(** X10: on a flow of the data model [root_tasks] and [terminal_tasks]
    return: the root tasks are the tasks with no incoming edge, the terminal
    tasks are the tasks with no outgoing edge, and a flow that has a task and
    passes [validate] has a root task and a terminal task. *)
Theorem root_and_terminal_tasks (f : Flow) :
  well_formed f ->
  exists rs ts,
    root_tasks f = Ok rs /\ terminal_tasks f = Ok ts /\
    NoDup rs /\ NoDup ts /\
    (forall t, In t rs <-> In t (tasks f) /\ forall u, ~ dep f u t) /\
    (forall t, In t ts <-> In t (tasks f) /\ forall d, ~ dep f t d) /\
    (tasks f <> [] -> validate f = Ok tt -> rs <> [] /\ ts <> []).
Proof.
  intros [Hnd Hc].
  destruct (select_unconnected (edges_to f) (tasks f) [])
    as (rs & Er & Nr & Ir); [|constructor|].
  { intros t Ht. apply (index_lookup_total downstream_task f t Ht).
    intros e He. apply Hc. assumption. }
  destruct (select_unconnected (edges_from f) (tasks f) [])
    as (ts & Et & Nt & It); [|constructor|].
  { intros t Ht. apply (index_lookup_total upstream_task f t Ht).
    intros e He. apply Hc. assumption. }
  exists rs, ts. split; [exact Er|]. split; [exact Et|].
  split; [assumption|]. split; [assumption|].
  assert (Hr : forall t, In t rs <-> In t (tasks f) /\ forall u, ~ dep f u t).
  { intros t. rewrite Ir. simpl. split.
    - intros [[]|[Ht E]]. split; [assumption|].
      apply (edges_to_nil f t Hc Ht). assumption.
    - intros [Ht Hn]. right. split; [assumption|].
      apply (edges_to_nil f t Hc Ht). assumption. }
  assert (Hl : forall t, In t ts <-> In t (tasks f) /\ forall d, ~ dep f t d).
  { intros t. rewrite It. simpl. split.
    - intros [[]|[Ht E]]. split; [assumption|].
      apply (edges_from_nil f t Hc Ht). assumption.
    - intros [Ht Hn]. right. split; [assumption|].
      apply (edges_from_nil f t Hc Ht). assumption. }
  split; [assumption|]. split; [assumption|].
  intros Hne Hv.
  pose proof (validate_ok_acyclic f (conj Hnd Hc) Hv) as Hacyc.
  split; intros ->; apply Hacyc.
  - destruct (predecessor_cycle Task Task_eq_dec (dep_in f (tasks f)) (tasks f) Hne)
      as (t & _ & Ht).
    + intros t Ht.
      destruct (upstream_or_none f t Hc Ht) as [[u Hu]|Hn].
      * exists u. assert (Hd := Hu). destruct Hu as (e & He & <- & <-).
        destruct (Hc e He). unfold dep_in. auto.
      * exfalso. apply (proj2 (Hr t)). auto.
    + exists t. assumption.
  - destruct (predecessor_cycle Task Task_eq_dec
                (fun a b => dep_in f (tasks f) b a) (tasks f) Hne)
      as (t & _ & Ht).
    + intros t Ht.
      destruct (downstream_or_none f t Hc Ht) as [[d Hd]|Hn].
      * exists d. assert (Hd' := Hd). destruct Hd as (e & He & <- & <-).
        destruct (Hc e He). unfold dep_in. auto.
      * exfalso. apply (proj2 (Hl t)). auto.
    + exists t. apply clos_trans_flip. assumption.
Qed.

Lemma root_and_terminal_tasks_witness :
  well_formed etl /\ tasks etl <> [] /\ validate etl = Ok tt /\
  root_tasks etl = Ok [extract] /\ terminal_tasks etl = Ok [load] /\
  exists rs ts,
    root_tasks etl = Ok rs /\ terminal_tasks etl = Ok ts /\
    NoDup rs /\ NoDup ts /\
    (forall t, In t rs <-> In t (tasks etl) /\ forall u, ~ dep etl u t) /\
    (forall t, In t ts <-> In t (tasks etl) /\ forall d, ~ dep etl t d) /\
    rs <> [] /\ ts <> [].
Proof.
  assert (Hwf : well_formed etl) by (apply well_formedb_sound; reflexivity).
  assert (Hne : tasks etl <> []) by discriminate.
  assert (Hv : validate etl = Ok tt) by reflexivity.
  split; [exact Hwf|]. split; [exact Hne|]. split; [exact Hv|].
  split; [reflexivity|]. split; [reflexivity|].
  destruct (root_and_terminal_tasks etl Hwf)
    as (rs & ts & Er & Et & Nr & Nt & Hr & Ht & Hn).
  exists rs, ts. repeat (split; [assumption|]). exact (Hn Hne Hv).
Defined.
(** ** The tasks downstream of given roots *)

Section Closure.
Variable f : Flow.
Variable roots : list Task.
Hypothesis closed : edges_closed f.

Local Abbreviation from_roots := (fun ts : list Task =>
  forall x, In x ts -> exists r, In r roots /\ reaches f r x).
Local Abbreviation covered := (fun ts seen : list Task =>
  forall x d, In x seen -> dep f x d -> In d ts).

Lemma closure_fold_reach : forall l ts seen,
  incl l ts -> incl ts (tasks f) -> from_roots ts -> covered ts seen ->
  exists ts' seen',
    rfold (fun '(ts', seen') t =>
             (ds <- downstream_tasks f t ;;
              Ok (set_update Task_eq_dec ds ts', set_add Task_eq_dec t seen'))%result)
          l (ts, seen) = Ok (ts', seen') /\
    incl ts ts' /\ incl ts' (tasks f) /\ from_roots ts' /\ covered ts' seen'.
Proof.
  induction l as [|t l IH]; intros ts seen Hl Ht Hr Hc; simpl.
  - exists ts, seen. split; [reflexivity|]. split; [apply incl_refl|]. auto.
  - assert (Hin : In t ts) by (apply Hl; left; reflexivity).
    destruct (downstream_tasks_total f t (Ht t Hin)) as [ds Ed];
      [intros e He; apply closed; assumption|].
    rewrite Ed. simpl.
    pose proof (downstream_tasks_ok f t ds Ed) as Hds.
    destruct (IH (set_update Task_eq_dec ds ts) (set_add Task_eq_dec t seen))
      as (ts' & seen' & E & I1 & I2 & I3 & I4).
    + intros x Hx. apply in_set_update. right. apply Hl. right. assumption.
    + intros x Hx. apply in_set_update in Hx. destruct Hx as [Hx|Hx]; [|auto].
      apply Hds in Hx. destruct Hx as (e & He & _ & <-).
      apply closed. assumption.
    + intros x Hx. apply in_set_update in Hx. destruct Hx as [Hx|Hx]; [|auto].
      destruct (Hr t Hin) as (r & Hrr & Hrt). exists r. split; [assumption|].
      eapply rt_trans; [exact Hrt|]. apply rt_step. apply Hds. assumption.
    + intros x d Hx Hd. apply in_set_update. apply in_set_add in Hx.
      destruct Hx as [->|Hx]; [left; apply Hds; assumption|].
      right. eapply Hc; eassumption.
    + exists ts', seen'. split; [assumption|]. split; [|auto].
      intros x Hx. apply I1. apply in_set_update. auto.
Qed.

Lemma closure_loop_reach : forall n ts seen r,
  closure_loop f n ts seen = Some r ->
  incl roots ts -> incl ts (tasks f) -> from_roots ts -> covered ts seen ->
  exists ws, r = Ok ws /\ incl roots ws /\ from_roots ws /\ covered ws ws.
Proof.
  induction n as [|n IH]; intros ts seen r H Hro Ht Hr Hc; simpl in H.
  - destruct (difference ts seen) eqn:Ed; [|discriminate].
    injection H as <-. exists ts. split; [reflexivity|]. split; [assumption|].
    split; [assumption|]. intros x d Hx. apply Hc.
    apply (difference_nil ts seen Ed). assumption.
  - destruct (difference ts seen) eqn:Ed.
    + injection H as <-. exists ts. split; [reflexivity|]. split; [assumption|].
      split; [assumption|]. intros x d Hx. apply Hc.
      apply (difference_nil ts seen Ed). assumption.
    + unfold closure_round in H.
      destruct (closure_fold_reach (difference ts seen) ts seen)
        as (ts' & seen' & E & I1 & I2 & I3 & I4); try assumption.
      { intros x Hx. apply in_difference in Hx. tauto. }
      rewrite E in H. apply (IH ts' seen' r H); try assumption.
      intros x Hx. apply I1, Hro. assumption.
Qed.

Lemma covered_reaches ws :
  covered ws ws -> forall x y, reaches f x y -> In x ws -> In y ws.
Proof.
  intros Hc x y H. induction H as [x y H | x | x y z _ IH1 _ IH2]; auto.
  intros Hx. eapply Hc; eassumption.
Qed.

End Closure.

(** The closure loop of [sorted_tasks], started from roots that are tasks of
    the flow, returns the tasks that the roots reach. *)
Lemma working_tasks_reach f r rs :
  well_formed f -> incl (r :: rs) (tasks f) ->
  exists ws, working_tasks f (Some (r :: rs)) = Ok ws /\
    NoDup ws /\ incl ws (tasks f) /\
    forall t, In t ws <-> exists r0, In r0 (r :: rs) /\ reaches f r0 t.
Proof.
  intros [Hnd Hc] Hin.
  destruct (closure_loop_fuel f (S (List.length (tasks f)))
              (set_of Task_eq_dec (r :: rs)) [])
    as (res & E & Hres).
  { apply NoDup_set_of. }
  { constructor. }
  { intros x []. }
  { simpl. lia. }
  destruct (closure_loop_reach f (r :: rs) Hc _ _ _ _ E)
    as (ws & -> & Hro & Hfr & Hcov).
  { intros x Hx. apply in_set_of. assumption. }
  { intros x Hx. apply in_set_of in Hx. auto. }
  { intros x Hx. apply in_set_of in Hx. exists x. split; [assumption|].
    apply rt_refl. }
  { intros x d []. }
  exists ws. split.
  - unfold working_tasks. rewrite E. reflexivity.
  - destruct (Hres ws eq_refl) as [N I]. split; [assumption|].
    split; [assumption|]. intros t. split; [apply Hfr|].
    intros (r0 & Hr0 & Hreach).
    apply (covered_reaches f ws Hcov r0 t Hreach). apply Hro. assumption.
Qed.

(** X11: given at least one root, all of them tasks of a flow of the data
    model, [sorted_tasks] either raises the cycle error or returns, without
    repetition, exactly the tasks that a root reaches along edges of the flow
    (the roots included); every edge that leaves a returned task has its
    upstream end before its downstream end in the result. *)
Theorem sorted_tasks_from_roots (f : Flow) (r : Task) (rs : list Task) :
  well_formed f -> incl (r :: rs) (tasks f) ->
  sorted_tasks f (Some (r :: rs)) = Raise ValueError_cyclic \/
  exists l,
    sorted_tasks f (Some (r :: rs)) = Ok l /\ NoDup l /\
    (forall t, In t l <-> exists r0, In r0 (r :: rs) /\ reaches f r0 t) /\
    (forall e, In e (edges f) -> In (upstream_task e) l ->
               before (upstream_task e) (downstream_task e) l).
Proof.
  intros Hwf Hin.
  destruct (working_tasks_reach f r rs Hwf Hin) as (ws & E & N & I & R).
  unfold sorted_tasks. rewrite E. simpl rbind.
  destruct Hwf as [Hnd Hc].
  destruct (sort_working_set f ws) as [(l & El & P & B & _) | (El & _)];
    try assumption.
  { intros e He. apply Hc. assumption. }
  - right. exists l. rewrite El. split; [reflexivity|].
    split; [eapply Permutation_NoDup; [apply Permutation_sym; exact P | exact N]|].
    assert (Hl : forall t, In t l <-> In t ws).
    { intros t. split; apply Permutation_in;
        [assumption | apply Permutation_sym; assumption]. }
    split.
    + intros t. rewrite Hl. apply R.
    + intros e He Hu. apply B.
      * exists e. auto.
      * apply Hl. assumption.
      * apply Hl. apply Hl in Hu. apply R in Hu. destruct Hu as (r0 & Hr0 & Hu).
        apply R. exists r0. split; [assumption|].
        eapply rt_trans; [exact Hu|]. apply rt_step. exists e. auto.
  - left. rewrite El. reflexivity.
Qed.

Lemma sorted_tasks_from_roots_witness :
  well_formed etl /\ incl [transform] (tasks etl) /\
  sorted_tasks etl (Some [transform]) = Ok [transform; load] /\
  (sorted_tasks etl (Some [transform]) = Raise ValueError_cyclic \/
   exists l,
     sorted_tasks etl (Some [transform]) = Ok l /\ NoDup l /\
     (forall t, In t l <-> exists r0, In r0 [transform] /\ reaches etl r0 t) /\
     (forall e, In e (edges etl) -> In (upstream_task e) l ->
                before (upstream_task e) (downstream_task e) l)).
Proof.
  assert (Hwf : well_formed etl) by (apply well_formedb_sound; reflexivity).
  assert (Hin : incl [transform] (tasks etl)).
  { intros x [<-|[]]. simpl. auto. }
  split; [exact Hwf|]. split; [exact Hin|]. split; [reflexivity|].
  exact (sorted_tasks_from_roots etl transform [] Hwf Hin).
Defined.

(** *** A root outside the flow *)

Lemma edges_from_outside f t :
  edges_closed f -> ~ In t (tasks f) -> edges_from f t = Raise (KeyError t).
Proof.
  intros Hc Hn. unfold edges_from, all_downstream_edges.
  destruct (index_edges_total upstream_task (edges f)
              (map (fun t => (t, [])) (tasks f))) as [d E].
  { intros e He. rewrite map_fst_empty_index. apply Hc. assumption. }
  rewrite E. simpl.
  apply index_edges_ok in E. destruct E as (Ek & _).
  rewrite map_fst_empty_index in Ek.
  destruct (dict_get d t) as [es|x] eqn:Eg.
  - apply dict_get_ok in Eg. rewrite Ek in Eg. contradiction.
  - apply dict_get_raise in Eg. destruct Eg as [-> _]. reflexivity.
Qed.

Lemma closure_fold_outside f :
  edges_closed f ->
  forall l ts seen,
    (exists x, In x l /\ ~ In x (tasks f)) ->
    exists x, In x l /\ ~ In x (tasks f) /\
      rfold (fun '(ts', seen') t =>
               (ds <- downstream_tasks f t ;;
                Ok (set_update Task_eq_dec ds ts', set_add Task_eq_dec t seen'))%result)
            l (ts, seen) = Raise (KeyError x).
Proof.
  intros Hc. induction l as [|t l IH]; intros ts seen (x & Hx & Hn).
  - destruct Hx.
  - simpl. destruct (in_dec Task_eq_dec t (tasks f)) as [Ht|Ht].
    + destruct (downstream_tasks_total f t Ht) as [ds Ed];
        [intros e He; apply Hc; assumption|].
      rewrite Ed. simpl.
      destruct (IH (set_update Task_eq_dec ds ts) (set_add Task_eq_dec t seen))
        as (y & Hy & Hny & E).
      * exists x. split; [|assumption].
        destruct Hx as [->|Hx]; [contradiction | assumption].
      * exists y. auto.
    + exists t. split; [left; reflexivity|]. split; [assumption|].
      unfold downstream_tasks. rewrite (edges_from_outside f t Hc Ht).
      reflexivity.
Qed.

Lemma difference_nothing_seen ts : difference ts [] = ts.
Proof.
  unfold difference. induction ts as [|t ts IH]; simpl; [reflexivity|].
  f_equal. exact IH.
Qed.

(** X12: in a flow whose edges have their endpoints among its tasks, if
    one of the given roots is not a task of the flow then [sorted_tasks]
    raises [KeyError] for such a root: the closure loop looks every root up
    in the adjacency index. *)
Theorem sorted_tasks_unknown_root (f : Flow) (r : Task) (rs : list Task) :
  edges_closed f ->
  (exists r0, In r0 (r :: rs) /\ ~ In r0 (tasks f)) ->
  exists r0, In r0 (r :: rs) /\ ~ In r0 (tasks f) /\
    sorted_tasks f (Some (r :: rs)) = Raise (KeyError r0).
Proof.
  intros Hc (x & Hx & Hn).
  destruct (closure_fold_outside f Hc (set_of Task_eq_dec (r :: rs))
              (set_of Task_eq_dec (r :: rs)) [])
    as (y & Hy & Hny & E).
  { exists x. split; [apply in_set_of; assumption | assumption]. }
  exists y. split; [apply in_set_of in Hy; assumption|]. split; [assumption|].
  unfold sorted_tasks, working_tasks.
  cbn [closure_loop]. rewrite difference_nothing_seen.
  destruct (set_of Task_eq_dec (r :: rs)) as [|t l] eqn:Es; [destruct Hy|].
  unfold closure_round. rewrite difference_nothing_seen, E. reflexivity.
Qed.

Lemma sorted_tasks_unknown_root_witness :
  edges_closed etl /\
  (exists r0, In r0 [extract; reference] /\ ~ In r0 (tasks etl)) /\
  sorted_tasks etl (Some [extract; reference]) = Raise (KeyError reference) /\
  exists r0, In r0 [extract; reference] /\ ~ In r0 (tasks etl) /\
    sorted_tasks etl (Some [extract; reference]) = Raise (KeyError r0).
Proof.
  assert (Hc : edges_closed etl) by (apply (well_formedb_sound etl); reflexivity).
  assert (Hx : exists r0, In r0 [extract; reference] /\ ~ In r0 (tasks etl)).
  { exists reference. split; [simpl; auto|].
    apply (mem_false_iff _ Task_eq_dec). reflexivity. }
  split; [exact Hc|]. split; [exact Hx|]. split; [reflexivity|].
  exact (sorted_tasks_unknown_root etl extract [reference] Hc Hx).
Defined.

(** ** What [set_dependencies] leaves behind *)

(** What each round of a loop establishes holds when the loop returns, if
    the rounds remove nothing. *)
Lemma for_each_each A (body : A -> M unit) (P : A -> Flow -> Prop) :
  (forall x, grows (body x)) ->
  (forall x f g, incl (tasks f) (tasks g) -> incl (edges f) (edges g) ->
                 P x f -> P x g) ->
  (forall x f f', body x f = (Ok tt, f') -> P x f') ->
  forall xs f f', for_each xs body f = (Ok tt, f') ->
  forall x, In x xs -> P x f'.
Proof.
  intros Hg Hm Hb. induction xs as [|y xs IH]; intros f f' H x Hx.
  - destruct Hx.
  - cbn [for_each] in H. apply bind_ok in H. destruct H as ([] & f1 & H1 & H2).
    destruct Hx as [<-|Hx].
    + destruct (grows_for_each A xs body Hg _ _ _ H2) as [T E].
      apply (Hm y f1 f' T E). apply (Hb y f f1 H1).
    + apply (IH f1 f' H2 x Hx).
Qed.

Lemma add_edge_ok_inserted u d k v f f' :
  add_edge u d k v f = (Ok tt, f') ->
  In (mkEdge (resolve u) (resolve d) k) (edges f').
Proof.
  intros H.
  destruct (add_edge_cases u d k v f) as [(e & f0 & He & _) | [Ho _]];
    rewrite H in *; [discriminate|].
  assert (E : f' = mkFlow (name f) (version f)
                (set_add Task_eq_dec (resolve d)
                   (set_add Task_eq_dec (resolve u) (tasks f)))
                (set_add Edge_eq_dec (mkEdge (resolve u) (resolve d) k)
                   (edges f)))
    by congruence.
  subst f'. simpl. apply in_set_add. auto.
Qed.

Lemma add_task_ok_inserted t f f' :
  add_task (ATask t) f = (Ok tt, f') -> In t (tasks f').
Proof.
  intros H.
  destruct (add_task_cases (ATask t) f) as [[e He] | (t' & [= <-] & Ho)];
    rewrite H in *; [discriminate|].
  assert (E : f' = mkFlow (name f) (version f)
                          (set_add Task_eq_dec t (tasks f)) (edges f))
    by congruence.
  subst f'. simpl. apply in_set_add. auto.
Qed.

(** When [update] returns, the tasks and the edges of the other flow are in
    the flow. *)
Lemma update_ok_includes other v f f' :
  update other v f = (Ok tt, f') ->
  incl (tasks other) (tasks f') /\ incl (edges other) (edges f').
Proof.
  intros H. unfold update in H. apply restore_graph_on_error_ok in H.
  destruct H as [H _]. apply bind_ok in H. destruct H as ([] & f1 & H1 & H2).
  split.
  - intros t Ht. apply update_tasks_loop in H1. destruct H1 as [_ T].
    assert (G : grows
      (for_each (edges other)
         (fun edge =>
            es <- get_edges ;;
            when (negb (mem Edge_eq_dec edge es))
                 (add_edge (IsTask (upstream_task edge))
                           (IsTask (downstream_task edge)) (key edge) false))%flow)).
    { apply grows_for_each. intros x.
      apply grows_bind; [intros g a g' [= _ <-]; split; apply incl_refl
                        | intros es].
      apply grows_when, grows_add_edge. }
    apply (G _ _ _ H2). apply T. auto.
  - intros e He. revert e He.
    apply (for_each_each Edge
             (fun edge =>
                es <- get_edges ;;
                when (negb (mem Edge_eq_dec edge es))
                     (add_edge (IsTask (upstream_task edge))
                               (IsTask (downstream_task edge)) (key edge) false))%flow
             (fun e g => In e (edges g))) with (f := f1); [| | |exact H2].
    + intros x. apply grows_bind;
        [intros g a g' [= _ <-]; split; apply incl_refl | intros es].
      apply grows_when, grows_add_edge.
    + intros x g g' _ E Hx. apply E. assumption.
    + intros x g g' Hb. unfold bind, get_edges in Hb. cbv beta iota in Hb.
      destruct (mem Edge_eq_dec x (edges g)) eqn:Em; simpl in Hb.
      * injection Hb as <-. apply mem_true_iff in Em. assumption.
      * apply add_edge_ok_inserted in Hb. simpl in Hb. destruct x. exact Hb.
Qed.

(** When [add_task_results] returns, every task result is part of the
    flow. *)
Lemma add_task_results_ok_merged trs v f f' :
  add_task_results trs v f = (Ok tt, f') ->
  forall tr, In tr trs -> merged tr f'.
Proof.
  intros H. unfold add_task_results in H. apply restore_graph_on_error_ok in H.
  destruct H as [H _]. revert H.
  apply (for_each_each TaskResult
           (fun t => add_task (ATask (tr_task t)) ;; update (tr_flow t) false)%flow
           (fun tr g => merged tr g)).
  - intros t. apply grows_bind; [apply grows_add_task | intros _; apply grows_update].
  - intros tr g g' T E (H1 & H2 & H3). split; [auto|].
    split; eapply incl_tran; eassumption.
  - intros tr g g' Hb. apply bind_ok in Hb. destruct Hb as ([] & g1 & H1 & H2).
    apply add_task_ok_inserted in H1.
    destruct (grows_update _ _ _ _ _ H2) as [T _].
    apply update_ok_includes in H2. destruct H2 as [H2 H3].
    split; [apply T; assumption|]. split; assumption.
Qed.

Lemma merged_mono tr f g :
  incl (tasks f) (tasks g) -> incl (edges f) (edges g) ->
  merged tr f -> merged tr g.
Proof.
  intros T E (H1 & H2 & H3). split; [auto|].
  split; eapply incl_tran; eassumption.
Qed.

Section SetDependenciesFacts.
Variable as_task_result : task_like -> result TaskResult.

(** One of the three loops of [set_dependencies]: [edge_of] builds the edge
    between the task result of an element and the task. *)
Lemma dependencies_loop A (arg : A -> task_like)
    (up down : A -> TaskResult -> task_like) (k : A -> option string) :
  forall xs f f',
  for_each xs
    (fun x =>
       tr <- query (fun _ => as_task_result (arg x)) ;;
       add_task_results [tr] true ;;
       add_edge (up x tr) (down x tr) (k x) false)%flow f = (Ok tt, f') ->
  forall x, In x xs ->
    exists tr, as_task_result (arg x) = Ok tr /\ merged tr f' /\
      In (mkEdge (resolve (up x tr)) (resolve (down x tr)) (k x)) (edges f').
Proof.
  apply (for_each_each A
           (fun x =>
              tr <- query (fun _ => as_task_result (arg x)) ;;
              add_task_results [tr] true ;;
              add_edge (up x tr) (down x tr) (k x) false)%flow
           (fun x g => exists tr, as_task_result (arg x) = Ok tr /\ merged tr g /\
              In (mkEdge (resolve (up x tr)) (resolve (down x tr)) (k x)) (edges g))).
  - intros x. apply grows_bind; [apply grows_query | intros tr].
    apply grows_bind; [apply grows_add_task_results | intros _].
    apply grows_add_edge.
  - intros x g g' T E (tr & H1 & H2 & H3). exists tr. split; [assumption|].
    split; [eapply merged_mono; eassumption | auto].
  - intros x g g' Hb. apply bind_ok in Hb. destruct Hb as (tr & g1 & H1 & H2).
    unfold query in H1. injection H1 as H1 <-.
    apply bind_ok in H2. destruct H2 as ([] & g2 & H2 & H3).
    exists tr. split; [assumption|].
    destruct (grows_add_edge _ _ _ _ _ _ _ H3) as [T E].
    split; [|eapply add_edge_ok_inserted; eassumption].
    apply (merged_mono tr g2 g' T E).
    apply (add_task_results_ok_merged [tr] true g g2 H2). left. reflexivity.
Qed.

End SetDependenciesFacts.

(** X13: when [set_dependencies] returns, [as_task_result] accepted the
    task and its [run] takes no variable positional argument; the result
    pairs that task with the flow; the task and the flow of its task result
    are part of the flow, and so is the task result of every upstream task,
    downstream task and keyword result, together with the edge asked for
    (from the upstream task, to the downstream task, under the key); with
    [validate] true the flow passes the cycle check. *)
Theorem set_dependencies_ok
    (as_task_result : task_like -> result TaskResult)
    (task : task_like) (us ds : list task_like)
    (ks : list (string * task_like)) (v : bool)
    (f f' : Flow) (r : TaskResult) :
  set_dependencies as_task_result task us ds ks v f = (Ok r, f') ->
  exists tr,
    as_task_result task = Ok tr /\
    r = mkTaskResult (tr_task tr) f' /\
    has_varargs (run_signature (tr_task tr)) = false /\
    merged tr f' /\
    (forall t, In t us ->
       exists tr', as_task_result t = Ok tr' /\ merged tr' f' /\
         In (mkEdge (tr_task tr') (tr_task tr) None) (edges f')) /\
    (forall t, In t ds ->
       exists tr', as_task_result t = Ok tr' /\ merged tr' f' /\
         In (mkEdge (tr_task tr) (tr_task tr') None) (edges f')) /\
    (forall kt, In kt ks ->
       exists tr', as_task_result (snd kt) = Ok tr' /\ merged tr' f' /\
         In (mkEdge (tr_task tr') (tr_task tr) (Some (fst kt))) (edges f')) /\
    (v = true -> validate f' = Ok tt).
Proof.
  intros H. unfold set_dependencies in H.
  apply bind_ok in H. destruct H as (task' & f1 & H & Hr).
  injection Hr as <- <-.
  apply restore_graph_on_error_ok in H. destruct H as [H Hv].
  apply bind_ok in H. destruct H as (tr & f2 & H1 & H).
  unfold query in H1. injection H1 as H1 <-.
  exists tr. split; [assumption|].
  apply bind_ok in H. destruct H as ([] & f3 & Hva & H).
  destruct (has_varargs (run_signature (tr_task tr))) eqn:Eva;
    [discriminate|].
  unfold ret in Hva. injection Hva as <-.
  apply bind_ok in H. destruct H as ([] & f4 & Hres & H).
  assert (G := grows_set_dependencies_block as_task_result us ds ks (tr_task tr)
                 _ _ _ H).
  apply bind_ok in H. destruct H as ([] & f5 & Hus & H).
  assert (G5 := H).
  apply bind_ok in H. destruct H as ([] & f6 & Hds & H).
  assert (G6 := H).
  apply bind_ok in H. destruct H as ([] & f7 & Hks & H).
  unfold ret in H. injection H as <- <-.
  split; [reflexivity|]. split; [reflexivity|].
  split.
  { destruct G as [T E]. apply (merged_mono tr f4 f7 T E).
    apply (add_task_results_ok_merged [tr] true f f4 Hres). left. reflexivity. }
  split.
  { intros t Ht.
    destruct (dependencies_loop as_task_result task_like (fun t => t)
                (fun _ tr' => IsTaskResult tr') (fun _ _ => IsTask (tr_task tr))
                (fun _ => None) us f4 f5 Hus t Ht) as (tr' & E1 & E2 & E3).
    exists tr'. split; [assumption|].
    assert (G' : incl (tasks f5) (tasks f7) /\ incl (edges f5) (edges f7)).
    { revert G5. apply grows_bind.
      - apply grows_for_each. intros x.
        apply grows_bind; [apply grows_query | intros y].
        apply grows_bind; [apply grows_add_task_results | intros _].
        apply grows_add_edge.
      - intros _. apply grows_bind; [|intros _; apply grows_ret].
        apply grows_for_each. intros x.
        apply grows_bind; [apply grows_query | intros y].
        apply grows_bind; [apply grows_add_task_results | intros _].
        apply grows_add_edge. }
    destruct G' as [T E].
    split; [eapply merged_mono; eassumption | apply E; exact E3]. }
  split.
  { intros t Ht.
    destruct (dependencies_loop as_task_result task_like (fun t => t)
                (fun _ _ => IsTask (tr_task tr)) (fun _ tr' => IsTaskResult tr')
                (fun _ => None) ds f5 f6 Hds t Ht) as (tr' & E1 & E2 & E3).
    exists tr'. split; [assumption|].
    assert (G' : incl (tasks f6) (tasks f7) /\ incl (edges f6) (edges f7)).
    { revert G6. apply grows_bind; [|intros _; apply grows_ret].
      apply grows_for_each. intros x.
      apply grows_bind; [apply grows_query | intros y].
      apply grows_bind; [apply grows_add_task_results | intros _].
      apply grows_add_edge. }
    destruct G' as [T E].
    split; [eapply merged_mono; eassumption | apply E; exact E3]. }
  split; [|assumption].
  intros kt Hkt.
  destruct (dependencies_loop as_task_result (string * task_like) snd
              (fun _ tr' => IsTaskResult tr') (fun _ _ => IsTask (tr_task tr))
              (fun kt => Some (fst kt)) ks f6 f7 Hks kt Hkt)
    as (tr' & E1 & E2 & E3).
  exists tr'. auto.
Qed.

Lemma set_dependencies_ok_witness :
  set_dependencies wrap_task (IsTask transform) [IsTask reference] [IsTask load]
    [("data", IsTask extract)] true etl_empty
  = (Ok (mkTaskResult transform
           (mkFlow "etl" (Some "1") [transform; reference; load; extract]
              [mkEdge reference transform None; mkEdge transform load None;
               mkEdge extract transform (Some "data")])),
     mkFlow "etl" (Some "1") [transform; reference; load; extract]
       [mkEdge reference transform None; mkEdge transform load None;
        mkEdge extract transform (Some "data")]) /\
  exists tr f',
    wrap_task (IsTask transform) = Ok tr /\
    merged tr f' /\
    (forall t, In t [IsTask reference] ->
       exists tr', wrap_task t = Ok tr' /\ merged tr' f' /\
         In (mkEdge (tr_task tr') (tr_task tr) None) (edges f')) /\
    validate f' = Ok tt.
Proof.
  split; [reflexivity|].
  destruct (set_dependencies_ok wrap_task (IsTask transform) [IsTask reference]
              [IsTask load] [("data", IsTask extract)] true etl_empty _ _ eq_refl)
    as (tr & E & _ & _ & Hm & Hu & _ & _ & Hv).
  exists tr. eexists. split; [exact E|]. split; [exact Hm|].
  split; [exact Hu | exact (Hv eq_refl)].
Defined.

(** X14: [set_dependencies] raises what [as_task_result] raises on the
    task, and raises the [ValueError] on variable positional arguments when
    the [run] of the task takes [*args], whatever the other arguments are;
    in both cases the flow is left as it was. *)
Theorem set_dependencies_rejected
    (as_task_result : task_like -> result TaskResult)
    (task : task_like) (us ds : list task_like)
    (ks : list (string * task_like)) (v : bool) (f : Flow) :
  (forall e, as_task_result task = Raise e ->
     set_dependencies as_task_result task us ds ks v f = (Raise e, f)) /\
  (forall tr, as_task_result task = Ok tr ->
     has_varargs (run_signature (tr_task tr)) = true ->
     set_dependencies as_task_result task us ds ks v f
     = (Raise ValueError_varargs, f)).
Proof.
  split.
  - intros e E. unfold set_dependencies, bind, restore_graph_on_error, query.
    rewrite E. simpl. rewrite flow_eta. reflexivity.
  - intros tr E Hva.
    unfold set_dependencies, bind, restore_graph_on_error, query.
    rewrite E, Hva. simpl. rewrite flow_eta. reflexivity.
Qed.

Lemma set_dependencies_rejected_witness :
  wrap_task (IsTask variadic) = Ok (mkTaskResult variadic (mkFlow "Flow" None [] [])) /\
  has_varargs (run_signature variadic) = true /\
  set_dependencies wrap_task (IsTask variadic) [IsTask extract] [] [] true etl
  = (Raise ValueError_varargs, etl).
Proof.
  split; [reflexivity|]. split; [reflexivity|].
  exact (proj2 (set_dependencies_rejected wrap_task (IsTask variadic)
                  [IsTask extract] [] [] true etl)
           (mkTaskResult variadic (mkFlow "Flow" None [] [])) eq_refl eq_refl).
Defined.

(** ** [xor] *)

Lemma xorb_involutive a b : xorb (xorb a b) b = a.
Proof. destruct a, b; reflexivity. Qed.

Lemma byte_xor_involutive x y : byte_xor (byte_xor x y) y = x.
Proof.
  unfold byte_xor.
  rewrite <- (Byte.of_bits_to_bits x) at 2.
  destruct (Byte.to_bits x) as (a0 & a1 & a2 & a3 & a4 & a5 & a6 & a7).
  destruct (Byte.to_bits y) as (b0 & b1 & b2 & b3 & b4 & b5 & b6 & b7).
  rewrite Byte.to_bits_of_bits. rewrite !xorb_involutive. reflexivity.
Qed.


(** The byte of [xor a b] at a position of [a]. *)
Lemma xor_nth a b i :
  b <> [] -> i < List.length a ->
  nth i (xor a b) x00
  = byte_xor (nth i a x00) (nth (i mod List.length b) b x00).
Proof.
  intros Hb Hi. unfold xor. destruct b as [|y b]; [congruence|].
  set (g := fun ix : nat * byte =>
              byte_xor (snd ix) (nth (fst ix mod List.length (y :: b)) (y :: b) x00)).
  rewrite (nth_indep _ x00 (g (0, x00))).
  - rewrite map_nth, combine_nth by (rewrite length_seq; reflexivity).
    rewrite seq_nth by assumption. reflexivity.
  - rewrite length_map, length_combine, length_seq. lia.
Qed.

Lemma xor_involutive a b : b <> [] -> xor (xor a b) b = a.
Proof.
  intros Hb. pose proof (xor_length a b Hb) as Hl.
  apply (nth_ext _ _ x00 x00).
  - rewrite xor_length; assumption.
  - intros i Hi. rewrite xor_length in Hi by assumption.
    rewrite Hl in Hi.
    rewrite xor_nth by (try rewrite Hl; assumption).
    rewrite xor_nth by assumption. apply byte_xor_involutive.
Qed.



(** ** Task IDs *)

(** X16: with a digest of sixteen bytes, whenever [generate_task_ids]
    returns on a flow of the data model it returns one ID for each task of
    the flow, no task twice, and no two tasks get the same ID. *)
Theorem task_ids_pairwise_distinct
    (md5 : list byte -> list byte) (jsonpickle_dumps : pickled -> string)
    (str_of_tuple : list byte -> list (option string * list byte) -> string)
    (fuel : nat) (f : Flow) (ids : list (Task * string)) :
  (forall b, List.length (md5 b) = 16) ->
  well_formed f ->
  generate_task_ids md5 jsonpickle_dumps str_of_tuple fuel f = Some (Ok ids) ->
  Permutation (map fst ids) (tasks f) /\ NoDup (map fst ids) /\
  NoDup (map snd ids) /\
  forall t1 t2 s, In (t1, s) ids -> In (t2, s) ids -> t1 = t2.
Proof.
  intros Hmd5 Hwf H.
  destruct (generate_task_ids_distinct md5 jsonpickle_dumps str_of_tuple Hmd5
              f fuel ids Hwf H) as [P N].
  assert (Nk : NoDup (map fst ids)).
  { eapply Permutation_NoDup; [apply Permutation_sym; exact P | apply Hwf]. }
  split; [assumption|]. split; [assumption|]. split; [assumption|].
  clear - N. induction ids as [|[t s] ids IH]; intros t1 t2 s0 H1 H2.
  - destruct H1.
  - simpl in N. inversion N as [|? ? Hn N']. subst.
    destruct H1 as [H1|H1]; destruct H2 as [H2|H2].
    + congruence.
    + exfalso. apply Hn. apply (in_map snd) in H2.
      injection H1 as _ <-. exact H2.
    + exfalso. apply Hn. apply (in_map snd) in H1.
      injection H2 as _ <-. exact H1.
    + eapply IH; eassumption.
Qed.

Lemma task_ids_pairwise_distinct_witness :
  (forall b, List.length (counting16 b) = 16) /\ well_formed etl_symmetric /\
  exists ids,
    generate_task_ids counting16 dumps_example str_example 10 etl_symmetric
    = Some (Ok ids) /\
    map fst ids = [extract; transform; transform_twin] /\
    NoDup (map snd ids).
Proof.
  assert (Hwf : well_formed etl_symmetric)
    by (apply well_formedb_sound; reflexivity).
  split; [exact counting16_length|]. split; [exact Hwf|].
  eexists. split; [vm_compute; reflexivity|]. split; [reflexivity|].
  exact (proj1 (proj2 (proj2
    (task_ids_pairwise_distinct counting16 dumps_example str_example 10
       etl_symmetric _ counting16_length Hwf eq_refl)))).
Defined.

(** *** The duplicate check *)

Lemma duplicate_check_returns_aux (md5 : list byte -> list byte)
    (jsonpickle_dumps : pickled -> string) : forall n h c k,
  k <= n -> (c h <= 1 \/ c (Nat.iter k md5 h) = 0) ->
  exists j c',
    j <= k /\
    duplicate_check md5 jsonpickle_dumps n h c = Some (Nat.iter j md5 h, c') /\
    c' (Nat.iter j md5 h) <= 1 /\ forall x, c x <= c' x.
Proof.
  induction n as [|n IH]; intros h c k Hk H.
  - assert (c h <= 1).
    { destruct H as [H|H]; [assumption|].
      replace k with 0 in H by lia. simpl in H. lia. }
    exists 0, c. simpl. split; [lia|].
    destruct (Nat.ltb_spec 1 (c h)); [lia|]. auto.
  - destruct (Nat.ltb_spec 1 (c h)) as [Hlt|Hle].
    + destruct H as [H|H]; [lia|].
      destruct k as [|k]; [simpl in H; lia|].
      rewrite Nat.iter_succ_r in H.
      destruct (IH (md5 h) (increment c (md5 h)) k) as (j & c' & Hj & E & Hc & Hi).
      * lia.
      * destruct (bytes_eq_dec (Nat.iter k md5 (md5 h)) (md5 h)) as [Eq|Ne].
        -- left. rewrite increment_spec.
           destruct (bytes_eq_dec (md5 h) (md5 h)); [|congruence].
           rewrite Eq in H. lia.
        -- right. rewrite increment_spec.
           destruct (bytes_eq_dec (md5 h) (Nat.iter k md5 (md5 h)));
             [congruence | lia].
      * exists (S j), c'. rewrite Nat.iter_succ_r. split; [lia|].
        split.
        -- simpl. destruct (Nat.ltb_spec 1 (c h)); [|lia]. exact E.
        -- split; [assumption|]. intros x.
           eapply Nat.le_trans; [apply (increment_le c (md5 h) x) | apply Hi].
    + exists 0, c. split; [lia|]. split; [|auto]. simpl.
      destruct (Nat.ltb_spec 1 (c h)); [lia|]. reflexivity.
Qed.

(** X17: the duplicate check of forward pass #2 returns as soon as
    rehashing reaches a hash that was not counted before: if the [k]-th
    rehash of [h] has count zero, the loop returns within [k] iterations,
    with a rehash of [h] whose count is at most one, and it lowers no
    count. *)
Theorem duplicate_check_returns
    (md5 : list byte -> list byte) (jsonpickle_dumps : pickled -> string)
    (fuel k : nat) (h : list byte) (c : Counter) :
  k <= fuel -> c (Nat.iter k md5 h) = 0 ->
  exists j c',
    j <= k /\
    duplicate_check md5 jsonpickle_dumps fuel h c
    = Some (Nat.iter j md5 h, c') /\
    c' (Nat.iter j md5 h) <= 1 /\ forall x, c x <= c' x.
Proof.
  intros Hk H. apply duplicate_check_returns_aux; auto.
Qed.

Lemma duplicate_check_returns_witness :
  exists j c',
    j <= 1 /\
    duplicate_check counting16 dumps_example 5 (padded16 [])
      (Counter_of [padded16 []; padded16 []])
    = Some (Nat.iter j counting16 (padded16 []), c') /\
    c' (Nat.iter j counting16 (padded16 [])) <= 1 /\
    forall x, Counter_of [padded16 []; padded16 []] x <= c' x.
Proof.
  apply (duplicate_check_returns counting16 dumps_example 5 1 (padded16 [])
           (Counter_of [padded16 []; padded16 []])).
  - lia.
  - reflexivity.
Defined.

(** *** Tasks with pairwise different base hashes *)

Lemma hash_set_fresh d t h :
  ~ In t (map fst d) -> hash_set d t h = d ++ [(t, h)].
Proof.
  induction d as [|[t' h'] d IH]; simpl; intros Hn; [reflexivity|].
  destruct (Task_eq_dec t t') as [->|Hne]; [tauto|].
  rewrite IH by tauto. reflexivity.
Qed.

Lemma hash_set_same d t h : hash_get d t = Ok h -> hash_set d t h = d.
Proof.
  induction d as [|[t' h'] d IH]; simpl; [discriminate|].
  destruct (Task_eq_dec t t') as [->|Hne].
  - intros [= ->]. reflexivity.
  - intros H. rewrite IH by assumption. reflexivity.
Qed.

Lemma count_occ_NoDup_in (l : list (list byte)) x :
  NoDup l -> In x l -> count_occ bytes_eq_dec l x = 1.
Proof.
  intros N H. apply (proj1 (NoDup_count_occ' bytes_eq_dec l) N x H).
Qed.

Section UniqueBaseHashes.
Variable md5 : list byte -> list byte.
Variable jsonpickle_dumps : pickled -> string.
Variable str_of_tuple : list byte -> list (option string * list byte) -> string.
Variable f : Flow.
Variable hs : hash_dict.
Variable c : Counter.
Hypothesis once : forall t h, hash_get hs t = Ok h -> c h = 1.

(** With every count at one, a pass over tasks whose hashes are recorded
    already changes nothing. *)
Lemma passes_record_again
    (step : fingerprint_state -> Task -> result fingerprint_state) :
  (forall fin t h, hash_get hs t = Ok h ->
     step (mkState hs c fin) t = Ok (mkState hs c (hash_set fin t h))) ->
  forall fin,
    (forall t h, hash_get fin t = Ok h -> hash_get hs t = Ok h) ->
    forall ts, incl ts (map fst fin) ->
    rfold step ts (mkState hs c fin) = Ok (mkState hs c fin).
Proof.
  intros Hstep fin Hsub. induction ts as [|t ts IH]; intros Hin; [reflexivity|].
  assert (Ht : In t (map fst fin)) by (apply Hin; left; reflexivity).
  destruct (hash_get fin t) as [h|e] eqn:G.
  - simpl. rewrite (Hstep fin t h (Hsub t h G)). simpl.
    rewrite (hash_set_same fin t h G). apply IH.
    intros x Hx. apply Hin. right. assumption.
  - exfalso. clear - G Ht. induction fin as [|[t' h'] fin IH]; [destruct Ht|].
    simpl in G, Ht. destruct (Task_eq_dec t t'); [discriminate|].
    destruct Ht as [->|Ht]; [congruence | auto].
Qed.

(** With every count at one, a pass over tasks without a recorded hash
    records the hash of each, in the order of the pass. *)
Lemma passes_record_first
    (step : fingerprint_state -> Task -> result fingerprint_state)
    (g : Task -> list byte) :
  (forall fin t h, hash_get hs t = Ok h ->
     step (mkState hs c fin) t = Ok (mkState hs c (hash_set fin t h))) ->
  forall ts fin,
    (forall t, In t ts -> hash_get hs t = Ok (g t)) ->
    NoDup (map fst fin ++ ts) ->
    rfold step ts (mkState hs c fin)
    = Ok (mkState hs c (fin ++ map (fun t => (t, g t)) ts)).
Proof.
  intros Hstep. induction ts as [|t ts IH]; intros fin Hts Hnd.
  - simpl. rewrite app_nil_r. reflexivity.
  - simpl. rewrite (Hstep fin t (g t)) by (apply Hts; left; reflexivity).
    simpl. rewrite hash_set_fresh.
    + rewrite IH.
      * rewrite <- app_assoc. reflexivity.
      * intros x Hx. apply Hts. right. assumption.
      * rewrite map_app, <- app_assoc. exact Hnd.
    + apply NoDup_remove_2 in Hnd. intros Hin. apply Hnd.
      apply in_or_app. auto.
Qed.

Lemma forward_step_once fin t h :
  hash_get hs t = Ok h ->
  forward_step md5 jsonpickle_dumps f (mkState hs c fin) t
  = Ok (mkState hs c (hash_set fin t h)).
Proof.
  intros G. unfold forward_step. simpl. rewrite G. simpl.
  rewrite (once t h G). reflexivity.
Qed.

Lemma backward_step_once fin t h :
  hash_get hs t = Ok h ->
  backward_step md5 jsonpickle_dumps str_of_tuple f (mkState hs c fin) t
  = Ok (mkState hs c (hash_set fin t h)).
Proof.
  intros G. unfold backward_step. simpl. rewrite G. simpl.
  rewrite (once t h G). reflexivity.
Qed.

Lemma final_pass_once fuel : forall ts fin,
  (forall t, In t ts -> exists h, hash_get hs t = Ok h) ->
  final_pass md5 jsonpickle_dumps str_of_tuple fuel f ts (mkState hs c fin)
  = Some (rfold (fun st t =>
                   (h <- hash_get (hashes st) t ;;
                    Ok (mkState (hashes st) (counter st)
                                (hash_set (final_hashes st) t h)))%result)
                ts (mkState hs c fin)).
Proof.
  induction ts as [|t ts IH]; intros fin Hts; [reflexivity|].
  destruct (Hts t (or_introl eq_refl)) as [h Hh].
  simpl. unfold final_step. simpl. rewrite Hh. simpl.
  rewrite (once t h Hh). simpl. apply IH.
  intros t' Ht'. apply Hts. right. assumption.
Qed.

End UniqueBaseHashes.

Lemma seed_ids_total seed (g : Task -> list byte) :
  List.length seed = 16 -> (forall t, List.length (g t) = 16) ->
  forall ts acc,
  exists ids',
    rfold (fun acc th =>
             (s <- uuid_of_bytes (xor seed (snd th)) ;;
              Ok (acc ++ [(fst th, s)]))%result)
          (map (fun t => (t, g t)) ts) acc = Ok (acc ++ ids') /\
    map fst ids' = ts /\
    forall t s, In (t, s) ids' -> uuid_of_bytes (xor seed (g t)) = Ok s.
Proof.
  intros Hseed Hg. induction ts as [|t ts IH]; intros acc.
  - exists []. simpl. rewrite app_nil_r. split; [reflexivity|].
    split; [reflexivity | intros t s []].
  - assert (Hl : List.length (xor seed (g t)) = 16).
    { rewrite xor_length; [assumption|]. intros E.
      pose proof (Hg t) as Hgt. rewrite E in Hgt. discriminate. }
    destruct (uuid_of_bytes (xor seed (g t))) as [s|e] eqn:Eu.
    + destruct (IH (acc ++ [(t, s)])) as (ids' & E & K & V).
      exists ((t, s) :: ids'). simpl. rewrite Eu. simpl. rewrite E.
      rewrite <- app_assoc. split; [reflexivity|]. split; [simpl; congruence|].
      intros t' s' [[= <- <-]|H]; [assumption | auto].
    + unfold uuid_of_bytes in Eu. rewrite Hl in Eu. discriminate.
Qed.

(** X18: on a flow of the data model whose tasks have pairwise different
    base hashes (the digest having sixteen bytes), [generate_task_ids]
    returns whatever bound is put on the duplicate check, which never runs:
    the tasks come in the order of [sorted_tasks], and the ID of each task is
    the UUID of the hash of ["name:version"] xored with its base hash. *)
Theorem generate_task_ids_unique_hashes
    (md5 : list byte -> list byte) (jsonpickle_dumps : pickled -> string)
    (str_of_tuple : list byte -> list (option string * list byte) -> string)
    (fuel : nat) (f : Flow) (order : list Task) :
  (forall b, List.length (md5 b) = 16) ->
  well_formed f ->
  NoDup (map (fun t => get_hash md5 jsonpickle_dumps (Hash_task t)) (tasks f)) ->
  sorted_tasks f None = Ok order ->
  exists ids,
    generate_task_ids md5 jsonpickle_dumps str_of_tuple fuel f = Some (Ok ids) /\
    map fst ids = order /\
    forall t s, In (t, s) ids ->
      uuid_of_bytes
        (xor (md5 (list_byte_of_string
                     (name f ++ ":"
                      ++ match version f with Some v => v | None => "" end)))
             (get_hash md5 jsonpickle_dumps (Hash_task t))) = Ok s.
Proof.
  intros Hmd5 Hwf Hg Ho.
  set (g := fun t => get_hash md5 jsonpickle_dumps (Hash_task t)) in *.
  set (seed := md5 (list_byte_of_string
                      (name f ++ ":"
                       ++ match version f with Some v => v | None => "" end))).
  destruct (sorted_tasks_permutation f order Hwf Ho) as [Hnd Hperm].
  assert (Hin : forall t, In t order -> In t (tasks f)).
  { intros t. apply Permutation_in. assumption. }
  unfold generate_task_ids. cbv zeta.
  change (map (fun t : Task => (t, get_hash md5 jsonpickle_dumps (Hash_task t)))
              (tasks f))
    with (map (fun t => (t, g t)) (tasks f)).
  set (hs0 := map (fun t => (t, g t)) (tasks f)).
  set (c0 := Counter_of (map snd hs0)).
  assert (once : forall t h, hash_get hs0 t = Ok h -> c0 h = 1).
  { intros t h G. unfold c0, Counter_of. apply count_occ_NoDup_in.
    - unfold hs0. rewrite map_map. simpl. exact Hg.
    - apply hash_get_in in G. apply (in_map snd) in G. exact G. }
  assert (Hget : forall t, In t order -> hash_get hs0 t = Ok (g t)).
  { intros t Ht. apply hash_get_map. auto. }
  rewrite Ho. cbn [rbind].
  rewrite (passes_record_first hs0 c0
             (forward_step md5 jsonpickle_dumps f) g
             (forward_step_once md5 jsonpickle_dumps f hs0 c0 once)
             order [] Hget Hnd).
  cbn [rbind app].
  set (fin := map (fun t => (t, g t)) order).
  assert (Hkeys : map fst fin = order).
  { unfold fin. rewrite map_map. simpl. apply map_id. }
  assert (Hsub : forall t h, hash_get fin t = Ok h -> hash_get hs0 t = Ok h).
  { intros t h G. apply hash_get_in in G. unfold fin in G.
    apply in_map_iff in G. destruct G as (t' & [= <- <-] & Ht').
    apply Hget. assumption. }
  rewrite (passes_record_again hs0 c0
             (backward_step md5 jsonpickle_dumps str_of_tuple f)
             (backward_step_once md5 jsonpickle_dumps str_of_tuple f hs0 c0 once)
             fin Hsub (rev order)).
  2:{ rewrite Hkeys. intros x Hx. apply in_rev. assumption. }
  cbn [rbind].
  rewrite (final_pass_once md5 jsonpickle_dumps str_of_tuple f hs0 c0 once fuel
             order fin).
  2:{ intros t Ht. exists (g t). auto. }
  assert (Hrec : forall fin0 t h, hash_get hs0 t = Ok h ->
            (fun st t =>
               (h <- hash_get (hashes st) t ;;
                Ok (mkState (hashes st) (counter st)
                            (hash_set (final_hashes st) t h)))%result)
              (mkState hs0 c0 fin0) t
            = Ok (mkState hs0 c0 (hash_set fin0 t h))).
  { intros fin0 t h G. simpl. rewrite G. reflexivity. }
  rewrite (passes_record_again hs0 c0 _ Hrec fin Hsub order).
  2:{ rewrite Hkeys. apply incl_refl. }
  cbn [final_hashes].
  unfold generate_flow_id. cbv zeta. cbn [get_hash]. fold seed.
  assert (Hseed : List.length seed = 16) by apply Hmd5.
  destruct (uuid_of_bytes seed) as [flow_id|e] eqn:Eu.
  2:{ unfold uuid_of_bytes in Eu. rewrite Hseed in Eu. discriminate. }
  cbn [rbind]. rewrite (bytes_of_uuid_of_bytes seed flow_id Eu). cbn [rbind].
  destruct (seed_ids_total seed g Hseed (fun t => Hmd5 _) order [])
    as (ids & E & K & V).
  exists ids. unfold seed_ids. fold fin in E. rewrite E.
  split; [reflexivity|]. split; assumption.
Qed.

Lemma generate_task_ids_unique_hashes_witness :
  (forall b, List.length (padded16 b) = 16) /\ well_formed etl /\
  NoDup (map (fun t => get_hash padded16 dumps_example (Hash_task t)) (tasks etl)) /\
  sorted_tasks etl None = Ok [extract; transform; load] /\
  exists ids,
    generate_task_ids padded16 dumps_example str_example 0 etl = Some (Ok ids) /\
    map fst ids = [extract; transform; load].
Proof.
  assert (Hwf : well_formed etl) by (apply well_formedb_sound; reflexivity).
  assert (Hg : NoDup (map (fun t => get_hash padded16 dumps_example (Hash_task t))
                          (tasks etl))).
  { vm_compute. repeat constructor; simpl; intuition discriminate. }
  split; [exact padded16_length|]. split; [exact Hwf|]. split; [exact Hg|].
  split; [reflexivity|].
  destruct (generate_task_ids_unique_hashes padded16 dumps_example str_example 0
              etl [extract; transform; load] padded16_length Hwf Hg eq_refl)
    as (ids & E & K & _).
  exists ids. split; assumption.
Defined.

(** *** The same graph under another name or version *)

Section SameGraph.
Variables f g : Flow.
Hypothesis same_tasks : tasks f = tasks g.
Hypothesis same_edges : edges f = edges g.

Lemma edges_to_same t : edges_to f t = edges_to g t.
Proof.
  unfold edges_to, all_upstream_edges. rewrite same_tasks, same_edges.
  reflexivity.
Qed.

Lemma edges_from_same t : edges_from f t = edges_from g t.
Proof.
  unfold edges_from, all_downstream_edges. rewrite same_tasks, same_edges.
  reflexivity.
Qed.

Lemma scan_same : forall todo R S c, scan f todo R S c = scan g todo R S c.
Proof.
  induction todo as [|t todo IH]; intros R S c; simpl; [reflexivity|].
  unfold upstream_tasks. rewrite edges_to_same.
  destruct (edges_to g t) as [es|e]; simpl; [|reflexivity].
  rewrite !IH. reflexivity.
Qed.

Lemma sort_loop_same : forall n R S, sort_loop f n R S = sort_loop g n R S.
Proof.
  induction n as [|n IH]; intros R S; simpl; [reflexivity|].
  destruct R as [|r R]; [reflexivity|]. rewrite scan_same.
  destruct (scan g (r :: R) (r :: R) S true) as [[[R' S'] c]|e]; [|reflexivity].
  destruct c; [reflexivity | apply IH].
Qed.

Lemma sorted_tasks_all_same : sorted_tasks f None = sorted_tasks g None.
Proof.
  unfold sorted_tasks, working_tasks. rewrite same_tasks. simpl.
  rewrite sort_loop_same. reflexivity.
Qed.

Variable md5 : list byte -> list byte.
Variable jsonpickle_dumps : pickled -> string.
Variable str_of_tuple : list byte -> list (option string * list byte) -> string.

Lemma rfold_ext A B (s1 s2 : B -> A -> result B) :
  (forall b a, s1 b a = s2 b a) ->
  forall xs b, rfold s1 xs b = rfold s2 xs b.
Proof.
  intros H. induction xs as [|x xs IH]; intros b; simpl; [reflexivity|].
  rewrite H. destruct (s2 b x); simpl; auto.
Qed.

Lemma forward_step_same st t :
  forward_step md5 jsonpickle_dumps f st t
  = forward_step md5 jsonpickle_dumps g st t.
Proof. unfold forward_step. rewrite edges_to_same. reflexivity. Qed.

Lemma backward_step_same st t :
  backward_step md5 jsonpickle_dumps str_of_tuple f st t
  = backward_step md5 jsonpickle_dumps str_of_tuple g st t.
Proof. unfold backward_step. rewrite edges_from_same. reflexivity. Qed.

Lemma final_pass_same fuel : forall ts st,
  final_pass md5 jsonpickle_dumps str_of_tuple fuel f ts st
  = final_pass md5 jsonpickle_dumps str_of_tuple fuel g ts st.
Proof.
  induction ts as [|t ts IH]; intros st; simpl; [reflexivity|].
  unfold final_step. rewrite edges_to_same.
  destruct (hash_get (hashes st) t) as [h|e]; [|reflexivity].
  destruct (Nat.eqb (counter st h) 1); [apply IH|].
  destruct (es <- edges_to g t ;; edge_hashes_of (hashes st) upstream_task es)%result
    as [eh|e]; [|reflexivity].
  destruct (duplicate_check md5 jsonpickle_dumps fuel _ _) as [[h' c']|];
    [apply IH | reflexivity].
Qed.

End SameGraph.

Lemma seed_ids_returns seed :
  List.length seed = 16 ->
  forall final acc,
    Forall (fun th : Task * list byte => snd th <> []) final ->
    exists ids',
      rfold (fun acc th =>
               (s <- uuid_of_bytes (xor seed (snd th)) ;;
                Ok (acc ++ [(fst th, s)]))%result) final acc
      = Ok (acc ++ ids').
Proof.
  intros Hseed. induction final as [|[t h] final IH]; intros acc HF.
  - exists []. simpl. rewrite app_nil_r. reflexivity.
  - inversion HF as [|? ? Hh HF']; subst. simpl in Hh.
    assert (Hl : List.length (xor seed h) = 16)
      by (rewrite xor_length; assumption).
    destruct (uuid_of_bytes (xor seed h)) as [s|e] eqn:Eu.
    + destruct (IH (acc ++ [(t, s)]) HF') as (ids' & E).
      exists ((t, s) :: ids'). simpl. rewrite Eu. simpl. rewrite E.
      rewrite <- app_assoc. reflexivity.
    + unfold uuid_of_bytes in Eu. rewrite Hl in Eu. discriminate.
Qed.

(** What [generate_task_ids] returns is the seeding of hashes that depend
    on the tasks and the edges only. *)
Lemma generate_task_ids_seeding
    (md5 : list byte -> list byte) (jsonpickle_dumps : pickled -> string)
    (str_of_tuple : list byte -> list (option string * list byte) -> string)
    (fuel : nat) (f : Flow) (ids : list (Task * string)) :
  generate_task_ids md5 jsonpickle_dumps str_of_tuple fuel f = Some (Ok ids) ->
  exists final,
    forall g, tasks f = tasks g -> edges f = edges g ->
      generate_task_ids md5 jsonpickle_dumps str_of_tuple fuel g
      = Some (flow_id <- generate_flow_id md5 jsonpickle_dumps g ;;
              seed <- bytes_of_uuid flow_id ;;
              seed_ids seed final)%result.
Proof.
  intros H. unfold generate_task_ids in H. cbv zeta in H.
  destruct (sorted_tasks f None) as [order|e] eqn:Eo; [|discriminate].
  cbn [rbind] in H.
  destruct (rfold (forward_step md5 jsonpickle_dumps f) order _)
    as [st1|e] eqn:E1; [|discriminate].
  cbn [rbind] in H.
  destruct (rfold (backward_step md5 jsonpickle_dumps str_of_tuple f)
              (rev order) st1) as [st2|e] eqn:E2; [|discriminate].
  cbn [rbind] in H.
  destruct (final_pass md5 jsonpickle_dumps str_of_tuple fuel f order st2)
    as [[st3|e]|] eqn:E3; try discriminate.
  exists (final_hashes st3). intros g T E.
  unfold generate_task_ids. cbv zeta.
  rewrite <- T, <- (sorted_tasks_all_same f g T E), Eo. cbn [rbind].
  rewrite <- (rfold_ext _ _ _ _ (forward_step_same f g T E md5 jsonpickle_dumps)), E1.
  cbn [rbind].
  rewrite <- (rfold_ext _ _ _ _
                (backward_step_same f g T E md5 jsonpickle_dumps str_of_tuple)), E2.
  cbn [rbind].
  rewrite <- (final_pass_same f g T E md5 jsonpickle_dumps str_of_tuple), E3.
  reflexivity.
Qed.

(** X19: take two flows with the same tasks and edges but different flow
    IDs (the digest having sixteen bytes).  If [generate_task_ids] returns on
    the first, it returns on the second, for the same tasks in the same
    order, and every task gets a different ID in the two flows. *)
Theorem task_ids_follow_flow_id
    (md5 : list byte -> list byte) (jsonpickle_dumps : pickled -> string)
    (str_of_tuple : list byte -> list (option string * list byte) -> string)
    (fuel : nat) (f g : Flow) (ids : list (Task * string)) :
  (forall b, List.length (md5 b) = 16) ->
  tasks f = tasks g -> edges f = edges g ->
  generate_task_ids md5 jsonpickle_dumps str_of_tuple fuel f = Some (Ok ids) ->
  generate_flow_id md5 jsonpickle_dumps f
  <> generate_flow_id md5 jsonpickle_dumps g ->
  exists ids',
    generate_task_ids md5 jsonpickle_dumps str_of_tuple fuel g = Some (Ok ids') /\
    Forall2 (fun a b : Task * string => fst a = fst b /\ snd a <> snd b) ids ids'.
Proof.
  intros Hmd5 T E H Hne.
  destruct (generate_task_ids_seeding md5 jsonpickle_dumps str_of_tuple fuel f
              ids H) as (final & Hfin).
  rewrite (Hfin f eq_refl eq_refl) in H. rewrite (Hfin g T E).
  unfold generate_flow_id in *. cbv zeta in *. cbn [get_hash] in *.
  set (sf := md5 (list_byte_of_string
                    (name f ++ ":"
                     ++ match version f with Some v => v | None => "" end))) in *.
  set (sg := md5 (list_byte_of_string
                    (name g ++ ":"
                     ++ match version g with Some v => v | None => "" end))) in *.
  assert (Lf : List.length sf = 16) by apply Hmd5.
  assert (Lg : List.length sg = 16) by apply Hmd5.
  destruct (uuid_of_bytes sf) as [idf|e] eqn:Ef.
  2:{ unfold uuid_of_bytes in Ef. rewrite Lf in Ef. discriminate. }
  destruct (uuid_of_bytes sg) as [idg|e] eqn:Eg.
  2:{ unfold uuid_of_bytes in Eg. rewrite Lg in Eg. discriminate. }
  assert (Hs : sf <> sg) by (intros Hs; apply Hne; congruence).
  cbn [rbind] in *.
  rewrite (bytes_of_uuid_of_bytes sf idf Ef) in H.
  rewrite (bytes_of_uuid_of_bytes sg idg Eg).
  cbn [rbind] in *. injection H as H. unfold seed_ids in *.
  apply seed_ids_spec in H. destruct H as (ids0 & -> & HF). simpl.
  assert (Hnil : Forall (fun th : Task * list byte => snd th <> []) final).
  { clear - HF. induction HF as [|th ts final ids [_ Hu] _ IH]; constructor.
    - intros Eh. rewrite Eh in Hu. unfold xor, uuid_of_bytes in Hu.
      simpl in Hu. discriminate.
    - assumption. }
  destruct (seed_ids_returns sg Lg final [] Hnil) as (ids' & E').
  exists ids'. split; [rewrite E'; reflexivity|].
  apply seed_ids_spec in E'. destruct E' as (ids1 & E1 & HG).
  simpl in E1. subst ids1.
  clear - HF HG Hs Hnil Lf Lg. revert ids' HG.
  induction HF as [|th ts final ids [Hk Hu] HF IH]; intros ids' HG;
    inversion HG as [|? ts' ? ids1 [Hk' Hu'] HG']; subst; constructor.
  - split; [congruence|]. intros Hsame. rewrite Hsame in Hu.
    pose proof (uuid_of_bytes_inj _ _ _ Hu Hu') as Hx.
    inversion Hnil as [|? ? Hh _]; subst.
    apply Hs. rewrite <- (xor_involutive sf (snd th) Hh), Hx.
    apply xor_involutive. assumption.
  - inversion Hnil; subst. apply IH; assumption.
Qed.

Lemma task_ids_follow_flow_id_witness :
  (forall b, List.length (padded16 b) = 16) /\
  tasks etl = tasks etl_v2 /\ edges etl = edges etl_v2 /\
  generate_flow_id padded16 dumps_example etl
  <> generate_flow_id padded16 dumps_example etl_v2 /\
  exists ids ids',
    generate_task_ids padded16 dumps_example str_example 0 etl = Some (Ok ids) /\
    generate_task_ids padded16 dumps_example str_example 0 etl_v2
    = Some (Ok ids') /\
    Forall2 (fun a b : Task * string => fst a = fst b /\ snd a <> snd b) ids ids'.
Proof.
  assert (Hne : generate_flow_id padded16 dumps_example etl
                <> generate_flow_id padded16 dumps_example etl_v2)
    by (vm_compute; discriminate).
  split; [exact padded16_length|]. split; [reflexivity|]. split; [reflexivity|].
  split; [exact Hne|].
  eexists.
  destruct (task_ids_follow_flow_id padded16 dumps_example str_example 0
              etl etl_v2 _ padded16_length eq_refl eq_refl
              ltac:(vm_compute; reflexivity) Hne) as (ids' & E & HF).
  exists ids'. split; [vm_compute; reflexivity|]. split; assumption.
Defined.

(** ** The constructor *)

Lemma add_edge_ok_validated u d k f f' :
  add_edge u d k true f = (Ok tt, f') -> validate f' = Ok tt.
Proof.
  intros H. unfold add_edge in H.
  destruct (is_parameter (resolve d)); [discriminate|].
  apply bind_ok in H. destruct H as ([] & f1 & H1 & H2).
  apply restore_graph_on_error_ok in H2. apply H2. reflexivity.
Qed.

Lemma no_edges_no_cycle f ws : edges f = [] -> ~ has_cycle f ws.
Proof.
  intros E [t H].
  assert (G : forall x y, clos_trans Task (dep_in f ws) x y -> False).
  { intros x y Hxy. induction Hxy as [x y [(e & He & _) _] | x y z _ IH _ _];
      [rewrite E in He; destruct He | assumption]. }
  exact (G t t H).
Qed.

Lemma validate_no_edges f : NoDup (tasks f) -> edges f = [] -> validate f = Ok tt.
Proof.
  intros Hnd E. unfold validate, sorted_tasks. simpl.
  destruct (sort_working_set f (tasks f)) as [(l & El & _) | (_ & Hc)].
  - intros e He. rewrite E in He. destruct He.
  - apply incl_refl.
  - assumption.
  - rewrite El. reflexivity.
  - exfalso. exact (no_edges_no_cycle f (tasks f) E Hc).
Qed.

(** The first loop of [Flow.__init__]. *)
Lemma init_tasks_loop : forall ts f f1,
  for_each ts add_task f = (Ok tt, f1) ->
  name f1 = name f /\ version f1 = version f /\ edges f1 = edges f /\
  (forall o, In o ts -> exists t, o = ATask t) /\
  (forall t, In t (tasks f1) <-> In t (tasks f) \/ In (ATask t) ts) /\
  (NoDup (tasks f) -> NoDup (tasks f1)).
Proof.
  induction ts as [|x ts IH]; cbn [for_each]; intros f f1 H.
  - unfold ret in H. injection H as <-. repeat (split; [reflexivity|]).
    split; [intros o [] | split; [intros t; simpl; tauto | auto]].
  - apply bind_ok in H. destruct H as ([] & f2 & H1 & H2).
    destruct (add_task_cases x f) as [[e He] | (t0 & -> & Ho)]; [congruence|].
    rewrite Ho in H1. injection H1 as <-.
    destruct (IH _ _ H2) as (N & V & E & A & T & D). simpl in N, V, E, T, D.
    split; [assumption|]. split; [assumption|]. split; [assumption|].
    split; [|split].
    + intros o [<-|Ho']; [eauto | auto].
    + intros t. rewrite T, in_set_add. simpl. intuition congruence.
    + intros Hnd. apply D, NoDup_set_add. assumption.
Qed.

(** The second loop of [Flow.__init__]. *)
Lemma init_edges_loop : forall es f f',
  for_each es
    (fun e => add_edge (IsTask (upstream_task e)) (IsTask (downstream_task e))
                       (key e) true) f = (Ok tt, f') ->
  name f' = name f /\ version f' = version f /\
  (forall e, In e (edges f') <-> In e (edges f) \/ In e es) /\
  (forall t, In t (tasks f') <->
             In t (tasks f) \/
             exists e, In e es /\ (t = upstream_task e \/ t = downstream_task e)) /\
  (validate f = Ok tt -> validate f' = Ok tt).
Proof.
  induction es as [|x es IH]; cbn [for_each]; intros f f' H.
  - unfold ret in H. injection H as <-. repeat (split; [reflexivity|]).
    split; [intros e; simpl; tauto|].
    split; [|auto]. intros t. split; [auto | intros [?|(e & [] & _)]; auto].
  - apply bind_ok in H. destruct H as ([] & f2 & H1 & H2).
    pose proof (add_edge_ok_validated _ _ _ _ _ H1) as Hv.
    destruct (add_edge_cases (IsTask (upstream_task x))
                (IsTask (downstream_task x)) (key x) true f)
      as [(e0 & f0 & He & _) | [Ho _]]; [congruence|].
    rewrite Ho in H1. injection H1 as <-. cbn [resolve] in *.
    assert (Hx : mkEdge (upstream_task x) (downstream_task x) (key x) = x)
      by (destruct x; reflexivity).
    rewrite Hx in *.
    destruct (IH _ _ H2) as (N & V & E & T & Val). simpl in N, V, E, T.
    split; [assumption|]. split; [assumption|]. split; [|split].
    + intros e. rewrite E, in_set_add. simpl. intuition congruence.
    + intros t. rewrite T, !in_set_add. split.
      * intros [[->|[->|?]]|(e & He & Ht)]; auto;
          right; [exists x | exists x | exists e]; simpl; auto.
      * intros [?|(e & [<-|He] & Ht)];
          [auto | destruct Ht as [->| ->]; auto | right; exists e; auto].
    + intros _. apply Val. exact Hv.
Qed.

(** X20: when the constructor returns, the flow carries the given name
    (["Flow"] when the name is missing or empty) and the given version,
    every given object was a task, the tasks of the flow are the given tasks
    and the endpoints of the given edges, its edges are the given edges, no
    task is repeated and the flow passes [validate]. *)
Theorem Flow_init_ok (name_ version_ : option string) (tasks_ : list pyobject)
    (edges_ : list Edge) (f : Flow) :
  Flow_init name_ version_ tasks_ edges_ = Ok f ->
  name f = (if truthy name_
            then match name_ with Some n => n | None => "" end
            else "Flow") /\
  version f = version_ /\
  (forall o, In o tasks_ -> exists t, o = ATask t) /\
  (forall t, In t (tasks f) <->
             In (ATask t) tasks_ \/
             exists e, In e edges_ /\
                       (t = upstream_task e \/ t = downstream_task e)) /\
  (forall e, In e (edges f) <-> In e edges_) /\
  NoDup (tasks f) /\ validate f = Ok tt.
Proof.
  intros H. pose proof (Flow_init_invariant _ _ _ _ _ H) as [[Hnd _] _].
  unfold Flow_init in H.
  match type of H with
  | match _ ?s with _ => _ end = _ => set (self := s) in H
  end.
  destruct (bind _ _ self) as [[[]|e] f0] eqn:Hb; [|discriminate].
  injection H as ->.
  apply bind_ok in Hb. destruct Hb as ([] & f1 & H1 & H2).
  apply init_tasks_loop in H1. destruct H1 as (N1 & V1 & E1 & A1 & T1 & D1).
  assert (Val1 : validate f1 = Ok tt).
  { apply validate_no_edges; [apply D1; constructor | rewrite E1; reflexivity]. }
  apply init_edges_loop in H2. destruct H2 as (N2 & V2 & E2 & T2 & Val2).
  split; [rewrite N2, N1; reflexivity|].
  split; [rewrite V2, V1; reflexivity|].
  split; [assumption|]. split; [|split].
  - intros t. rewrite T2, T1. simpl. tauto.
  - intros e. rewrite E2, E1. simpl. tauto.
  - split; [assumption | auto].
Qed.

Lemma Flow_init_ok_witness :
  Flow_init (Some "etl") (Some "1")
    [ATask extract; ATask transform; ATask load]
    [mkEdge extract transform (Some "data"); mkEdge transform load None]
  = Ok etl /\
  name etl = "etl" /\ version etl = Some "1" /\
  (forall e, In e (edges etl) <->
     In e [mkEdge extract transform (Some "data"); mkEdge transform load None]) /\
  NoDup (tasks etl) /\ validate etl = Ok tt.
Proof.
  split; [reflexivity|].
  destruct (Flow_init_ok (Some "etl") (Some "1")
              [ATask extract; ATask transform; ATask load]
              [mkEdge extract transform (Some "data"); mkEdge transform load None]
              etl eq_refl) as (N & V & _ & _ & E & D & Val).
  split; [exact N|]. split; [exact V|]. split; [exact E|].
  split; [exact D | exact Val].
Defined.

(** *** Cyclic flows get no IDs *)

(** X21: on a flow of the data model that has a cycle,
    [generate_task_ids] raises the cycle error of [sorted_tasks], whatever
    the digest and the serialisers. *)
Theorem generate_task_ids_cyclic
    (md5 : list byte -> list byte) (jsonpickle_dumps : pickled -> string)
    (str_of_tuple : list byte -> list (option string * list byte) -> string)
    (fuel : nat) (f : Flow) :
  well_formed f -> has_cycle f (tasks f) ->
  generate_task_ids md5 jsonpickle_dumps str_of_tuple fuel f
  = Some (Raise ValueError_cyclic).
Proof.
  intros Hwf Hc. pose proof (validate_cyclic f Hwf Hc) as Hv.
  unfold validate in Hv. unfold generate_task_ids. cbv zeta.
  destruct (sorted_tasks f None) as [l|e]; [discriminate|].
  simpl in Hv. injection Hv as ->. reflexivity.
Qed.

Lemma generate_task_ids_cyclic_witness :
  well_formed etl_cycle /\ has_cycle etl_cycle (tasks etl_cycle) /\
  generate_task_ids padded16 dumps_example str_example 0 etl_cycle
  = Some (Raise ValueError_cyclic).
Proof.
  assert (Hwf : well_formed etl_cycle) by (apply well_formedb_sound; reflexivity).
  assert (Hc : has_cycle etl_cycle (tasks etl_cycle)).
  { exists extract.
    assert (S : forall u v, In (mkEdge u v None) (edges etl_cycle) ->
                In u (tasks etl_cycle) -> In v (tasks etl_cycle) ->
                clos_trans Task (dep_in etl_cycle (tasks etl_cycle)) u v).
    { intros u v He Hu Hv. apply t_step. split; [|auto].
      exists (mkEdge u v None). auto. }
    apply t_trans with transform; [apply S; simpl; auto|].
    apply t_trans with load; apply S; simpl; auto. }
  split; [exact Hwf|]. split; [exact Hc|].
  exact (generate_task_ids_cyclic padded16 dumps_example str_example 0
           etl_cycle Hwf Hc).
Defined.

(** ** Merging the same flow again *)

Lemma bind_returns A B (m : M A) (k : A -> M B) f a f1 :
  m f = (Ok a, f1) -> bind m k f = k a f1.
Proof. intros H. unfold bind. rewrite H. reflexivity. Qed.

Lemma update_tasks_skip other f :
  incl other (tasks f) ->
  for_each other
    (fun task =>
       ts <- get_tasks ;;
       when (negb (mem Task_eq_dec task ts)) (add_task (ATask task)))%flow f
  = (Ok tt, f).
Proof.
  induction other as [|t other IH]; intros Hin; [reflexivity|].
  cbn [for_each]. unfold bind at 1. unfold bind at 1. unfold get_tasks.
  assert (Hm : mem Task_eq_dec t (tasks f) = true).
  { apply mem_true_iff. apply Hin. left. reflexivity. }
  rewrite Hm. simpl. apply IH. intros x Hx. apply Hin. right. assumption.
Qed.

Lemma update_edges_skip other f :
  incl other (edges f) ->
  for_each other
    (fun edge =>
       es <- get_edges ;;
       when (negb (mem Edge_eq_dec edge es))
            (add_edge (IsTask (upstream_task edge))
                      (IsTask (downstream_task edge)) (key edge) false))%flow f
  = (Ok tt, f).
Proof.
  induction other as [|e other IH]; intros Hin; [reflexivity|].
  cbn [for_each]. unfold bind at 1. unfold bind at 1. unfold get_edges.
  assert (Hm : mem Edge_eq_dec e (edges f) = true).
  { apply mem_true_iff. apply Hin. left. reflexivity. }
  rewrite Hm. simpl. apply IH. intros x Hx. apply Hin. right. assumption.
Qed.

(** X22: merging the same flow a second time changes nothing: once
    [update] has returned, [update] with the same flow and [validate] false
    returns and leaves the flow as it is, and so does [update] with
    [validate] true when the first call validated. *)
Theorem update_twice (other : Flow) (v : bool) (f f' : Flow) :
  update other v f = (Ok tt, f') ->
  update other false f' = (Ok tt, f') /\
  (v = true -> update other true f' = (Ok tt, f')).
Proof.
  intros H. destruct (update_ok_includes other v f f' H) as [T E].
  unfold update in H. apply restore_graph_on_error_ok in H.
  destruct H as [_ Hv].
  assert (Hb : forall v', (v' = true -> validate f' = Ok tt) ->
                 update other v' f' = (Ok tt, f')).
  { intros v' Hv'. unfold update, restore_graph_on_error.
    rewrite (bind_returns _ _ _ _ _ _ _ (update_tasks_skip (tasks other) f' T)).
    rewrite (update_edges_skip (edges other) f' E).
    destruct v'; [rewrite (Hv' eq_refl)|]; reflexivity. }
  split; [apply Hb; discriminate | intros ->; apply Hb; assumption].
Qed.

Lemma update_twice_witness :
  exists f',
    update etl_twins true etl = (Ok tt, f') /\
    update etl_twins false f' = (Ok tt, f') /\
    update etl_twins true f' = (Ok tt, f').
Proof.
  eexists. split; [reflexivity|].
  split.
  - exact (proj1 (update_twice etl_twins true etl _ eq_refl)).
  - exact (proj2 (update_twice etl_twins true etl _ eq_refl) eq_refl).
Defined.
